(** * Icon generators of the Tracker repository: a shallow embedding

    Two scripts are modelled:
    - [Resources/generate_icon.py] (the pattern icon, module [PipelineA]);
    - [generate_icon.py] (the rainbow infinity icon, module [PipelineB]).

    Python [int]s are [Z].  Python [float]s are read at three levels.

    - In the drawing pipelines a float is the exact rational ([Q]) its
      expression denotes: the binary64 rounding is dropped.  [int(x)] on a
      float truncates toward zero.  [math.sin], [math.cos], [math.sqrt] and
      [math.pi] enter as parameters.  Where the truncated value is an
      integer quotient ([int(c1 + d * y / h)], [int(30 - i * 1.5)]) the
      exact value and the binary64 value truncate to the same integer.  A
      product with a decimal literal ([int(size * 0.08)]) can differ from
      the exact reading only where the exact product is an integer.
    - The rainbow interpolator [get_rainbow_color] is modelled in binary64
      as well ([Binary64], [Rainbow64]): every operation rounds to the
      nearest double, ties to even; a product that overflows is an
      infinity, on which [int] raises OverflowError.  The results about
      the colours the interpolator returns are stated on this reading.
      The stroke loop of [PipelineB] uses the exact reading [Rainbow],
      whose channels can differ by one from the binary64 ones.
    - The curve sampler is generic in its arithmetic.  It is read over the
      real numbers ([Curve]) and, for a curve of four points, in binary64
      ([Curve64]). *)

From Stdlib Require Import ZArith QArith Qround Qabs Qpower.
From Stdlib Require Import List Bool Lia Reals Psatz.
From Stdlib Require String.
Import ListNotations.

Local Open Scope Z_scope.

(** ** Python values and control *)

Module Py.

(** The exceptions the modelled code can meet. *)
Inductive exn : Type :=
| ValueError
| ZeroDivisionError
| IndexError
| OverflowError.

Inductive result (A : Type) : Type :=
| Ok (a : A)
| Raise (e : exn).
Arguments Ok {A} a.
Arguments Raise {A} e.

Definition rbind {A B : Type} (r : result A) (k : A -> result B) : result B :=
  match r with
  | Ok a => k a
  | Raise e => Raise e
  end.

(** [int(x)] for a float [x]: truncation toward zero. *)
Definition int (x : Q) : Z := Z.quot (Qnum x) (Z.pos (Qden x)).

(** [range(lo, hi)]. *)
Definition range (lo hi : Z) : list Z :=
  map (fun k => lo + Z.of_nat k) (seq 0 (Z.to_nat (hi - lo))).

(** [l[i]] on a list or tuple: a negative index counts from the end,
    an index outside [-len, len) raises IndexError. *)
Definition getitem {A : Type} (l : list A) (i : Z) : result A :=
  let n := Z.of_nat (length l) in
  let j := if i <? 0 then i + n else i in
  if (0 <=? j) && (j <? n)
  then match nth_error l (Z.to_nat j) with
       | Some a => Ok a
       | None => Raise IndexError
       end
  else Raise IndexError.

End Py.

Notation "x <-? r ; k" := (Py.rbind r (fun x => k))
  (at level 61, r at next level, right associativity).

(** An RGB colour: a 3-tuple of channel values. *)
Definition rgb : Type := (Z * Z * Z)%type.

Definition chan_r (c : rgb) : Z := fst (fst c).
Definition chan_g (c : rgb) : Z := snd (fst c).
Definition chan_b (c : rgb) : Z := snd c.

(** ** The rainbow interpolator ([generate_icon.py], [get_rainbow_color]) *)

Module Rainbow.
Import Py.

Definition colors : list rgb :=
  [ (255, 0, 0);      (* Red *)
    (255, 127, 0);    (* Orange *)
    (255, 255, 0);    (* Yellow *)
    (0, 255, 0);      (* Green *)
    (0, 127, 255);    (* Blue *)
    (75, 0, 130);     (* Indigo *)
    (148, 0, 211) ].  (* Violet *)

(** [int(c1 * (1 - ratio) + c2 * ratio)] *)
Definition blend (c1 c2 : Z) (ratio : Q) : Z :=
  int (inject_Z c1 * (1 - ratio) + inject_Z c2 * ratio)%Q.

Definition get_rainbow_color (position : Q) : result rgb :=
  let len := Z.of_nat (length colors) in
  let scaled_pos := (position * inject_Z (len - 1))%Q in
  let idx := int scaled_pos in
  if idx >=? len - 1 then getitem colors (-1)
  else
    let ratio := (scaled_pos - inject_Z idx)%Q in
    c1 <-? getitem colors idx ;
    c2 <-? getitem colors (idx + 1) ;
    let r := blend (chan_r c1) (chan_r c2) ratio in
    let g := blend (chan_g c1) (chan_g c2) ratio in
    let b := blend (chan_b c1) (chan_b c2) ratio in
    Ok (r, g, b).

(** The anchor colours by position in the palette. *)
Definition anchor (k : Z) : rgb := nth (Z.to_nat k) colors (0, 0, 0).

Definition first_anchor : rgb := (255, 0, 0).
Definition last_anchor : rgb := (148, 0, 211).

(** [c] is a convex combination of the colours [a] and [b]: one weight
    [lam] in [0, 1] gives all three channels. *)
Definition convex_combination (c a b : rgb) : Prop :=
  exists lam : Q,
    (0 <= lam)%Q /\ (lam <= 1)%Q /\
    (inject_Z (chan_r c)
     == (1 - lam) * inject_Z (chan_r a) + lam * inject_Z (chan_r b))%Q /\
    (inject_Z (chan_g c)
     == (1 - lam) * inject_Z (chan_g a) + lam * inject_Z (chan_g b))%Q /\
    (inject_Z (chan_b c)
     == (1 - lam) * inject_Z (chan_b a) + lam * inject_Z (chan_b b))%Q.

End Rainbow.

(** ** The image library as the scripts use it

    Pillow is not part of the repository.  An image is modelled by its
    mode, its dimensions and the history of calls that built its pixels;
    each call checks what Pillow checks before it draws. *)

Module PIL.
Import Py.

Inductive mode : Type := RGB | RGBA | L.

Definition mode_eqb (a b : mode) : bool :=
  match a, b with
  | RGB, RGB | RGBA, RGBA | L, L => true
  | _, _ => false
  end.

(** A fill or pixel value: the tuple of its channels. *)
Definition ink : Type := list Z.

Definition rgb_ink (c : rgb) : ink := [chan_r c; chan_g c; chan_b c].
(** [( *color, alpha)] *)
Definition rgba_ink (c : rgb) (alpha : Z) : ink :=
  [chan_r c; chan_g c; chan_b c; alpha].

(** The [ImageDraw] and pixel-access calls of the two scripts. *)
Inductive draw_op : Type :=
| Line (x0 y0 x1 y1 : Q) (fill : ink) (width : Z)
| Ellipse (x0 y0 x1 y1 : Q) (fill : ink)
| RoundedRectangle (x0 y0 x1 y1 radius : Z) (fill : ink)
| PutPixel (x y : Z) (value : ink).

(** How the pixels of an image came about. *)
Inductive content : Type :=
| Blank (fill : ink)
| Draw (onto : content) (op : draw_op)
| Convert (src : content)
| AlphaComposite (im1 im2 : content)
| Paste (onto src : content)
| PasteMasked (onto src mask : content)
| PutAlpha (onto alpha : content).

Record Image : Type := mkImage {
  im_mode : mode;
  im_width : Z;
  im_height : Z;
  im_data : content
}.

Definition im_size (im : Image) : Z * Z := (im_width im, im_height im).

(** A canvas allocation, as recorded in the log. *)
Record canvas : Type := mkCanvas {
  cv_mode : mode;
  cv_width : Z;
  cv_height : Z
}.

(** Computations that allocate canvases and may raise. *)
Definition M (A : Type) : Type := list canvas -> list canvas * result A.

Definition ret {A : Type} (a : A) : M A := fun log => (log, Ok a).

Definition raise {A : Type} (e : exn) : M A := fun log => (log, Raise e).

Definition bind {A B : Type} (m : M A) (k : A -> M B) : M B :=
  fun log =>
    match m log with
    | (log', Ok a) => k a log'
    | (log', Raise e) => (log', Raise e)
    end.

Definition lift {A : Type} (r : result A) : M A := fun log => (log, r).

(** A [for] loop whose body updates [acc] and may raise. *)
Fixpoint for_each {A B : Type} (l : list A) (acc : B) (body : B -> A -> M B)
  : M B :=
  match l with
  | [] => ret acc
  | a :: l' => bind (body acc a) (fun acc' => for_each l' acc' body)
  end.

Definition allocate (m : mode) (w h : Z) (d : content) : M Image :=
  fun log => (log ++ [mkCanvas m w h], Ok (mkImage m w h d)).

(** [Image.new(mode, (w, h), color)]: negative dimensions are refused. *)
Definition new (m : mode) (size : Z * Z) (color : ink) : M Image :=
  let '(w, h) := size in
  if (w <? 0) || (h <? 0) then raise ValueError
  else allocate m w h (Blank color).

(** [im.convert('RGBA')]: a new image of the same size. *)
Definition convert (im : Image) (m : mode) : M Image :=
  allocate m (im_width im) (im_height im) (Convert (im_data im)).

(** [Image.alpha_composite(im1, im2)]: both RGBA and of one size. *)
Definition alpha_composite (im1 im2 : Image) : M Image :=
  if mode_eqb (im_mode im1) RGBA && mode_eqb (im_mode im2) RGBA
     && (im_width im1 =? im_width im2) && (im_height im1 =? im_height im2)
  then allocate RGBA (im_width im1) (im_height im1)
                (AlphaComposite (im_data im1) (im_data im2))
  else raise ValueError.

Definition drawn (im : Image) (op : draw_op) : Image :=
  mkImage (im_mode im) (im_width im) (im_height im) (Draw (im_data im) op).

(** The image after a sequence of drawing calls. *)
Definition draw_all (im : Image) (ops : list draw_op) : Image :=
  fold_left drawn ops im.

(** [draw.line([(x0, y0), (x1, y1)], fill, width)] *)
Definition line (im : Image) (x0 y0 x1 y1 : Q) (fill : ink) (width : Z)
  : M Image :=
  ret (drawn im (Line x0 y0 x1 y1 fill width)).

(** [draw.ellipse([x0, y0, x1, y1], fill)]: the bounding box must have
    [x1 >= x0] and [y1 >= y0]; Pillow raises ValueError ("x1 must be
    greater than or equal to x0") for a box that is not ordered so. *)
Definition ellipse (im : Image) (x0 y0 x1 y1 : Q) (fill : ink) : M Image :=
  if Qle_bool x0 x1 && Qle_bool y0 y1
  then ret (drawn im (Ellipse x0 y0 x1 y1 fill))
  else raise ValueError.

(** [draw.rounded_rectangle([(x0, y0), (x1, y1)], radius, fill)], with
    the same condition on the box. *)
Definition rounded_rectangle (im : Image) (x0 y0 x1 y1 radius : Z)
           (fill : ink) : M Image :=
  if (x0 <=? x1) && (y0 <=? y1)
  then ret (drawn im (RoundedRectangle x0 y0 x1 y1 radius fill))
  else raise ValueError.

(** [im.putpixel((x, y), value)]: the pixel must exist. *)
Definition putpixel (im : Image) (x y : Z) (value : ink) : M Image :=
  if (0 <=? x) && (x <? im_width im) && (0 <=? y) && (y <? im_height im)
  then ret (drawn im (PutPixel x y value))
  else raise IndexError.

(** [im.paste(src, (0, 0))] and [im.paste(src, (0, 0), mask)]: the mask,
    when given, has the size of [src]. *)
Definition paste (im src : Image) (mask : option Image) : M Image :=
  let ok := match mask with
            | None => true
            | Some m => (im_width m =? im_width src)
                        && (im_height m =? im_height src)
            end in
  if ok
  then ret (mkImage (im_mode im) (im_width im) (im_height im)
                    match mask with
                    | None => Paste (im_data im) (im_data src)
                    | Some m =>
                        PasteMasked (im_data im) (im_data src) (im_data m)
                    end)
  else raise ValueError.

(** [im.putalpha(alpha)]: the band is an L image of the same size. *)
Definition putalpha (im alpha : Image) : M Image :=
  if mode_eqb (im_mode alpha) L
     && (im_width alpha =? im_width im) && (im_height alpha =? im_height im)
  then ret (mkImage (im_mode im) (im_width im) (im_height im)
                    (PutAlpha (im_data im) (im_data alpha)))
  else raise ValueError.

(** *** Pixels of a mask *)

(** Modelled from the spec: the rasteriser behind
    [ImageDraw.rounded_rectangle] is Pillow's and is not in the
    repository.  The spec describes the mask as one filled rounded
    rectangle with the given corner radius, pixels outside it
    transparent.  A pixel is filled when it lies in the box and, inside
    one of the four corner squares, within the corner's circle.
    Distances are doubled to stay in [Z]; the corner diameter is capped
    by the sides of the box. *)
Definition rounded_rectangle_covers (x0 y0 x1 y1 radius x y : Z) : bool :=
  let d := Z.max 0 (Z.min (2 * radius) (Z.min (x1 - x0) (y1 - y0))) in
  let dx := Z.max 0 (Z.max (2 * x0 + d - 2 * x) (2 * x - (2 * x1 - d))) in
  let dy := Z.max 0 (Z.max (2 * y0 + d - 2 * y) (2 * y - (2 * y1 - d))) in
  (x0 <=? x) && (x <=? x1) && (y0 <=? y) && (y <=? y1)
  && (dx * dx + dy * dy <=? d * d).

(** The value of a single-band image at a pixel, for images built from a
    blank canvas by rounded rectangles; [None] for other histories. *)
Fixpoint band_value (d : content) (x y : Z) : option Z :=
  match d with
  | Blank [v] => Some v
  | Draw d' (RoundedRectangle x0 y0 x1 y1 radius [v]) =>
      if rounded_rectangle_covers x0 y0 x1 y1 radius x y then Some v
      else band_value d' x y
  | _ => None
  end.

(** [im.getpixel((x, y))] on an L image. *)
Definition getpixel_L (im : Image) (x y : Z) : option Z :=
  if mode_eqb (im_mode im) L
     && (0 <=? x) && (x <? im_width im) && (0 <=? y) && (y <? im_height im)
  then band_value (im_data im) x y
  else None.

(** The alpha channel of an image after [putalpha]. *)
Definition getalpha (im : Image) (x y : Z) : option Z :=
  if (0 <=? x) && (x <? im_width im) && (0 <=? y) && (y <? im_height im)
  then match im_data im with
       | PutAlpha _ a => band_value a x y
       | _ => None
       end
  else None.

(** The calls drawn directly onto an image, oldest first. *)
Fixpoint ops_of (d : content) : list draw_op :=
  match d with
  | Draw d' op => ops_of d' ++ [op]
  | _ => []
  end.

End PIL.

Notation "x <- m ;; k" := (PIL.bind m (fun x => k))
  (at level 61, m at next level, right associativity).

(** ** Pipeline A: the pattern icon ([Resources/generate_icon.py])

    The [draw] argument the script hands to [draw_pattern_circles] and
    [draw_connecting_lines] is never used by them and is left out. *)

Module PipelineA.
Import Py PIL.

(** [int(c1 + (c2 - c1) * y / h)], one channel of scanline [y]. *)
Definition gradient_channel (c1 c2 y h : Z) : Z :=
  int (inject_Z c1 + inject_Z ((c2 - c1) * y) / inject_Z h)%Q.

(** The colour [(r, g, b)] the loop of [create_gradient_background]
    computes for scanline [y]. *)
Definition gradient_row (color1 color2 : rgb) (y h : Z) : rgb :=
  (gradient_channel (chan_r color1) (chan_r color2) y h,
   gradient_channel (chan_g color1) (chan_g color2) y h,
   gradient_channel (chan_b color1) (chan_b color2) y h).

Definition create_gradient_background (size : Z * Z) (color1 color2 : rgb)
  : M Image :=
  base <- new RGB size (rgb_ink color1) ;;
  for_each (range 0 (snd size)) base (fun base y =>
    line base (inject_Z 0) (inject_Z y) (inject_Z (fst size)) (inject_Z y)
         (rgb_ink (gradient_row color1 color2 y (snd size))) 0).

(** The glow loop of [create_icon]: [alpha = int(30 - i * 1.5)] and
    [radius = size // 2 - i * 5]. *)
Definition glow_alpha (i : Z) : Z := int (30 - inject_Z i * (15 # 10))%Q.
Definition glow_radius (size i : Z) : Z := size / 2 - i * 5.

Definition glow_step (size : Z) (glow_overlay : Image) (i : Z) : M Image :=
  let center_x := size / 2 in
  let center_y := size / 2 in
  let alpha := glow_alpha i in
  let radius := glow_radius size i in
  ellipse glow_overlay
          (inject_Z (center_x - radius)) (inject_Z (center_y - radius))
          (inject_Z (center_x + radius)) (inject_Z (center_y + radius))
          [255; 255; 255; alpha].

(** The [ellipse] call of iteration [i], once accepted. *)
Definition glow_circle (size i : Z) : draw_op :=
  Ellipse (inject_Z (size / 2 - glow_radius size i))
          (inject_Z (size / 2 - glow_radius size i))
          (inject_Z (size / 2 + glow_radius size i))
          (inject_Z (size / 2 + glow_radius size i))
          [255; 255; 255; glow_alpha i].

(** [corner_radius = int(size * 0.2237)] *)
Definition corner_radius (size : Z) : Z :=
  int (inject_Z size * (2237 # 10000))%Q.

(** The mask of [create_icon]. *)
Definition rounded_mask (size : Z) : M Image :=
  mask <- new L (size, size) [0] ;;
  rounded_rectangle mask 0 0 size size (corner_radius size) [255].

Section WithMath.
(** [math.radians], [math.cos] and [math.sin]. *)
Variable math_radians : Z -> Q.
Variables math_cos math_sin : Q -> Q.

Definition draw_pattern_circles (size : Z * Z) (color : rgb) (alpha : Z)
  : M Image :=
  let '(width, height) := size in
  let center_x := width / 2 in
  let center_y := height / 2 in
  overlay <- new RGBA size [0; 0; 0; 0] ;;
  let radius_base := Z.min width height / 6 in
  overlay <- ellipse overlay
               (inject_Z (center_x - radius_base))
               (inject_Z (center_y - radius_base))
               (inject_Z (center_x + radius_base))
               (inject_Z (center_y + radius_base))
               (rgba_ink color alpha) ;;
  let angles := [0; 60; 120; 180; 240; 300] in
  let offset := (inject_Z radius_base * (18 # 10))%Q in
  overlay <- for_each angles overlay (fun overlay angle =>
    let rad := math_radians angle in
    let x := (inject_Z center_x + offset * math_cos rad)%Q in
    let y := (inject_Z center_y + offset * math_sin rad)%Q in
    let r := (inject_Z radius_base * (7 # 10))%Q in
    ellipse overlay (x - r)%Q (y - r)%Q (x + r)%Q (y + r)%Q
            (rgba_ink color alpha)) ;;
  for_each [30; 90; 150; 210; 270; 330] overlay (fun overlay angle =>
    let rad := math_radians angle in
    let x := (inject_Z center_x + offset * (6 # 10) * math_cos rad)%Q in
    let y := (inject_Z center_y + offset * (6 # 10) * math_sin rad)%Q in
    let r := (inject_Z radius_base * (4 # 10))%Q in
    ellipse overlay (x - r)%Q (y - r)%Q (x + r)%Q (y + r)%Q
            (rgba_ink color alpha)).

Definition draw_connecting_lines (size : Z * Z) (color : rgb) (alpha : Z)
  : M Image :=
  let '(width, height) := size in
  let center_x := width / 2 in
  let center_y := height / 2 in
  overlay <- new RGBA size [0; 0; 0; 0] ;;
  let radius_base := Z.min width height / 6 in
  let offset := (inject_Z radius_base * (18 # 10))%Q in
  let angles := [0; 60; 120; 180; 240; 300] in
  for_each (combine (range 0 (Z.of_nat (length angles))) angles) overlay
    (fun overlay '(i, angle) =>
      let rad := math_radians angle in
      let x1 := (inject_Z center_x + offset * math_cos rad)%Q in
      let y1 := (inject_Z center_y + offset * math_sin rad)%Q in
      (* Connect to center *)
      overlay <- line overlay (inject_Z center_x) (inject_Z center_y) x1 y1
                      (rgba_ink color alpha) (Z.max 3 (width / 150)) ;;
      (* Connect to next circle *)
      next_angle <- lift (getitem angles
                            ((i + 1) mod Z.of_nat (length angles))) ;;
      let next_rad := math_radians next_angle in
      let x2 := (inject_Z center_x + offset * math_cos next_rad)%Q in
      let y2 := (inject_Z center_y + offset * math_sin next_rad)%Q in
      line overlay x1 y1 x2 y2
           (rgba_ink color (alpha / 2)) (Z.max 2 (width / 200))).

Definition create_icon (size : Z) : M Image :=
  (* Color scheme - blue gradient with white patterns *)
  let gradient_start : rgb := (58, 123, 213) in
  let gradient_end : rgb := (88, 86, 214) in
  let pattern_color : rgb := (255, 255, 255) in
  (* Create base with gradient *)
  img <- create_gradient_background (size, size)
           gradient_start gradient_end ;;
  img <- convert img RGBA ;;
  (* Add connecting lines *)
  lines_overlay <- draw_connecting_lines (size, size) pattern_color 150 ;;
  img <- alpha_composite img lines_overlay ;;
  (* Add pattern circles *)
  circles_overlay <- draw_pattern_circles (size, size) pattern_color 230 ;;
  img <- alpha_composite img circles_overlay ;;
  (* Add subtle glow effect *)
  glow_overlay <- new RGBA (size, size) [0; 0; 0; 0] ;;
  glow_overlay <- for_each (range 0 20) glow_overlay (glow_step size) ;;
  img <- alpha_composite img glow_overlay ;;
  (* Add rounded corners for iOS icon *)
  mask <- rounded_mask size ;;
  (* Apply mask *)
  output <- new RGBA (size, size) [0; 0; 0; 0] ;;
  output <- paste output img None ;;
  output <- putalpha output mask ;;
  ret output.

End WithMath.

(** The sizes [main] generates, in the order of its table. *)
Definition sizes : list Z :=
  [1024; 180; 167; 152; 120; 87; 80; 76; 60; 58; 40; 29; 20].

(** The canvases [create_icon] has allocated when the glow loop starts. *)
Definition log_before_glow (size : Z) : list canvas :=
  [ mkCanvas RGB size size;     (* gradient *)
    mkCanvas RGBA size size;    (* convert *)
    mkCanvas RGBA size size;    (* lines overlay *)
    mkCanvas RGBA size size;    (* composite *)
    mkCanvas RGBA size size;    (* circles overlay *)
    mkCanvas RGBA size size;    (* composite *)
    mkCanvas RGBA size size ].  (* glow overlay *)

(** The canvases of a complete run of [create_icon]. *)
Definition log_complete (size : Z) : list canvas :=
  log_before_glow size ++
  [ mkCanvas RGBA size size;    (* composite *)
    mkCanvas L size size;       (* mask *)
    mkCanvas RGBA size size ].  (* output *)

(** The mask image [rounded_mask] returns. *)
Definition mask_image (size : Z) : Image :=
  mkImage L size size
          (Draw (Blank [0])
                (RoundedRectangle 0 0 size size (corner_radius size) [255])).

End PipelineA.

(** ** Pipeline B: the rainbow infinity icon ([generate_icon.py]) *)

(** The float operations [draw_infinity_symbol] uses.  The script runs
    them on binary64 floats; the record lets the same definition be read
    over the rationals (with the library functions as parameters) and over
    the real numbers. *)
Record float_ops (F : Type) : Type := mkFloatOps {
  f_of_int : Z -> F;
  f_add : F -> F -> F;
  f_mul : F -> F -> F;
  f_div : F -> F -> F;
  f_sin : F -> F;
  f_cos : F -> F;
  f_pi : F
}.
Arguments f_of_int {F} _ _.
Arguments f_add {F} _ _ _.
Arguments f_mul {F} _ _ _.
Arguments f_div {F} _ _ _.
Arguments f_sin {F} _ _.
Arguments f_cos {F} _ _.
Arguments f_pi {F} _.

Definition Q_ops (math_sin math_cos : Q -> Q) (math_pi : Q) : float_ops Q :=
  mkFloatOps Q inject_Z Qplus Qmult Qdiv math_sin math_cos math_pi.

Definition R_ops : float_ops R :=
  mkFloatOps R IZR Rplus Rmult Rdiv sin cos PI.

Module PipelineB.
Import Py PIL Rainbow.

Section Sampler.
Context {F : Type} (fl : float_ops F).

Local Notation "a + b" := (f_add fl a b).
Local Notation "a * b" := (f_mul fl a b).
Local Notation "a / b" := (f_div fl a b).
Local Notation "# n" := (f_of_int fl n) (at level 5).

(** [t = (2 * math.pi * i) / num_points] *)
Definition sample_parameter (num_points i : Z) : F :=
  (#2 * f_pi fl * #i) / #num_points.

(** The point of the curve at parameter [t]: the body of the loop. *)
Definition lemniscate (center_x center_y : Z) (a b : F) (t : F) : F * F :=
  let denominator := #1 + f_sin fl t * f_sin fl t in
  let x := #center_x + (a * f_cos fl t) / denominator in
  let y := #center_y + (b * f_sin fl t * f_cos fl t) / denominator in
  (x, y).

Definition draw_infinity_symbol (center_x center_y width height : Z)
           (num_points : Z) : list (F * F) :=
  let a := #width / #2 in
  let b := #height / #2 in
  map (fun i => lemniscate center_x center_y a b
                           (sample_parameter num_points i))
      (range 0 num_points).

End Sampler.

(** [a / b] on floats raises when [b] is zero. *)
Definition float_div (a b : Q) : M Q :=
  if Qeq_bool b 0 then raise ZeroDivisionError else ret (a / b)%Q.

(** [i / n] on ints is a float. *)
Definition true_div (i n : Z) : M Q :=
  if n =? 0 then raise ZeroDivisionError
  else ret (inject_Z i / inject_Z n)%Q.

(** [range(-line_width//2, line_width//2)]; the unary minus binds
    tighter than [//]. *)
Definition stroke_offsets (line_width : Z) : list Z :=
  range ((- line_width) / 2) (line_width / 2).

(** The two [draw.line] calls of one offset. *)
Definition offset_lines (color : rgb) (p1 p2 : Q * Q) (offset : Z)
  : list draw_op :=
  let '(x1, y1) := p1 in
  let '(x2, y2) := p2 in
  [ Line x1 (y1 + inject_Z offset)%Q x2 (y2 + inject_Z offset)%Q
         (rgb_ink color) 3;
    Line (x1 + inject_Z offset)%Q y1 (x2 + inject_Z offset)%Q y2
         (rgb_ink color) 3 ].

(** The [draw.line] calls of the segment from point [i] to point
    [i + 1], in the order of the inner loop. *)
Definition segment_lines (points : list (Q * Q)) (line_width : Z) (i : Z)
  : list draw_op :=
  let len := Z.of_nat (length points) in
  match get_rainbow_color (inject_Z i / inject_Z len)%Q,
        getitem points i, getitem points (i + 1) with
  | Ok color, Ok p1, Ok p2 =>
      flat_map (offset_lines color p1 p2) (stroke_offsets line_width)
  | _, _, _ => []
  end.

(** The loop that strokes the curve (lines 106 to 126 of the script). *)
Definition draw_thick_curve (img : Image) (points : list (Q * Q))
           (line_width : Z) : M Image :=
  let len := Z.of_nat (length points) in
  for_each (range 0 (len - 1)) img (fun img i =>
    (* Get rainbow color based on position along the curve *)
    position <- true_div i len ;;
    color <- lift (get_rainbow_color position) ;;
    (* Draw thick line segment *)
    p1 <- lift (getitem points i) ;;
    p2 <- lift (getitem points (i + 1)) ;;
    (* Draw multiple lines to create thickness *)
    for_each (stroke_offsets line_width) img (fun img offset =>
      let '(x1, y1) := p1 in
      let '(x2, y2) := p2 in
      img <- line img x1 (y1 + inject_Z offset)%Q x2 (y2 + inject_Z offset)%Q
                  (rgb_ink color) 3 ;;
      line img (x1 + inject_Z offset)%Q y1 (x2 + inject_Z offset)%Q y2
           (rgb_ink color) 3)).

(** [corner_radius = int(size * 0.2237)] *)
Definition corner_radius (size : Z) : Z :=
  int (inject_Z size * (2237 # 10000))%Q.

(** The mask of [create_app_icon]. *)
Definition rounded_mask (size : Z) : M Image :=
  mask <- new L (size, size) [0] ;;
  rounded_rectangle mask 0 0 size size (corner_radius size) [255].

Section WithMath.
(** [math.sqrt], [math.sin], [math.cos] and [math.pi]. *)
Variables math_sqrt math_sin math_cos : Q -> Q.
Variable math_pi : Q.

(** The radial gradient. *)
Definition create_gradient_background (size : Z) (color1 color2 : rgb)
  : M Image :=
  base <- new RGB (size, size) (rgb_ink color1) ;;
  let center_x := size / 2 in
  let center_y := size / 2 in
  let max_radius := math_sqrt (inject_Z (center_x ^ 2 + center_y ^ 2)) in
  for_each (range 0 size) base (fun base y =>
    for_each (range 0 size) base (fun base x =>
      (* Calculate distance from center *)
      let distance :=
        math_sqrt (inject_Z ((x - center_x) ^ 2 + (y - center_y) ^ 2)) in
      ratio <- float_div distance max_radius ;;
      (* Interpolate colors *)
      let r := blend (chan_r color1) (chan_r color2) ratio in
      let g := blend (chan_g color1) (chan_g color2) ratio in
      let b := blend (chan_b color1) (chan_b color2) ratio in
      putpixel base x y [r; g; b])).

(** [create_app_icon], up to the image it saves. *)
Definition create_app_icon (size : Z) : M Image :=
  (* Purple gradient colors (lighter in center, darker on edges) *)
  let color1 : rgb := (147, 112, 219) in
  let color2 : rgb := (75, 0, 130) in
  (* Create base image with gradient *)
  img <- create_gradient_background size color1 color2 ;;
  (* Calculate infinity symbol dimensions *)
  let center_x := size / 2 in
  let center_y := size / 2 in
  let symbol_width := int (inject_Z size * (65 # 100))%Q in
  let symbol_height := int (inject_Z size * (3 # 10))%Q in
  let points :=
    draw_infinity_symbol (Q_ops math_sin math_cos math_pi)
                         center_x center_y symbol_width symbol_height 400 in
  (* Draw the infinity symbol with thick rainbow-colored lines *)
  let line_width := int (inject_Z size * (8 # 100))%Q in
  img <- draw_thick_curve img points line_width ;;
  (* Add rounded corners for iOS app icon style *)
  mask <- rounded_mask size ;;
  (* Apply rounded corners *)
  output <- new RGBA (size, size) [0; 0; 0; 0] ;;
  output <- paste output img None ;;
  output <- putalpha output mask ;;
  (* Convert back to RGB for PNG *)
  final <- new RGB (size, size) [255; 255; 255] ;;
  final <- paste final output (Some output) ;;
  ret final.

End WithMath.

End PipelineB.

(** ** Running the pipelines *)

Module Run.
Import Py PIL.

(** [m], started with the log [log], returns a value that satisfies [P]
    and leaves the log [log']. *)
Definition yields {A : Type} (m : M A) (log log' : list canvas)
           (P : A -> Prop) : Prop :=
  exists a, m log = (log', Ok a) /\ P a.

(** [m], started with the log [log], raises [e] with the log [log']. *)
Definition fails {A : Type} (m : M A) (log log' : list canvas) (e : exn)
  : Prop :=
  m log = (log', Raise e).

(** An image of the given mode and dimensions. *)
Definition shaped (m : mode) (w h : Z) (im : Image) : Prop :=
  im_mode im = m /\ im_width im = w /\ im_height im = h.

(** A canvas of [size] by [size] pixels. *)
Definition square (size : Z) (c : canvas) : Prop :=
  cv_width c = size /\ cv_height c = size.

(** [m] allocates only [size] by [size] canvases, and what it returns,
    when it returns, satisfies [P]. *)
Definition keeps {A : Type} (size : Z) (P : A -> Prop) (m : M A) : Prop :=
  forall log, Forall (square size) log ->
    Forall (square size) (fst (m log)) /\
    forall a, snd (m log) = Ok a -> P a.

(** An image of [size] by [size] pixels. *)
Definition sized (size : Z) (im : Image) : Prop :=
  im_size im = (size, size).

End Run.

(** ** The sampled curve over the real numbers *)

Module Curve.
Local Open Scope R_scope.

(** Euclidean distance of two points of the plane. *)
Definition dist (p q : R * R) : R :=
  sqrt ((fst p - fst q) * (fst p - fst q) + (snd p - snd q) * (snd p - snd q)).

(** The parameter of sample [i]: [2 pi i / num_points]. *)
Definition parameter (num_points i : Z) : R :=
  2 * PI * IZR i / IZR num_points.

(** The points [draw_infinity_symbol] samples, computed in the reals. *)
Definition samples (center_x center_y width height num_points : Z)
  : list (R * R) :=
  PipelineB.draw_infinity_symbol R_ops center_x center_y width height
                                 num_points.

(** Point [i] of the sequence. *)
Definition sample (center_x center_y width height num_points : Z) (i : Z)
  : R * R :=
  nth (Z.to_nat i) (samples center_x center_y width height num_points)
      (0, 0).

End Curve.

(** ** What pipeline A draws, call by call *)

Module Pattern.
Import Py PIL PipelineA.

(** The image [create_gradient_background] returns. *)
Definition gradient_image (width height : Z) (color1 color2 : rgb) : Image :=
  draw_all (mkImage RGB width height (Blank (rgb_ink color1)))
           (map (fun y =>
                   Line (inject_Z 0) (inject_Z y) (inject_Z width) (inject_Z y)
                        (rgb_ink (gradient_row color1 color2 y height)) 0)
                (range 0 height)).

(** The overlay the glow loop leaves when no call is refused. *)
Definition glow_image (size : Z) : Image :=
  draw_all (mkImage RGBA size size (Blank [0; 0; 0; 0]))
           (map (glow_circle size) (range 0 20)).

Section WithMath.
Variable math_radians : Z -> Q.
Variables math_cos math_sin : Q -> Q.

(** The end of the spoke in the direction [angle] (in degrees), at
    distance [radius_base * 1.8] from the centre. *)
Definition ring_point (width height : Z) (angle : Z) : Q * Q :=
  let radius_base := Z.min width height / 6 in
  let offset := (inject_Z radius_base * (18 # 10))%Q in
  let rad := math_radians angle in
  ((inject_Z (width / 2) + offset * math_cos rad)%Q,
   (inject_Z (height / 2) + offset * math_sin rad)%Q).

(** The line from the centre to the point of [angle]. *)
Definition spoke (width height : Z) (color : rgb) (alpha : Z) (angle : Z)
  : draw_op :=
  let p := ring_point width height angle in
  Line (inject_Z (width / 2)) (inject_Z (height / 2)) (fst p) (snd p)
       (rgba_ink color alpha) (Z.max 3 (width / 150)).

(** The line from the point of [angle] to the point of [next_angle]. *)
Definition ring_segment (width height : Z) (color : rgb) (alpha : Z)
           (angle next_angle : Z) : draw_op :=
  let p := ring_point width height angle in
  let q := ring_point width height next_angle in
  Line (fst p) (snd p) (fst q) (snd q)
       (rgba_ink color (alpha / 2)) (Z.max 2 (width / 200)).

(** The twelve [line] calls of [draw_connecting_lines], in order. *)
Definition connecting_lines (width height : Z) (color : rgb) (alpha : Z)
  : list draw_op :=
  flat_map (fun i => [ spoke width height color alpha (60 * i);
                       ring_segment width height color alpha
                                    (60 * i) (60 * ((i + 1) mod 6)) ])
           (range 0 6).

(** The circle of radius [r] around [(x, y)], as [ellipse] receives it. *)
Definition circle (x y r : Q) (fill : ink) : draw_op :=
  Ellipse (x - r)%Q (y - r)%Q (x + r)%Q (y + r)%Q fill.

(** The thirteen [ellipse] calls of [draw_pattern_circles], in order. *)
Definition pattern_circles (width height : Z) (color : rgb) (alpha : Z)
  : list draw_op :=
  let center_x := width / 2 in
  let center_y := height / 2 in
  let radius_base := Z.min width height / 6 in
  let offset := (inject_Z radius_base * (18 # 10))%Q in
  Ellipse (inject_Z (center_x - radius_base))
          (inject_Z (center_y - radius_base))
          (inject_Z (center_x + radius_base))
          (inject_Z (center_y + radius_base))
          (rgba_ink color alpha)
  :: map (fun angle =>
            circle (inject_Z center_x
                    + offset * math_cos (math_radians angle))%Q
                   (inject_Z center_y
                    + offset * math_sin (math_radians angle))%Q
                   (inject_Z radius_base * (7 # 10))%Q
                   (rgba_ink color alpha))
         [0; 60; 120; 180; 240; 300]
  ++ map (fun angle =>
            circle (inject_Z center_x
                    + offset * (6 # 10) * math_cos (math_radians angle))%Q
                   (inject_Z center_y
                    + offset * (6 # 10) * math_sin (math_radians angle))%Q
                   (inject_Z radius_base * (4 # 10))%Q
                   (rgba_ink color alpha))
         [30; 90; 150; 210; 270; 330].

(** The overlays as images. *)
Definition lines_image (size : Z) (color : rgb) (alpha : Z) : Image :=
  draw_all (mkImage RGBA size size (Blank [0; 0; 0; 0]))
           (connecting_lines size size color alpha).

Definition circles_image (size : Z) (color : rgb) (alpha : Z) : Image :=
  draw_all (mkImage RGBA size size (Blank [0; 0; 0; 0]))
           (pattern_circles size size color alpha).

(** The pixels of the icon: gradient, then lines, then circles, then glow,
    pasted on a transparent canvas and cut by the mask. *)
Definition icon_content (size : Z) : content :=
  let white : rgb := (255, 255, 255) in
  let base :=
    Convert (im_data (gradient_image size size (58, 123, 213) (88, 86, 214))) in
  let with_lines :=
    AlphaComposite base (im_data (lines_image size white 150)) in
  let with_circles :=
    AlphaComposite with_lines (im_data (circles_image size white 230)) in
  let with_glow := AlphaComposite with_circles (im_data (glow_image size)) in
  PutAlpha (Paste (Blank [0; 0; 0; 0]) with_glow) (im_data (mask_image size)).

(** [main]: one icon per entry of the table, saved under its file name;
    the files written so far stay when a later icon raises.  The
    [print] calls are left out. *)
Fixpoint save_icons (table : list (String.string * Z))
         (saved : list (String.string * Image)) (log : list canvas)
  : list (String.string * Image) * (list canvas * result unit) :=
  match table with
  | [] => (saved, (log, Ok tt))
  | (filename, size) :: rest =>
      match create_icon math_radians math_cos math_sin size log with
      | (log', Ok icon) => save_icons rest (saved ++ [(filename, icon)]) log'
      | (log', Raise e) => (saved, (log', Raise e))
      end
  end.

End WithMath.

End Pattern.

(** *** [main] of pipeline A *)

Module PatternMain.
Import PIL Pattern.
Import String.
Local Open Scope string_scope.

(** The table of [main], in its order. *)
Definition size_table : list (string * Z) :=
  [ ("patterns-1024.png", 1024);   (* App Store *)
    ("patterns-180.png", 180);     (* iPhone 3x *)
    ("patterns-167.png", 167);     (* iPad Pro *)
    ("patterns-152.png", 152);     (* iPad 2x *)
    ("patterns-120.png", 120);     (* iPhone 2x *)
    ("patterns-87.png", 87);       (* iPhone 3x Settings *)
    ("patterns-80.png", 80);       (* iPad 2x Settings *)
    ("patterns-76.png", 76);       (* iPad 1x *)
    ("patterns-60.png", 60);       (* iPhone 2x Settings *)
    ("patterns-58.png", 58);       (* iPhone 2x Settings *)
    ("patterns-40.png", 40);       (* iPad 1x Settings *)
    ("patterns-29.png", 29);       (* Settings 1x *)
    ("patterns-20.png", 20) ].     (* Notification 1x *)

Definition main (math_radians : Z -> Q) (math_cos math_sin : Q -> Q)
  : list (string * Image) * (list canvas * Py.result unit) :=
  save_icons math_radians math_cos math_sin size_table [] [].

End PatternMain.

(** ** What pipeline B draws, call by call *)

Module Infinity.
Import Py PIL Rainbow PipelineB.

Section WithMath.
Variables math_sqrt math_sin math_cos : Q -> Q.
Variable math_pi : Q.

(** [distance / max_radius] for the pixel [(x, y)]. *)
Definition radial_ratio (size x y : Z) : Q :=
  (math_sqrt (inject_Z ((x - size / 2) ^ 2 + (y - size / 2) ^ 2))
   / math_sqrt (inject_Z ((size / 2) ^ 2 + (size / 2) ^ 2)))%Q.

(** The [putpixel] call for the pixel [(x, y)]. *)
Definition radial_pixel (size : Z) (color1 color2 : rgb) (x y : Z) : draw_op :=
  let ratio := radial_ratio size x y in
  PutPixel x y [ blend (chan_r color1) (chan_r color2) ratio;
                 blend (chan_g color1) (chan_g color2) ratio;
                 blend (chan_b color1) (chan_b color2) ratio ].

(** The [putpixel] calls of the radial gradient, row by row. *)
Definition radial_pixels (size : Z) (color1 color2 : rgb) : list draw_op :=
  flat_map (fun y => map (fun x => radial_pixel size color1 color2 x y)
                         (range 0 size))
           (range 0 size).

(** The image the radial [create_gradient_background] returns. *)
Definition radial_image (size : Z) (color1 color2 : rgb) : Image :=
  draw_all (mkImage RGB size size (Blank (rgb_ink color1)))
           (radial_pixels size color1 color2).

(** The 400 points [create_app_icon] samples. *)
Definition curve_points (size : Z) : list (Q * Q) :=
  draw_infinity_symbol (Q_ops math_sin math_cos math_pi)
                       (size / 2) (size / 2)
                       (int (inject_Z size * (65 # 100))%Q)
                       (int (inject_Z size * (3 # 10))%Q) 400.

(** The [line] calls that stroke the symbol. *)
Definition stroke_lines (size : Z) : list draw_op :=
  let points := curve_points size in
  flat_map (segment_lines points (int (inject_Z size * (8 # 100))%Q))
           (range 0 (Z.of_nat (length points) - 1)).

(** The pixels of the final image: the gradient with the symbol stroked
    on it, pasted on a transparent canvas whose alpha is replaced by the
    mask, and that pasted on white through its own alpha. *)
Definition app_icon_content (size : Z) : content :=
  let painted :=
    im_data (draw_all (radial_image size (147, 112, 219) (75, 0, 130))
                      (stroke_lines size)) in
  let output :=
    PutAlpha (Paste (Blank [0; 0; 0; 0]) painted)
             (im_data (PipelineA.mask_image size)) in
  PasteMasked (Blank [255; 255; 255]) output output.

End WithMath.
End Infinity.

(** ** Python floats: binary64

    A finite float is the rational number it denotes.  Every operation
    gives the exact result rounded to the nearest number with 53
    significant bits and an exponent of at least -1074, ties going to the
    even significand; a rounded result of magnitude [2 ^ 1024] or more is
    an infinity.  The sign of a zero is not kept. *)

Module Binary64.
Import Py.
Local Open Scope Q_scope.

Definition pow2 (e : Z) : Q := 2 ^ e.

(** [floor (log2 x)] for a positive [x]. *)
Definition mag (x : Q) : Z :=
  let k := (Z.log2 (Qnum x) - Z.log2 (Z.pos (Qden x)))%Z in
  if Qle_bool (pow2 k) x then k else (k - 1)%Z.

(** The exponent of the last place of a positive [x]: 52 below its
    magnitude, and -1074 for the subnormal numbers. *)
Definition ulp_exponent (x : Q) : Z := (Z.max (mag x) (-1022) - 52)%Z.

(** The nearest integer, a tie going to the even one. *)
Definition nearest_even (m : Q) : Z :=
  let f := Qfloor m in
  match Qcompare (m - inject_Z f) (1 # 2) with
  | Lt => f
  | Gt => (f + 1)%Z
  | Eq => if Z.even f then f else (f + 1)%Z
  end.

Definition round_positive (x : Q) : Q :=
  let p := pow2 (ulp_exponent x) in
  Qred (inject_Z (nearest_even (x / p)) * p).

(** Rounding to nearest, ties to even, with an unbounded exponent above. *)
Definition round (x : Q) : Q :=
  match Qcompare x 0 with
  | Eq => 0
  | Gt => round_positive x
  | Lt => Qred (- round_positive (- x))
  end.

(** The numbers rounding leaves alone. *)
Definition representable (x : Q) : Prop := round x == x.

Inductive float : Type :=
| Finite (value : Q)
| Infinity (negative : bool)
| NaN.

Definition is_negative (x : Q) : bool := negb (Qle_bool 0 x).

(** The float an exact result becomes. *)
Definition pack (x : Q) : float :=
  let r := round x in
  if Qle_bool (pow2 1024) (Qabs r) then Infinity (is_negative r)
  else Finite r.

(** [float(n)] for an int, as the mixed operations apply it. *)
Definition of_int (n : Z) : float := pack (inject_Z n).

Definition neg (a : float) : float :=
  match a with
  | Finite x => Finite (- x)
  | Infinity s => Infinity (negb s)
  | NaN => NaN
  end.

Definition add (a b : float) : float :=
  match a, b with
  | Finite x, Finite y => pack (x + y)
  | Finite _, Infinity s => Infinity s
  | Infinity s, Finite _ => Infinity s
  | Infinity s, Infinity t => if Bool.eqb s t then Infinity s else NaN
  | _, _ => NaN
  end.

Definition sub (a b : float) : float := add a (neg b).

Definition mul (a b : float) : float :=
  match a, b with
  | Finite x, Finite y => pack (x * y)
  | Finite x, Infinity s =>
      if Qeq_bool x 0 then NaN else Infinity (xorb (is_negative x) s)
  | Infinity s, Finite y =>
      if Qeq_bool y 0 then NaN else Infinity (xorb s (is_negative y))
  | Infinity s, Infinity t => Infinity (xorb s t)
  | _, _ => NaN
  end.

(** [int(x)] on a float: truncation toward zero; an infinity raises
    OverflowError and a NaN ValueError. *)
Definition int (a : float) : result Z :=
  match a with
  | Finite x => Ok (Py.int x)
  | Infinity _ => Raise OverflowError
  | NaN => Raise ValueError
  end.

(** [i / n] on ints: the quotient rounded once. *)
Definition true_div (i n : Z) : result float :=
  if (n =? 0)%Z then Raise ZeroDivisionError
  else match pack (inject_Z i / inject_Z n) with
       | Finite q => Ok (Finite q)
       | _ => Raise OverflowError
       end.

End Binary64.

(** ** The rainbow interpolator in binary64 ([get_rainbow_color]) *)

Module Rainbow64.
Import Py Binary64.

(** The value of [ratio = scaled_pos - idx] for a finite [scaled_pos]. *)
Definition weight (scaled_pos : Q) : Q :=
  round (scaled_pos + - round (inject_Z (Py.int scaled_pos))).

(** [int(c1 * (1 - ratio) + c2 * ratio)] *)
Definition blend (c1 c2 : Z) (ratio : float) : result Z :=
  int (add (mul (of_int c1) (sub (of_int 1) ratio))
           (mul (of_int c2) ratio)).

Definition get_rainbow_color (position : float) : result rgb :=
  let colors := Rainbow.colors in
  let len := Z.of_nat (length colors) in
  (* Determine which two colors to interpolate between *)
  let scaled_pos := mul position (of_int (len - 1)) in
  idx <-? int scaled_pos ;
  if idx >=? len - 1 then getitem colors (-1)
  else
    (* Interpolate between two adjacent colors *)
    let ratio := sub scaled_pos (of_int idx) in
    c1 <-? getitem colors idx ;
    c2 <-? getitem colors (idx + 1) ;
    r <-? blend (chan_r c1) (chan_r c2) ratio ;
    g <-? blend (chan_g c1) (chan_g c2) ratio ;
    b <-? blend (chan_b c1) (chan_b c2) ratio ;
    Ok (r, g, b).

End Rainbow64.

(** ** The curve sampler in binary64, for a curve of four points *)

Module Curve64.
Import Binary64.
Local Open Scope Q_scope.

(** [math.pi]: the double nearest to pi. *)
Definition math_pi : Q := 884279719003555 # 281474976710656.

(** Binary64 arithmetic on finite values: every operation rounds its
    exact result (no result overflows and no divisor is zero where it is
    used). *)
Definition ops (math_sin math_cos : Q -> Q) : float_ops Q :=
  mkFloatOps Q (fun n => round (inject_Z n))
             (fun x y => round (x + y))
             (fun x y => round (x * y))
             (fun x y => round (x / y))
             math_sin math_cos math_pi.

(** The parameters [2 * math.pi * i / 4] for [i = 1, 2, 3]. *)
Definition quarter_turn : Q := 884279719003555 # 562949953421312.
Definition half_turn : Q := 884279719003555 # 281474976710656.
Definition three_quarter_turn : Q := 2652839157010665 # 562949953421312.

(** [math.sin] and [math.cos] at the four parameters of a four-point
    curve: the doubles nearest to the sine and the cosine of these doubles
    (1.2246467991473532e-16 for the sine of [half_turn],
    6.123233995736766e-17 and -1.8369701987210297e-16 for the cosines of
    [quarter_turn] and [three_quarter_turn]). *)
Definition sin_at_quarters (t : Q) : Q :=
  if Qeq_bool t quarter_turn then 1
  else if Qeq_bool t half_turn
       then 4967757600021511 # 40564819207303340847894502572032
       else if Qeq_bool t three_quarter_turn then - (1) else 0.

Definition cos_at_quarters (t : Q) : Q :=
  if Qeq_bool t quarter_turn
  then 4967757600021511 # 81129638414606681695789005144064
  else if Qeq_bool t half_turn then - (1)
       else if Qeq_bool t three_quarter_turn
            then - (3725818200016133 # 20282409603651670423947251286016)
            else 1.

(** The square of the Euclidean distance of two points. *)
Definition squared_distance (p q : Q * Q) : Q :=
  (fst p - fst q) * (fst p - fst q) + (snd p - snd q) * (snd p - snd q).

End Curve64.

(** * Properties *)

Import Py PIL Run Rainbow.

(** ** Python arithmetic *)

Lemma int_inject_Z (n : Z) : int (inject_Z n) = n.
Proof. unfold int; simpl. apply Z.quot_1_r. Qed.

Lemma int_mono (x y : Q) : (x <= y)%Q -> int x <= int y.
Proof.
  destruct x as [a b], y as [c d]; unfold int, Qle; simpl; intros H.
  rewrite <- (Z.quot_mul_cancel_r a (Z.pos b) (Z.pos d)) by lia.
  rewrite <- (Z.quot_mul_cancel_r c (Z.pos d) (Z.pos b)) by lia.
  rewrite (Z.mul_comm (Z.pos d) (Z.pos b)).
  apply Z.quot_le_mono; lia.
Qed.

Lemma int_between (lo hi : Z) (x : Q) :
  (inject_Z lo <= x)%Q -> (x <= inject_Z hi)%Q -> lo <= int x <= hi.
Proof.
  intros H1 H2. apply int_mono in H1, H2. rewrite int_inject_Z in H1, H2. lia.
Qed.

Lemma int_unique (x : Q) (k : Z) :
  0 <= k -> (inject_Z k <= x)%Q -> (x < inject_Z (k + 1))%Q -> int x = k.
Proof.
  destruct x as [n d]; unfold int, Qle, Qlt; simpl; intros Hk H1 H2.
  symmetry. apply Z.quot_unique with (r := n - Z.pos d * k); lia.
Qed.

Lemma int_spec_nonneg (x : Q) :
  (0 <= x)%Q -> (inject_Z (int x) <= x)%Q /\ (x < inject_Z (int x + 1))%Q.
Proof.
  destruct x as [n d]; unfold int, Qle, Qlt; simpl; intros H.
  rewrite Z.quot_div_nonneg by lia.
  pose proof (Z.div_mod n (Z.pos d)) as E.
  pose proof (Z.mod_pos_bound n (Z.pos d)) as B.
  split; nia.
Qed.

Lemma blend_between (c1 c2 : Z) (t : Q) :
  (0 <= t)%Q -> (t <= 1)%Q ->
  Z.min c1 c2 <= blend c1 c2 t <= Z.max c1 c2.
Proof.
  intros H0 H1. unfold blend. apply int_between.
  - destruct (Z.le_ge_cases c1 c2) as [H|H].
    + rewrite Z.min_l by lia. rewrite Zle_Qle in H. nra.
    + rewrite Z.min_r by lia. rewrite Zle_Qle in H. nra.
  - destruct (Z.le_ge_cases c1 c2) as [H|H].
    + rewrite Z.max_r by lia. rewrite Zle_Qle in H. nra.
    + rewrite Z.max_l by lia. rewrite Zle_Qle in H. nra.
Qed.

Lemma range_length (lo hi : Z) : length (range lo hi) = Z.to_nat (hi - lo).
Proof. unfold range. now rewrite length_map, length_seq. Qed.

Lemma in_range (lo hi k : Z) : In k (range lo hi) <-> lo <= k < hi.
Proof.
  unfold range. rewrite in_map_iff. split.
  - intros [n [<- Hn]]. apply in_seq in Hn. lia.
  - intros H. exists (Z.to_nat (k - lo)). split; [lia|].
    apply in_seq. lia.
Qed.

Lemma nth_range (lo hi : Z) (i : nat) (d : Z) :
  (i < Z.to_nat (hi - lo))%nat -> nth i (range lo hi) d = lo + Z.of_nat i.
Proof.
  intros H. unfold range.
  rewrite (nth_indep _ d (lo + Z.of_nat 0))
    by (now rewrite length_map, length_seq).
  rewrite (map_nth (fun k => lo + Z.of_nat k)). now rewrite seq_nth.
Qed.

(** Truncation of a value above a negative integer stays above it. *)
Lemma int_above (x : Q) (k : Z) :
  k < 0 -> (inject_Z k < x)%Q -> k < int x.
Proof.
  destruct x as [n d]; unfold int, Qlt; simpl; intros Hk H.
  destruct (Z_lt_le_dec n 0) as [Hn | Hn].
  - rewrite <- (Z.opp_involutive n), Z.quot_opp_l by lia.
    rewrite Z.quot_div_nonneg by lia.
    assert (- n / Z.pos d < - k) by (apply Z.div_lt_upper_bound; lia).
    lia.
  - assert (0 <= n ÷ Z.pos d) by (apply Z.quot_pos; lia). lia.
Qed.

Lemma int_small_negative (x : Q) : (-1 < x)%Q -> (x <= 0)%Q -> int x = 0.
Proof.
  intros H1 H0.
  pose proof (int_above x (-1) ltac:(lia) H1) as A.
  pose proof (int_mono x 0 H0) as B. change (int 0) with 0 in B. lia.
Qed.

(** [int] does not depend on how a rational is written. *)
Lemma int_compat (x y : Q) : (x == y)%Q -> int x = int y.
Proof.
  intros E. apply Z.le_antisymm; apply int_mono; rewrite E; apply Qle_refl.
Qed.

(** ** The rainbow interpolator *)

Lemma get_rainbow_color_segment (p : Q) (k : Z) :
  0 <= k < 6 ->
  (inject_Z k <= p * 6)%Q -> (p * 6 < inject_Z (k + 1))%Q ->
  get_rainbow_color p =
  Ok (blend (chan_r (anchor k)) (chan_r (anchor (k + 1))) (p * 6 - inject_Z k),
      blend (chan_g (anchor k)) (chan_g (anchor (k + 1))) (p * 6 - inject_Z k),
      blend (chan_b (anchor k)) (chan_b (anchor (k + 1))) (p * 6 - inject_Z k)).
Proof.
  intros Hk H1 H2.
  assert (Hidx : int (p * inject_Z 6) = k)
    by (apply int_unique; [lia | exact H1 | exact H2]).
  unfold get_rainbow_color. cbv zeta.
  change (Z.of_nat (length colors) - 1) with 6.
  rewrite Hidx.
  assert (C : k = 0 \/ k = 1 \/ k = 2 \/ k = 3 \/ k = 4 \/ k = 5) by lia.
  destruct C as [-> | [-> | [-> | [-> | [-> | ->]]]]]; reflexivity.
Qed.

Lemma get_rainbow_color_clamped (p : Q) :
  (1 <= p)%Q -> get_rainbow_color p = Ok last_anchor.
Proof.
  intros H. unfold get_rainbow_color. cbv zeta.
  change (Z.of_nat (length colors) - 1) with 6.
  assert (6 <= int (p * inject_Z 6)).
  { rewrite <- (int_inject_Z 6) at 1. apply int_mono.
    change (inject_Z 6) with 6%Q. lra. }
  destruct (int (p * inject_Z 6) >=? 6) eqn:E; [reflexivity | lia].
Qed.

Lemma int_lt (x : Q) (n : Z) : (0 <= x)%Q -> (x < inject_Z n)%Q -> int x < n.
Proof.
  intros H0 H. destruct (int_spec_nonneg x H0) as [L _].
  rewrite Zlt_Qlt. eapply Qle_lt_trans; eassumption.
Qed.

Lemma blend_byte (c1 c2 : Z) (t : Q) :
  0 <= c1 <= 255 -> 0 <= c2 <= 255 -> (0 <= t)%Q -> (t <= 1)%Q ->
  0 <= blend c1 c2 t <= 255.
Proof.
  intros H1 H2 Ha Hb. pose proof (blend_between c1 c2 t Ha Hb). lia.
Qed.

(** The segment index of a position in [0, 1). *)
Lemma rainbow_index (p : Q) :
  (0 <= p)%Q -> (p < 1)%Q ->
  exists k : Z,
    0 <= k < 6 /\ (inject_Z k <= p * 6)%Q /\ (p * 6 < inject_Z (k + 1))%Q.
Proof.
  intros H0 H1. exists (int (p * 6)).
  assert (Hs : (0 <= p * 6)%Q) by lra.
  destruct (int_spec_nonneg _ Hs) as [L U].
  repeat split; try assumption.
  - rewrite <- (int_inject_Z 0). apply int_mono. exact Hs.
  - apply int_lt; [exact Hs|]. change (inject_Z 6) with 6%Q. lra.
Qed.

(** A channel value outside the range of the two anchors of a segment. *)
Ltac off_segment E Ha Hb :=
  match type of E with
  | blend ?a ?b ?t = _ =>
      let B := fresh "B" in
      pose proof (blend_between a b t Ha Hb) as B; rewrite E in B;
      unfold anchor, chan_r, chan_g, chan_b in B; simpl in B; lia
  end.

(** Below position 1 the interpolator never returns the last anchor. *)
Lemma rainbow_below_one_not_violet (p : Q) :
  (0 <= p)%Q -> (p < 1)%Q -> get_rainbow_color p <> Ok last_anchor.
Proof.
  intros H0 H1. destruct (rainbow_index p H0 H1) as [k [Hk [L U]]].
  rewrite (get_rainbow_color_segment p k Hk L U).
  assert (Ha : (0 <= p * 6 - inject_Z k)%Q) by lra.
  assert (Hb : (p * 6 - inject_Z k < 1)%Q).
  { rewrite inject_Z_plus in U. change (inject_Z 1) with 1%Q in U. lra. }
  assert (Hb' := Qlt_le_weak _ _ Hb).
  unfold last_anchor. intros E. injection E as Er Eg Eb.
  assert (C : k = 0 \/ k = 1 \/ k = 2 \/ k = 3 \/ k = 4 \/ k = 5) by lia.
  destruct C as [-> | [-> | [-> | [-> | [-> | ->]]]]].
  - off_segment Er Ha Hb'.
  - off_segment Er Ha Hb'.
  - off_segment Eg Ha Hb'.
  - off_segment Er Ha Hb'.
  - off_segment Er Ha Hb'.
  - change (chan_r (anchor 5)) with 75 in Er.
    change (chan_r (anchor (5 + 1))) with 148 in Er.
    unfold blend in Er.
    change (inject_Z 75) with 75%Q in Er.
    change (inject_Z 148) with 148%Q in Er.
    change (inject_Z 5) with 5%Q in Er, Ha, Hb.
    assert (int (75 * (1 - (p * 6 - 5)) + 148 * (p * 6 - 5))
            < 148).
    { apply int_lt; [|change (inject_Z 148) with 148%Q]; lra. }
    lia.
Qed.

(** ** The linear gradient *)

Lemma gradient_channel_quot (c1 c2 y h : Z) :
  0 < h ->
  PipelineA.gradient_channel c1 c2 y h = Z.quot (c1 * h + (c2 - c1) * y) h.
Proof.
  intros Hh. destruct h as [|hp|hp]; try lia.
  unfold PipelineA.gradient_channel, int. simpl.
  f_equal; lia.
Qed.

Lemma gradient_channel_between (c1 c2 y h : Z) :
  0 <= y < h ->
  Z.min c1 c2 <= PipelineA.gradient_channel c1 c2 y h <= Z.max c1 c2.
Proof.
  intros Hy. rewrite gradient_channel_quot by lia.
  split.
  - rewrite <- (Z.quot_mul (Z.min c1 c2) h) at 1 by lia.
    apply Z.quot_le_mono; nia.
  - rewrite <- (Z.quot_mul (Z.max c1 c2) h) by lia.
    apply Z.quot_le_mono; nia.
Qed.

Lemma gradient_channel_mono (c1 c2 y y' h : Z) :
  0 <= y -> y <= y' -> y' < h ->
  (c1 <= c2 ->
   PipelineA.gradient_channel c1 c2 y h
   <= PipelineA.gradient_channel c1 c2 y' h) /\
  (c2 <= c1 ->
   PipelineA.gradient_channel c1 c2 y' h
   <= PipelineA.gradient_channel c1 c2 y h).
Proof.
  intros H0 H1 H2. rewrite !gradient_channel_quot by lia.
  split; intros Hc; apply Z.quot_le_mono; nia.
Qed.

Lemma gradient_channel_start (c1 c2 h : Z) :
  0 < h -> PipelineA.gradient_channel c1 c2 0 h = c1.
Proof.
  intros Hh. rewrite gradient_channel_quot by lia.
  rewrite Z.mul_0_r, Z.add_0_r. apply Z.quot_mul. lia.
Qed.

(** ** Running computations *)

Section MonadFacts.
Context {A B : Type}.

Lemma bind_ok (m : M A) (k : A -> M B) (log log' : list canvas) (a : A) :
  m log = (log', Ok a) -> bind m k log = k a log'.
Proof. intros E. unfold bind. now rewrite E. Qed.

Lemma bind_raise (m : M A) (k : A -> M B) (log log' : list canvas) (e : exn) :
  m log = (log', Raise e) -> bind m k log = (log', Raise e).
Proof. intros E. unfold bind. now rewrite E. Qed.

Lemma yields_bind (m : M A) (k : A -> M B) (log log1 log2 : list canvas)
      (P : A -> Prop) (Q : B -> Prop) :
  yields m log log1 P ->
  (forall a, P a -> yields (k a) log1 log2 Q) ->
  yields (bind m k) log log2 Q.
Proof.
  intros [a [E Pa]] Hk. destruct (Hk a Pa) as [b [Eb Qb]].
  exists b. split; [|exact Qb]. now rewrite (bind_ok _ _ _ _ _ E).
Qed.

Lemma fails_bind (m : M A) (k : A -> M B) (log log1 log2 : list canvas)
      (P : A -> Prop) (e : exn) :
  yields m log log1 P ->
  (forall a, P a -> fails (k a) log1 log2 e) ->
  fails (bind m k) log log2 e.
Proof.
  intros [a [E Pa]] Hk. unfold fails. rewrite (bind_ok _ _ _ _ _ E).
  exact (Hk a Pa).
Qed.

Lemma fails_now (m : M A) (k : A -> M B) (log log' : list canvas) (e : exn) :
  fails m log log' e -> fails (bind m k) log log' e.
Proof. apply bind_raise. Qed.

End MonadFacts.

Lemma yields_ret {A : Type} (a : A) (log : list canvas) (P : A -> Prop) :
  P a -> yields (ret a) log log P.
Proof. intros H. exists a. now split. Qed.

Lemma yields_weaken {A : Type} (m : M A) (log log' : list canvas)
      (P Q : A -> Prop) :
  yields m log log' P -> (forall a, P a -> Q a) -> yields m log log' Q.
Proof. intros [a [E Pa]] H. exists a. auto. Qed.

(** A loop whose body keeps the log and an invariant of the accumulator. *)
Lemma yields_for_each {A B : Type} (l : list A) (body : B -> A -> M B)
      (log : list canvas) (Inv : B -> Prop) :
  (forall acc a, In a l -> Inv acc -> yields (body acc a) log log Inv) ->
  forall acc, Inv acc -> yields (for_each l acc body) log log Inv.
Proof.
  induction l as [|a l IH]; intros Hb acc Hacc; simpl.
  - now apply yields_ret.
  - eapply yields_bind.
    + apply Hb; [now left | exact Hacc].
    + intros acc' Hacc'. apply IH; [|exact Hacc'].
      intros acc0 a0 Hin. apply Hb. now right.
Qed.

(** A loop that meets an element on which the body raises. *)
Lemma fails_for_each {A B : Type} (l : list A) (body : B -> A -> M B)
      (log : list canvas) (Inv : B -> Prop) (e : exn) :
  (forall acc a, In a l -> Inv acc ->
     yields (body acc a) log log Inv \/ fails (body acc a) log log e) ->
  (exists a, In a l /\ forall acc, Inv acc -> fails (body acc a) log log e) ->
  forall acc, Inv acc -> fails (for_each l acc body) log log e.
Proof.
  induction l as [|a l IH]; intros Hb [a0 [Hin Hbad]] acc Hacc.
  - destruct Hin.
  - simpl. destruct (Hb acc a (or_introl eq_refl) Hacc) as [Hy | Hf].
    + destruct Hin as [<- | Hin].
      * destruct Hy as [acc' [E _]]. specialize (Hbad acc Hacc).
        unfold fails in Hbad. congruence.
      * eapply fails_bind; [exact Hy|]. intros acc' Hacc'.
        apply IH; [| now exists a0 | exact Hacc'].
        intros acc0 a1 Hin1. apply Hb. now right.
    + now apply fails_now.
Qed.

(** *** The calls of the image library *)

Lemma new_yields (m : mode) (w h : Z) (c : ink) (log : list canvas) :
  0 <= w -> 0 <= h ->
  yields (new m (w, h) c) log (log ++ [mkCanvas m w h])
         (fun im => im = mkImage m w h (Blank c)).
Proof.
  intros Hw Hh. unfold new.
  destruct (w <? 0) eqn:Ew; [lia|]. destruct (h <? 0) eqn:Eh; [lia|].
  simpl. eexists. split; reflexivity.
Qed.

Lemma new_shaped (m : mode) (w h : Z) (c : ink) (log : list canvas) :
  0 <= w -> 0 <= h ->
  yields (new m (w, h) c) log (log ++ [mkCanvas m w h]) (shaped m w h).
Proof.
  intros Hw Hh. eapply yields_weaken; [now apply new_yields|].
  intros im ->. repeat split.
Qed.

Lemma convert_shaped (im : Image) (m m0 : mode) (w h : Z) (log : list canvas) :
  shaped m0 w h im ->
  yields (convert im m) log (log ++ [mkCanvas m w h]) (shaped m w h).
Proof.
  intros [_ [<- <-]]. eexists. split; [reflexivity|]. repeat split.
Qed.

Lemma alpha_composite_shaped (im1 im2 : Image) (w h : Z) (log : list canvas) :
  shaped RGBA w h im1 -> shaped RGBA w h im2 ->
  yields (alpha_composite im1 im2) log (log ++ [mkCanvas RGBA w h])
         (shaped RGBA w h).
Proof.
  intros [M1 [W1 H1]] [M2 [W2 H2]]. unfold alpha_composite.
  rewrite M1, M2, W1, W2, H1, H2, !Z.eqb_refl. simpl.
  eexists. split; [reflexivity|]. repeat split.
Qed.

Lemma line_shaped (im : Image) (x0 y0 x1 y1 : Q) (fill : ink) (width : Z)
      (m : mode) (w h : Z) (log : list canvas) :
  shaped m w h im ->
  yields (line im x0 y0 x1 y1 fill width) log log (shaped m w h).
Proof. intros H. apply yields_ret. exact H. Qed.

Lemma ellipse_shaped (im : Image) (x0 y0 x1 y1 : Q) (fill : ink)
      (m : mode) (w h : Z) (log : list canvas) :
  (x0 <= x1)%Q -> (y0 <= y1)%Q -> shaped m w h im ->
  yields (ellipse im x0 y0 x1 y1 fill) log log (shaped m w h).
Proof.
  intros Hx Hy H. unfold ellipse.
  apply Qle_bool_iff in Hx, Hy. rewrite Hx, Hy. simpl.
  apply yields_ret. exact H.
Qed.

Lemma ellipse_fails (im : Image) (x0 y0 x1 y1 : Q) (fill : ink)
      (log : list canvas) :
  (x1 < x0)%Q \/ (y1 < y0)%Q ->
  fails (ellipse im x0 y0 x1 y1 fill) log log ValueError.
Proof.
  intros H. unfold ellipse, fails.
  destruct (Qle_bool x0 x1) eqn:Ex; destruct (Qle_bool y0 y1) eqn:Ey;
    simpl; try reflexivity.
  apply Qle_bool_iff in Ex, Ey. destruct H as [H | H].
  - exfalso. apply (Qlt_not_le _ _ H Ex).
  - exfalso. apply (Qlt_not_le _ _ H Ey).
Qed.

Lemma rounded_rectangle_shaped (im : Image) (x0 y0 x1 y1 radius : Z)
      (fill : ink) (m : mode) (w h : Z) (log : list canvas) :
  x0 <= x1 -> y0 <= y1 -> shaped m w h im ->
  yields (rounded_rectangle im x0 y0 x1 y1 radius fill) log log (shaped m w h).
Proof.
  intros Hx Hy H. unfold rounded_rectangle.
  apply Z.leb_le in Hx, Hy. rewrite Hx, Hy. simpl.
  apply yields_ret. exact H.
Qed.

Lemma paste_shaped (im src : Image) (m : mode) (w h : Z)
      (log : list canvas) :
  shaped m w h im ->
  yields (paste im src None) log log (shaped m w h).
Proof. intros H. apply yields_ret. exact H. Qed.

Lemma paste_masked_shaped (im src mask : Image) (m : mode) (w h : Z)
      (log : list canvas) :
  shaped m w h im -> im_size mask = im_size src ->
  yields (paste im src (Some mask)) log log (shaped m w h).
Proof.
  intros H E. unfold paste. unfold im_size in E. injection E as -> ->.
  rewrite !Z.eqb_refl. simpl. apply yields_ret. exact H.
Qed.

Lemma putalpha_shaped (im alpha : Image) (m : mode) (w h : Z)
      (log : list canvas) :
  shaped m w h im -> shaped L w h alpha ->
  yields (putalpha im alpha) log log (shaped m w h).
Proof.
  intros [M1 [W1 H1]] [M2 [W2 H2]]. unfold putalpha.
  rewrite M2, W1, W2, H1, H2, !Z.eqb_refl. simpl.
  apply yields_ret. repeat split; assumption.
Qed.

Lemma paste_yields (im src : Image) (log : list canvas) :
  yields (paste im src None) log log
         (fun out => out = mkImage (im_mode im) (im_width im) (im_height im)
                                   (Paste (im_data im) (im_data src))).
Proof. apply yields_ret. reflexivity. Qed.

Lemma putalpha_yields (im alpha : Image) (log : list canvas) :
  shaped L (im_width im) (im_height im) alpha ->
  yields (putalpha im alpha) log log
         (fun out => out = mkImage (im_mode im) (im_width im) (im_height im)
                                   (PutAlpha (im_data im) (im_data alpha))).
Proof.
  intros [M2 [W2 H2]]. unfold putalpha.
  rewrite M2, W2, H2, !Z.eqb_refl. simpl. apply yields_ret. reflexivity.
Qed.

Lemma getitem_nonneg {A : Type} (l : list A) (j : Z) (d : A) :
  0 <= j < Z.of_nat (length l) -> getitem l j = Ok (nth (Z.to_nat j) l d).
Proof.
  intros H. unfold getitem.
  destruct (j <? 0) eqn:E; [lia|].
  destruct (0 <=? j) eqn:E0; [|lia].
  destruct (j <? Z.of_nat (length l)) eqn:E1; [|lia].
  simpl. destruct (nth_error l (Z.to_nat j)) eqn:En.
  - now rewrite (nth_error_nth _ _ d En).
  - apply nth_error_None in En. lia.
Qed.

Lemma yields_lift {A : Type} (r : result A) (a : A) (log : list canvas)
      (P : A -> Prop) :
  r = Ok a -> P a -> yields (lift r) log log P.
Proof. intros -> H. exists a. now split. Qed.

(** *** Pipeline A: the steps return images of the right shape *)

Module PatternRuns.
Import PipelineA.

Lemma create_gradient_background_shaped (w h : Z) (c1 c2 : rgb)
      (log : list canvas) :
  0 <= w -> 0 <= h ->
  yields (create_gradient_background (w, h) c1 c2) log
         (log ++ [mkCanvas RGB w h]) (shaped RGB w h).
Proof.
  intros Hw Hh. unfold create_gradient_background.
  eapply yields_bind; [now apply new_shaped|].
  intros base Hbase. apply yields_for_each; [|exact Hbase].
  intros acc y _ Hacc. now apply line_shaped.
Qed.

Section WithMath.
Variable math_radians : Z -> Q.
Variables math_cos math_sin : Q -> Q.

Lemma draw_connecting_lines_shaped (w h : Z) (color : rgb) (alpha : Z)
      (log : list canvas) :
  0 <= w -> 0 <= h ->
  yields (draw_connecting_lines math_radians math_cos math_sin
                                (w, h) color alpha) log
         (log ++ [mkCanvas RGBA w h]) (shaped RGBA w h).
Proof.
  intros Hw Hh. unfold draw_connecting_lines.
  eapply yields_bind; [now apply new_shaped|].
  intros overlay Hov. apply yields_for_each; [|exact Hov].
  intros acc [i angle] _ Hacc.
  eapply yields_bind; [now apply line_shaped; exact Hacc|].
  intros acc1 Hacc1.
  eapply yields_bind.
  - eapply yields_lift with (P := fun _ => True); [|exact I].
    apply getitem_nonneg with (d := 0).
    apply Z.mod_pos_bound. reflexivity.
  - intros next_angle _. now apply line_shaped.
Qed.

Lemma circle_box (c r : Q) : (0 <= r)%Q -> (c - r <= c + r)%Q.
Proof. intros H. lra. Qed.

Lemma draw_pattern_circles_shaped (w h : Z) (color : rgb) (alpha : Z)
      (log : list canvas) :
  0 <= w -> 0 <= h ->
  yields (draw_pattern_circles math_radians math_cos math_sin
                               (w, h) color alpha) log
         (log ++ [mkCanvas RGBA w h]) (shaped RGBA w h).
Proof.
  intros Hw Hh. unfold draw_pattern_circles. cbv beta iota zeta.
  assert (Hrb : 0 <= Z.min w h / 6) by (apply Z.div_pos; lia).
  assert (HrbQ : (0 <= inject_Z (Z.min w h / 6))%Q)
    by (change 0%Q with (inject_Z 0); now rewrite <- Zle_Qle).
  eapply yields_bind; [now apply new_shaped|].
  intros overlay Hov.
  eapply yields_bind.
  { apply ellipse_shaped; [| |exact Hov]; rewrite <- Zle_Qle; lia. }
  intros ov1 Hov1.
  eapply yields_bind.
  { apply yields_for_each; [|exact Hov1].
    intros acc angle _ Hacc.
    apply ellipse_shaped; [| |exact Hacc]; apply circle_box; lra. }
  intros ov2 Hov2.
  apply yields_for_each; [|exact Hov2].
  intros acc angle _ Hacc.
  apply ellipse_shaped; [| |exact Hacc]; apply circle_box; lra.
Qed.

End WithMath.

(** The glow loop. *)
Lemma glow_step_shaped (size i : Z) (ov : Image) (log : list canvas) :
  0 <= glow_radius size i -> shaped RGBA size size ov ->
  yields (glow_step size ov i) log log (shaped RGBA size size).
Proof.
  intros Hr Hov. unfold glow_step. cbv beta iota zeta.
  apply ellipse_shaped; [| |exact Hov]; rewrite <- Zle_Qle; lia.
Qed.

Lemma glow_step_fails (size i : Z) (ov : Image) (log : list canvas) :
  glow_radius size i < 0 ->
  fails (glow_step size ov i) log log ValueError.
Proof.
  intros Hr. unfold glow_step. cbv beta iota zeta. apply ellipse_fails. left.
  rewrite <- Zlt_Qlt. lia.
Qed.

Lemma glow_loop_shaped (size : Z) (ov : Image) (log : list canvas) :
  190 <= size -> shaped RGBA size size ov ->
  yields (for_each (range 0 20) ov (glow_step size)) log log
         (shaped RGBA size size).
Proof.
  intros Hs Hov. apply yields_for_each; [|exact Hov].
  intros acc i Hi Hacc. apply in_range in Hi.
  apply glow_step_shaped; [|exact Hacc].
  unfold glow_radius.
  assert (95 <= size / 2) by (apply Z.div_le_lower_bound; lia).
  lia.
Qed.

Lemma glow_loop_fails (size : Z) (ov : Image) (log : list canvas) :
  size < 190 -> shaped RGBA size size ov ->
  fails (for_each (range 0 20) ov (glow_step size)) log log ValueError.
Proof.
  intros Hs Hov.
  apply fails_for_each with (Inv := shaped RGBA size size); [| |exact Hov].
  - intros acc i _ Hacc.
    destruct (Z_le_gt_dec 0 (glow_radius size i)) as [H | H].
    + left. now apply glow_step_shaped.
    + right. apply glow_step_fails. lia.
  - exists 19. split; [apply in_range; lia|].
    intros acc _. apply glow_step_fails. unfold glow_radius.
    assert (size / 2 < 95) by (apply Z.div_lt_upper_bound; lia). lia.
Qed.

End PatternRuns.

(** *** The rounded-corner mask *)

Lemma covers_center (size radius : Z) :
  2 <= size -> 0 < radius ->
  rounded_rectangle_covers 0 0 size size radius (size / 2) (size / 2) = true.
Proof.
  intros Hs Hr. unfold rounded_rectangle_covers. cbv zeta.
  set (d := Z.max 0 (Z.min (2 * radius) (Z.min (size - 0) (size - 0)))).
  set (c := size / 2).
  assert (Hc : size - 1 <= 2 * c <= size).
  { unfold c. pose proof (Z.div_mod size 2).
    pose proof (Z.mod_pos_bound size 2). lia. }
  assert (Hd : 2 <= d <= size) by (unfold d; lia).
  set (dx := Z.max 0 (Z.max (2 * 0 + d - 2 * c) (2 * c - (2 * size - d)))).
  assert (Hdx : 0 <= dx <= 1) by (unfold dx; lia).
  repeat (apply andb_true_intro; split); apply Z.leb_le; try lia.
  nia.
Qed.

Lemma covers_corner (size radius : Z) :
  0 < size -> 0 < radius ->
  rounded_rectangle_covers 0 0 size size radius 0 0 = false.
Proof.
  intros Hs Hr. unfold rounded_rectangle_covers. cbv zeta.
  set (d := Z.max 0 (Z.min (2 * radius) (Z.min (size - 0) (size - 0)))).
  assert (Hd : 0 < d <= size) by (unfold d; lia).
  set (dx := Z.max 0 (Z.max (2 * 0 + d - 2 * 0) (2 * 0 - (2 * size - d)))).
  assert (Hdx : dx = d) by (unfold dx; lia).
  rewrite Hdx.
  apply andb_false_intro2. apply Z.leb_gt. nia.
Qed.

Lemma corner_radius_quot (size : Z) :
  PipelineA.corner_radius size = Z.quot (size * 2237) 10000.
Proof. unfold PipelineA.corner_radius, int. simpl. reflexivity. Qed.

Lemma corner_radius_pos (size : Z) :
  0 < PipelineA.corner_radius size -> 5 <= size.
Proof.
  rewrite corner_radius_quot. intros H.
  destruct (Z_lt_le_dec size 5) as [Hlt | Hge]; [|exact Hge]. exfalso.
  destruct (Z_lt_le_dec size 0) as [Hneg | Hnn].
  - assert (Z.quot (size * 2237) 10000 <= 0).
    { rewrite <- (Z.quot_0_l 10000) by lia. apply Z.quot_le_mono; lia. }
    lia.
  - rewrite Z.quot_small in H by lia. lia.
Qed.

Lemma rounded_mask_yields (size : Z) (log : list canvas) :
  0 <= size ->
  yields (PipelineA.rounded_mask size) log (log ++ [mkCanvas L size size])
         (fun mask => mask = PipelineA.mask_image size).
Proof.
  intros Hs. unfold PipelineA.rounded_mask.
  eapply yields_bind; [now apply new_yields|].
  intros mask ->. unfold rounded_rectangle.
  destruct (0 <=? size) eqn:E; [|lia]. simpl.
  apply yields_ret. reflexivity.
Qed.

Lemma mask_image_pixels (size : Z) :
  0 < PipelineA.corner_radius size ->
  getpixel_L (PipelineA.mask_image size) (size / 2) (size / 2) = Some 255 /\
  getpixel_L (PipelineA.mask_image size) 0 0 = Some 0.
Proof.
  intros Hr. pose proof (corner_radius_pos size Hr) as Hs.
  assert (Hc : 0 <= size / 2 < size).
  { split; [apply Z.div_pos; lia | apply Z.div_lt_upper_bound; lia]. }
  unfold getpixel_L, PipelineA.mask_image. simpl.
  destruct (0 <=? size / 2) eqn:E1; [|lia].
  destruct (size / 2 <? size) eqn:E2; [|lia].
  destruct (0 <? size) eqn:E3; [|lia]. simpl.
  rewrite covers_center by lia. rewrite covers_corner by lia.
  split; reflexivity.
Qed.

(** *** Pipeline A: where [create_icon] returns and where it raises *)

Module PatternIcon.
Import PipelineA PatternRuns.

Section WithMath.
Variable math_radians : Z -> Q.
Variables math_cos math_sin : Q -> Q.

Lemma create_icon_fails_below_190 (size : Z) :
  0 <= size < 190 ->
  fails (create_icon math_radians math_cos math_sin size) []
        (log_before_glow size) ValueError.
Proof.
  intros Hs. unfold create_icon. cbv zeta.
  eapply fails_bind; [apply create_gradient_background_shaped; lia|].
  intros img0 H0.
  eapply fails_bind; [eapply convert_shaped; exact H0|].
  intros img1 H1.
  eapply fails_bind; [apply draw_connecting_lines_shaped; lia|].
  intros lines Hl.
  eapply fails_bind; [apply alpha_composite_shaped; eassumption|].
  intros img2 H2.
  eapply fails_bind; [apply draw_pattern_circles_shaped; lia|].
  intros circles Hc.
  eapply fails_bind; [apply alpha_composite_shaped; eassumption|].
  intros img3 H3.
  eapply fails_bind; [apply new_shaped; lia|].
  intros glow Hg.
  apply fails_now. apply glow_loop_fails; [lia | exact Hg].
Qed.

Lemma create_icon_returns_from_190 (size : Z) :
  190 <= size ->
  yields (create_icon math_radians math_cos math_sin size) []
         (log_complete size)
         (fun output =>
            shaped RGBA size size output /\
            exists d,
              im_data output = PutAlpha d (im_data (mask_image size))).
Proof.
  intros Hs. unfold create_icon. cbv zeta.
  eapply yields_bind; [apply create_gradient_background_shaped; lia|].
  intros img0 H0.
  eapply yields_bind; [eapply convert_shaped; exact H0|].
  intros img1 H1.
  eapply yields_bind; [apply draw_connecting_lines_shaped; lia|].
  intros lines Hl.
  eapply yields_bind; [apply alpha_composite_shaped; eassumption|].
  intros img2 H2.
  eapply yields_bind; [apply draw_pattern_circles_shaped; lia|].
  intros circles Hc.
  eapply yields_bind; [apply alpha_composite_shaped; eassumption|].
  intros img3 H3.
  eapply yields_bind; [apply new_shaped; lia|].
  intros glow Hg.
  eapply yields_bind; [apply glow_loop_shaped; [lia | exact Hg]|].
  intros glow' Hg'.
  eapply yields_bind; [apply alpha_composite_shaped; eassumption|].
  intros img4 H4.
  eapply yields_bind; [apply rounded_mask_yields; lia|].
  intros mask ->.
  eapply yields_bind; [apply new_yields; lia|].
  intros output ->.
  eapply yields_bind; [apply paste_yields|].
  intros output ->.
  eapply yields_bind; [apply putalpha_yields; repeat split|].
  intros output ->.
  apply yields_ret. split; [repeat split|]. eexists. reflexivity.
Qed.

(** The alpha channel of the result is the mask. *)
Lemma create_icon_alpha (size : Z) :
  190 <= size ->
  yields (create_icon math_radians math_cos math_sin size) []
         (log_complete size)
         (fun output =>
            getalpha output (size / 2) (size / 2) = Some 255 /\
            getalpha output 0 0 = Some 0).
Proof.
  intros Hs.
  eapply yields_weaken; [now apply create_icon_returns_from_190|].
  intros output [[_ [Hw Hh]] [d Hd]].
  assert (Hr : 0 < corner_radius size).
  { rewrite corner_radius_quot. rewrite Z.quot_div_nonneg by lia.
    apply Z.div_str_pos. lia. }
  destruct (mask_image_pixels size Hr) as [Pc P0].
  unfold getpixel_L in Pc, P0. unfold getalpha.
  rewrite Hw, Hh, Hd. simpl in Pc, P0. exact (conj Pc P0).
Qed.

End WithMath.

(** Of the sizes [main] asks for, only the first is at least 190. *)
Lemma sizes_from_190 : filter (fun size => 190 <=? size) sizes = [1024].
Proof. reflexivity. Qed.

End PatternIcon.

(** *** Loops that only draw *)

Lemma draw_all_app (im : Image) (ops1 ops2 : list draw_op) :
  draw_all im (ops1 ++ ops2) = draw_all (draw_all im ops1) ops2.
Proof. unfold draw_all. apply fold_left_app. Qed.

Lemma ops_of_draw_all (im : Image) (ops : list draw_op) :
  ops_of (im_data (draw_all im ops)) = ops_of (im_data im) ++ ops.
Proof.
  unfold draw_all. revert im. induction ops as [|op ops IH]; intros im; simpl.
  - now rewrite app_nil_r.
  - rewrite IH. simpl. now rewrite <- app_assoc.
Qed.

Lemma draw_all_shaped (im : Image) (ops : list draw_op) (m : mode) (w h : Z) :
  shaped m w h im -> shaped m w h (draw_all im ops).
Proof.
  unfold draw_all. revert im.
  induction ops as [|op ops IH]; intros im H; simpl; [exact H|].
  apply IH. exact H.
Qed.

Lemma flat_map_singleton {A B : Type} (f : A -> B) (l : list A) :
  flat_map (fun a => [f a]) l = map f l.
Proof. induction l as [|a l IH]; simpl; [reflexivity | now rewrite IH]. Qed.

Lemma for_each_draw_all {A : Type} (l : list A) (body : Image -> A -> M Image)
      (f : A -> list draw_op) (log : list canvas) :
  (forall im a, In a l -> body im a log = (log, Ok (draw_all im (f a)))) ->
  forall im, for_each l im body log = (log, Ok (draw_all im (flat_map f l))).
Proof.
  induction l as [|a l IH]; intros Hb im; simpl; [reflexivity|].
  rewrite (bind_ok _ _ _ _ _ (Hb im a (or_introl eq_refl))).
  rewrite IH by (intros im0 a0 Hin; apply Hb; now right).
  now rewrite draw_all_app.
Qed.

(** *** Pipeline A: what the gradient and the glow loop draw *)

Module PatternDraws.
Import PipelineA.

Lemma glow_step_draws (size i : Z) (ov : Image) (log : list canvas) :
  0 <= glow_radius size i ->
  glow_step size ov i log = (log, Ok (draw_all ov [glow_circle size i])).
Proof.
  intros Hr. unfold glow_step, ellipse. cbv beta iota zeta.
  assert (E : Qle_bool (inject_Z (size / 2 - glow_radius size i))
                       (inject_Z (size / 2 + glow_radius size i)) = true).
  { apply Qle_bool_iff. rewrite <- Zle_Qle. lia. }
  rewrite E. reflexivity.
Qed.

Lemma glow_loop_draws (size : Z) (ov : Image) (log : list canvas) :
  190 <= size ->
  for_each (range 0 20) ov (glow_step size) log =
  (log, Ok (draw_all ov (map (glow_circle size) (range 0 20)))).
Proof.
  intros Hs.
  rewrite (for_each_draw_all _ _ (fun i => [glow_circle size i])).
  - now rewrite flat_map_singleton.
  - intros im i Hi. apply in_range in Hi. apply glow_step_draws.
    unfold glow_radius.
    assert (95 <= size / 2) by (apply Z.div_le_lower_bound; lia). lia.
Qed.

Lemma glow_alpha_quot (i : Z) : glow_alpha i = Z.quot (300 - i * 15) 10.
Proof.
  unfold glow_alpha, int, Qminus, Qplus, Qopp, Qmult, inject_Z.
  cbn [Qnum Qden]. f_equal; lia.
Qed.

(** The twenty alpha values of the glow. *)
Lemma glow_alphas :
  map glow_alpha (range 0 20) =
  [30; 28; 27; 25; 24; 22; 21; 19; 18; 16; 15; 13; 12; 10; 9; 7; 6; 4; 3; 1].
Proof. reflexivity. Qed.

Lemma glow_alpha_steps (i : Z) :
  0 <= i < 19 ->
  glow_alpha i - glow_alpha (i + 1) = if Z.even i then 2 else 1.
Proof.
  intros H.
  assert (C : In i (range 0 19)) by (apply in_range; lia).
  vm_compute in C.
  repeat (destruct C as [<- | C]; [reflexivity|]). destruct C.
Qed.

Lemma create_gradient_background_rows (w h : Z) (c1 c2 : rgb)
      (log : list canvas) :
  0 <= w -> 0 <= h ->
  create_gradient_background (w, h) c1 c2 log =
  (log ++ [mkCanvas RGB w h],
   Ok (draw_all (mkImage RGB w h (Blank (rgb_ink c1)))
                (map (fun y => Line (inject_Z 0) (inject_Z y)
                                    (inject_Z w) (inject_Z y)
                                    (rgb_ink (gradient_row c1 c2 y h)) 0)
                     (range 0 h)))).
Proof.
  intros Hw Hh. unfold create_gradient_background.
  destruct (new_yields RGB w h (rgb_ink c1) log Hw Hh) as [base [E ->]].
  rewrite (bind_ok _ _ _ _ _ E). simpl fst; simpl snd.
  rewrite (for_each_draw_all _ _
             (fun y => [Line (inject_Z 0) (inject_Z y) (inject_Z w) (inject_Z y)
                             (rgb_ink (gradient_row c1 c2 y h)) 0])).
  - now rewrite flat_map_singleton.
  - intros im y _. reflexivity.
Qed.

End PatternDraws.

(** *** The square-canvas invariant *)

Section Keeps.
Variable size : Z.

Lemma keeps_ret {A : Type} (a : A) (P : A -> Prop) :
  P a -> keeps size P (ret a).
Proof.
  intros H log Hlog. simpl. split; [exact Hlog|].
  intros a' E. injection E as <-. exact H.
Qed.

Lemma keeps_raise {A : Type} (e : exn) (P : A -> Prop) :
  keeps size P (raise e).
Proof. intros log Hlog. simpl. split; [exact Hlog | discriminate]. Qed.

Lemma keeps_lift {A : Type} (r : result A) :
  keeps size (fun _ => True) (lift r).
Proof. intros log Hlog. simpl. split; [exact Hlog | trivial]. Qed.

Lemma keeps_bind {A B : Type} (m : M A) (k : A -> M B)
      (P : A -> Prop) (Q : B -> Prop) :
  keeps size P m -> (forall a, P a -> keeps size Q (k a)) ->
  keeps size Q (bind m k).
Proof.
  intros Hm Hk log Hlog. specialize (Hm log Hlog). unfold bind.
  destruct (m log) as [log' [a | e]]; simpl in Hm; destruct Hm as [HL HP].
  - apply Hk; [apply HP; reflexivity | exact HL].
  - simpl. split; [exact HL | discriminate].
Qed.

Lemma keeps_for_each {A B : Type} (l : list A) (body : B -> A -> M B)
      (Inv : B -> Prop) :
  (forall acc a, Inv acc -> keeps size Inv (body acc a)) ->
  forall acc, Inv acc -> keeps size Inv (for_each l acc body).
Proof.
  intros Hb. induction l as [|a l IH]; intros acc Hacc; simpl.
  - now apply keeps_ret.
  - eapply keeps_bind; [now apply Hb | exact IH].
Qed.

Lemma keeps_if {A : Type} (b : bool) (m1 m2 : M A) (P : A -> Prop) :
  keeps size P m1 -> keeps size P m2 -> keeps size P (if b then m1 else m2).
Proof. now destruct b. Qed.

Lemma keeps_allocate (m : mode) (d : content) :
  keeps size (sized size) (allocate m size size d).
Proof.
  intros log Hlog. simpl. split.
  - apply Forall_app. split; [exact Hlog|]. constructor; [|constructor].
    split; reflexivity.
  - intros a E. injection E as <-. reflexivity.
Qed.

Lemma keeps_new (m : mode) (c : ink) :
  keeps size (sized size) (new m (size, size) c).
Proof.
  unfold new. apply keeps_if; [apply keeps_raise | apply keeps_allocate].
Qed.

Lemma sized_dims (im : Image) :
  sized size im -> im_width im = size /\ im_height im = size.
Proof. unfold sized, im_size. intros E. now injection E. Qed.

Lemma keeps_convert (im : Image) (m : mode) :
  sized size im -> keeps size (sized size) (convert im m).
Proof.
  intros H. destruct (sized_dims im H) as [W Hh]. unfold convert.
  rewrite W, Hh. apply keeps_allocate.
Qed.

Lemma keeps_alpha_composite (im1 im2 : Image) :
  sized size im1 -> keeps size (sized size) (alpha_composite im1 im2).
Proof.
  intros H. destruct (sized_dims im1 H) as [W Hh]. unfold alpha_composite.
  apply keeps_if; [|apply keeps_raise]. rewrite W, Hh. apply keeps_allocate.
Qed.

Lemma keeps_line (im : Image) (x0 y0 x1 y1 : Q) (fill : ink) (width : Z) :
  sized size im -> keeps size (sized size) (line im x0 y0 x1 y1 fill width).
Proof. intros H. apply keeps_ret. exact H. Qed.

Lemma keeps_ellipse (im : Image) (x0 y0 x1 y1 : Q) (fill : ink) :
  sized size im -> keeps size (sized size) (ellipse im x0 y0 x1 y1 fill).
Proof.
  intros H. unfold ellipse.
  apply keeps_if; [apply keeps_ret; exact H | apply keeps_raise].
Qed.

Lemma keeps_rounded_rectangle (im : Image) (x0 y0 x1 y1 radius : Z)
      (fill : ink) :
  sized size im ->
  keeps size (sized size) (rounded_rectangle im x0 y0 x1 y1 radius fill).
Proof.
  intros H. unfold rounded_rectangle.
  apply keeps_if; [apply keeps_ret; exact H | apply keeps_raise].
Qed.

Lemma keeps_putpixel (im : Image) (x y : Z) (value : ink) :
  sized size im -> keeps size (sized size) (putpixel im x y value).
Proof.
  intros H. unfold putpixel.
  apply keeps_if; [apply keeps_ret; exact H | apply keeps_raise].
Qed.

Lemma keeps_paste (im src : Image) (mask : option Image) :
  sized size im -> keeps size (sized size) (paste im src mask).
Proof.
  intros H. unfold paste.
  apply keeps_if; [apply keeps_ret; exact H | apply keeps_raise].
Qed.

Lemma keeps_putalpha (im alpha : Image) :
  sized size im -> keeps size (sized size) (putalpha im alpha).
Proof.
  intros H. unfold putalpha.
  apply keeps_if; [apply keeps_ret; exact H | apply keeps_raise].
Qed.

End Keeps.

Create HintDb square.

#[local] Hint Resolve keeps_new keeps_convert keeps_alpha_composite keeps_line
  keeps_ellipse keeps_rounded_rectangle keeps_putpixel keeps_paste
  keeps_putalpha : square.

(** One step of a pipeline: run a call that keeps the invariant, name its
    result. *)
Ltac keeps_step :=
  eapply keeps_bind; [solve [eauto with square] | intros ? ?].

(** *** Pipeline A keeps its canvases square *)

Module PatternSquare.
Import PipelineA.

Lemma keeps_create_gradient_background (size : Z) (c1 c2 : rgb) :
  keeps size (sized size) (create_gradient_background (size, size) c1 c2).
Proof.
  unfold create_gradient_background. keeps_step.
  apply keeps_for_each; [|assumption]. intros acc y Hacc. auto with square.
Qed.

Lemma keeps_rounded_mask (size : Z) :
  keeps size (sized size) (rounded_mask size).
Proof. unfold rounded_mask. keeps_step. auto with square. Qed.

Section WithMath.
Variable math_radians : Z -> Q.
Variables math_cos math_sin : Q -> Q.

Lemma keeps_draw_connecting_lines (size : Z) (color : rgb) (alpha : Z) :
  keeps size (sized size)
        (draw_connecting_lines math_radians math_cos math_sin
                               (size, size) color alpha).
Proof.
  unfold draw_connecting_lines. cbv beta iota zeta. keeps_step.
  apply keeps_for_each; [|assumption]. intros acc [i angle] Hacc.
  keeps_step.
  eapply keeps_bind; [apply keeps_lift | intros next_angle _].
  auto with square.
Qed.

Lemma keeps_draw_pattern_circles (size : Z) (color : rgb) (alpha : Z) :
  keeps size (sized size)
        (draw_pattern_circles math_radians math_cos math_sin
                              (size, size) color alpha).
Proof.
  unfold draw_pattern_circles. cbv beta iota zeta.
  keeps_step. keeps_step.
  eapply keeps_bind.
  - apply keeps_for_each; [|eassumption]. intros acc y Hacc. auto with square.
  - intros ov Hov. apply keeps_for_each; [|assumption].
    intros acc y Hacc. auto with square.
Qed.

Lemma keeps_create_icon (size : Z) :
  keeps size (sized size)
        (create_icon math_radians math_cos math_sin size).
Proof.
  unfold create_icon. cbv zeta.
  eapply keeps_bind; [apply keeps_create_gradient_background | intros img0 H0].
  keeps_step.
  eapply keeps_bind; [apply keeps_draw_connecting_lines | intros lines Hl].
  keeps_step.
  eapply keeps_bind; [apply keeps_draw_pattern_circles | intros circles Hc].
  keeps_step. keeps_step.
  eapply keeps_bind.
  { apply keeps_for_each; [|eassumption]. intros acc i Hacc.
    unfold glow_step. auto with square. }
  intros glow Hg. keeps_step.
  eapply keeps_bind; [apply keeps_rounded_mask | intros mask Hm].
  keeps_step. keeps_step. keeps_step.
  apply keeps_ret. assumption.
Qed.

End WithMath.
End PatternSquare.

(** *** Pipeline B: the stroke loop *)

Module Stroke.
Import PipelineB.

Lemma stroke_offsets_draw (img : Image) (color : rgb) (p1 p2 : Q * Q)
      (line_width : Z) (log : list canvas) :
  for_each (stroke_offsets line_width) img
    (fun img offset =>
       let '(x1, y1) := p1 in
       let '(x2, y2) := p2 in
       img <- line img x1 (y1 + inject_Z offset)%Q x2 (y2 + inject_Z offset)%Q
                   (rgb_ink color) 3 ;;
       line img (x1 + inject_Z offset)%Q y1 (x2 + inject_Z offset)%Q y2
            (rgb_ink color) 3) log =
  (log, Ok (draw_all img (flat_map (offset_lines color p1 p2)
                                   (stroke_offsets line_width)))).
Proof.
  apply for_each_draw_all. intros im offset _.
  destruct p1 as [x1 y1], p2 as [x2 y2]. reflexivity.
Qed.

(** The position of segment [i] of [n] points lies in [0, 1). *)
Lemma position_below_one (i n : Z) :
  0 <= i < n - 1 ->
  (0 <= inject_Z i / inject_Z n)%Q /\ (inject_Z i / inject_Z n < 1)%Q.
Proof.
  intros H. assert (Hn : (0 < inject_Z n)%Q).
  { change 0%Q with (inject_Z 0). rewrite <- Zlt_Qlt. lia. }
  split.
  - apply Qle_shift_div_l; [exact Hn|]. rewrite Qmult_0_l.
    change 0%Q with (inject_Z 0). rewrite <- Zle_Qle. lia.
  - apply Qlt_shift_div_r; [exact Hn|]. rewrite Qmult_1_l.
    rewrite <- Zlt_Qlt. lia.
Qed.

Lemma rainbow_total (p : Q) :
  (0 <= p)%Q -> (p < 1)%Q ->
  exists color, get_rainbow_color p = Ok color /\ color <> last_anchor.
Proof.
  intros H0 H1. destruct (rainbow_index p H0 H1) as [k [Hk [L U]]].
  pose proof (rainbow_below_one_not_violet p H0 H1) as Hne.
  rewrite (get_rainbow_color_segment p k Hk L U) in *.
  eexists. split; [reflexivity|]. intros E. apply Hne. now rewrite E.
Qed.

(** What the loop does for one segment. *)
Lemma segment_lines_spec (points : list (Q * Q)) (line_width i : Z) :
  let n := Z.of_nat (length points) in
  0 <= i < n - 1 ->
  exists color p1 p2,
    get_rainbow_color (inject_Z i / inject_Z n) = Ok color /\
    color <> last_anchor /\
    getitem points i = Ok p1 /\
    getitem points (i + 1) = Ok p2 /\
    segment_lines points line_width i =
    flat_map (offset_lines color p1 p2) (stroke_offsets line_width).
Proof.
  intros n Hi.
  destruct (position_below_one i n Hi) as [P0 P1].
  destruct (rainbow_total _ P0 P1) as [color [Ec Hc]].
  exists color, (nth (Z.to_nat i) points (0, 0)%Q),
    (nth (Z.to_nat (i + 1)) points (0, 0)%Q).
  assert (E1 := getitem_nonneg points i (0, 0)%Q ltac:(fold n; lia)).
  assert (E2 := getitem_nonneg points (i + 1) (0, 0)%Q ltac:(fold n; lia)).
  repeat split; try assumption.
  unfold segment_lines. fold n. cbv zeta. now rewrite Ec, E1, E2.
Qed.

Lemma draw_thick_curve_draws (img : Image) (points : list (Q * Q))
      (line_width : Z) (log : list canvas) :
  draw_thick_curve img points line_width log =
  (log, Ok (draw_all img
              (flat_map (segment_lines points line_width)
                        (range 0 (Z.of_nat (length points) - 1))))).
Proof.
  unfold draw_thick_curve. cbv zeta.
  apply for_each_draw_all. intros im i Hi. apply in_range in Hi.
  destruct (segment_lines_spec points line_width i Hi)
    as [color [p1 [p2 [Ec [_ [E1 [E2 ->]]]]]]].
  unfold true_div.
  destruct (Z.of_nat (length points) =? 0) eqn:En; [lia|].
  unfold bind at 1. unfold ret at 1.
  unfold bind at 1. unfold lift at 1. rewrite Ec.
  unfold bind at 1. unfold lift at 1. rewrite E1.
  unfold bind at 1. unfold lift at 1. rewrite E2.
  apply stroke_offsets_draw.
Qed.

Lemma offset_lines_fill (color : rgb) (p1 p2 : Q * Q) (offset : Z)
      (op : draw_op) :
  In op (offset_lines color p1 p2 offset) ->
  exists x0 y0 x1 y1, op = Line x0 y0 x1 y1 (rgb_ink color) 3.
Proof.
  destruct p1 as [x1 y1], p2 as [x2 y2]. simpl.
  intros [<- | [<- | []]]; do 4 eexists; reflexivity.
Qed.


Lemma stroke_offsets_bounds (line_width o : Z) :
  In o (stroke_offsets line_width) <->
  - ((line_width + 1) / 2) <= o <= line_width / 2 - 1.
Proof.
  unfold stroke_offsets. rewrite in_range.
  assert ((- line_width) / 2 = - ((line_width + 1) / 2)).
  { pose proof (Z.div_mod (- line_width) 2).
    pose proof (Z.mod_pos_bound (- line_width) 2).
    pose proof (Z.div_mod (line_width + 1) 2).
    pose proof (Z.mod_pos_bound (line_width + 1) 2). lia. }
  lia.
Qed.

Lemma stroke_offsets_length (line_width : Z) :
  0 <= line_width ->
  Z.of_nat (length (stroke_offsets line_width)) = line_width.
Proof.
  intros H. unfold stroke_offsets. rewrite range_length.
  pose proof (Z.div_mod (- line_width) 2).
  pose proof (Z.mod_pos_bound (- line_width) 2).
  pose proof (Z.div_mod line_width 2).
  pose proof (Z.mod_pos_bound line_width 2). lia.
Qed.

End Stroke.

Lemma putpixel_shaped (im : Image) (x y : Z) (value : ink)
      (m : mode) (w h : Z) (log : list canvas) :
  0 <= x < w -> 0 <= y < h -> shaped m w h im ->
  yields (putpixel im x y value) log log (shaped m w h).
Proof.
  intros Hx Hy [Hm [Hw Hh]]. unfold putpixel. rewrite Hw, Hh.
  destruct (0 <=? x) eqn:E1; [|lia]. destruct (x <? w) eqn:E2; [|lia].
  destruct (0 <=? y) eqn:E3; [|lia]. destruct (y <? h) eqn:E4; [|lia].
  simpl. apply yields_ret. repeat split; assumption.
Qed.

(** *** Pipeline B: invariant and complete runs *)

Module InfinityIcon.
Import PipelineB Stroke.

Lemma keeps_draw_thick_curve (size : Z) (img : Image) (points : list (Q * Q))
      (line_width : Z) :
  sized size img ->
  keeps size (sized size) (draw_thick_curve img points line_width).
Proof.
  intros H log Hlog. rewrite draw_thick_curve_draws. simpl.
  split; [exact Hlog|]. intros a E. injection E as <-.
  unfold sized, im_size in *. injection H as Hw Hh.
  destruct (draw_all_shaped img
              (flat_map (segment_lines points line_width)
                        (range 0 (Z.of_nat (length points) - 1)))
              (im_mode img) size size) as [_ [-> ->]]; [|reflexivity].
  repeat split; assumption.
Qed.

Lemma rounded_mask_yields_B (size : Z) (log : list canvas) :
  0 <= size ->
  yields (rounded_mask size) log (log ++ [mkCanvas L size size])
         (fun mask => mask = PipelineA.mask_image size).
Proof. exact (rounded_mask_yields size log). Qed.

Section WithMath.
Variables math_sqrt math_sin math_cos : Q -> Q.
Variable math_pi : Q.

Lemma keeps_radial_gradient (size : Z) (c1 c2 : rgb) :
  keeps size (sized size)
        (create_gradient_background math_sqrt size c1 c2).
Proof.
  unfold create_gradient_background. keeps_step. cbv zeta.
  apply keeps_for_each; [|assumption]. intros acc y Hacc.
  apply keeps_for_each; [|assumption]. intros acc' x Hacc'.
  eapply keeps_bind with (P := fun _ => True).
  - unfold float_div. apply keeps_if; [apply keeps_raise | now apply keeps_ret].
  - intros ratio _. auto with square.
Qed.

Lemma keeps_create_app_icon (size : Z) :
  keeps size (sized size)
        (create_app_icon math_sqrt math_sin math_cos math_pi size).
Proof.
  unfold create_app_icon. cbv zeta.
  eapply keeps_bind; [apply keeps_radial_gradient | intros img0 H0].
  eapply keeps_bind; [apply keeps_draw_thick_curve; exact H0 | intros img1 H1].
  eapply keeps_bind; [apply PatternSquare.keeps_rounded_mask | intros mask Hm].
  keeps_step. keeps_step. keeps_step. keeps_step. keeps_step.
  apply keeps_ret. assumption.
Qed.

(** [math.sqrt] of a positive integer is not zero. *)
Hypothesis sqrt_nonzero :
  forall n : Z, 0 < n -> Qeq_bool (math_sqrt (inject_Z n)) 0 = false.

Lemma radial_gradient_shaped (size : Z) (c1 c2 : rgb)
      (log : list canvas) :
  2 <= size ->
  yields (create_gradient_background math_sqrt size c1 c2) log
         (log ++ [mkCanvas RGB size size]) (shaped RGB size size).
Proof.
  intros Hs. unfold create_gradient_background.
  eapply yields_bind; [apply new_shaped; lia|].
  intros base Hbase. cbv zeta.
  assert (Hc : 1 <= size / 2) by (apply Z.div_le_lower_bound; lia).
  apply yields_for_each; [|exact Hbase].
  intros acc y Hy Hacc. apply in_range in Hy.
  apply yields_for_each; [|exact Hacc].
  intros acc' x Hx Hacc'. apply in_range in Hx.
  eapply yields_bind with (P := fun _ => True).
  - unfold float_div. rewrite sqrt_nonzero by nia. now apply yields_ret.
  - intros ratio _. apply putpixel_shaped; [lia | lia | exact Hacc'].
Qed.

(** The canvases of a complete run of [create_app_icon]. *)
Lemma create_app_icon_returns (size : Z) :
  2 <= size ->
  yields (create_app_icon math_sqrt math_sin math_cos math_pi size) []
         [ mkCanvas RGB size size; mkCanvas L size size;
           mkCanvas RGBA size size; mkCanvas RGB size size ]
         (shaped RGB size size).
Proof.
  intros Hs. unfold create_app_icon. cbv zeta.
  eapply yields_bind; [apply radial_gradient_shaped; lia|].
  intros img0 H0.
  eapply yields_bind.
  { eexists. split; [apply draw_thick_curve_draws|].
    apply draw_all_shaped. exact H0. }
  intros img1 H1.
  eapply yields_bind; [apply rounded_mask_yields_B; lia|].
  intros mask ->.
  eapply yields_bind; [apply new_yields; lia|].
  intros output ->.
  eapply yields_bind; [apply paste_yields|].
  intros output ->.
  eapply yields_bind; [apply putalpha_yields; repeat split|].
  intros output ->.
  eapply yields_bind; [apply new_shaped; lia|].
  intros final Hf.
  eapply yields_bind; [apply paste_masked_shaped; [exact Hf | reflexivity]|].
  intros final' Hf'. apply yields_ret. exact Hf'.
Qed.

End WithMath.
End InfinityIcon.

(** ** The curve sampler over the reals *)

Module CurveFacts.
Import PipelineB Curve.
Local Open Scope R_scope.

Section Sampled.
Variables center_x center_y width height num_points : Z.
Hypothesis enough : (2 <= num_points)%Z.

Lemma samples_length :
  length (samples center_x center_y width height num_points)
  = Z.to_nat num_points.
Proof.
  unfold samples, draw_infinity_symbol. rewrite length_map, range_length.
  f_equal. lia.
Qed.

Lemma sample_at (i : Z) :
  (0 <= i < num_points)%Z ->
  let t := parameter num_points i in
  sample center_x center_y width height num_points i =
  (IZR center_x + IZR width / 2 * cos t / (1 + sin t * sin t),
   IZR center_y + IZR height / 2 * sin t * cos t / (1 + sin t * sin t)).
Proof.
  intros Hi. unfold sample, samples, draw_infinity_symbol. cbv zeta.
  set (f := fun i0 : Z => lemniscate R_ops center_x center_y _ _ _).
  rewrite (nth_indep _ (0, 0) (f 0%Z))
    by (rewrite length_map, range_length; lia).
  rewrite (map_nth f). rewrite nth_range by lia.
  replace (0 + Z.of_nat (Z.to_nat i))%Z with i by lia.
  reflexivity.
Qed.

Lemma parameter_first : parameter num_points 0 = 0.
Proof. unfold parameter, Rdiv. ring. Qed.

Lemma num_points_nonzero : IZR num_points <> 0.
Proof. apply not_0_IZR. lia. Qed.

Lemma parameter_step (i : Z) :
  parameter num_points (i + 1) - parameter num_points i
  = 2 * PI / IZR num_points.
Proof.
  unfold parameter. rewrite plus_IZR. field. exact num_points_nonzero.
Qed.

Lemma parameter_last :
  parameter num_points (num_points - 1) = 2 * PI - parameter num_points 1.
Proof.
  unfold parameter. rewrite minus_IZR. field. exact num_points_nonzero.
Qed.

Lemma sin_last :
  sin (parameter num_points (num_points - 1))
  = - sin (parameter num_points 1).
Proof.
  rewrite parameter_last, sin_minus, sin_2PI, cos_2PI. ring.
Qed.

Lemma cos_last :
  cos (parameter num_points (num_points - 1))
  = cos (parameter num_points 1).
Proof.
  rewrite parameter_last, cos_minus, sin_2PI, cos_2PI. ring.
Qed.

Lemma denominator_nonzero (x : R) : 1 + sin x * sin x <> 0.
Proof. nra. Qed.

(** The gap that closes the curve is as long as its first step: the
    last point is the mirror image of the second in the axis through
    the first. *)
Lemma closing_gap :
  dist (sample center_x center_y width height num_points 0)
       (sample center_x center_y width height num_points (num_points - 1))
  = dist (sample center_x center_y width height num_points 0)
         (sample center_x center_y width height num_points 1).
Proof.
  rewrite !sample_at by lia. cbv zeta.
  rewrite sin_last, cos_last, parameter_first, sin_0, cos_0.
  unfold dist. cbn [fst snd]. f_equal.
  pose proof (denominator_nonzero (parameter num_points 1)) as D.
  field. exact D.
Qed.

End Sampled.
End CurveFacts.

(** ** Binary64 rounding *)

Module Rounding.
Import Binary64.
Local Open Scope Q_scope.

Lemma pow2_pos (e : Z) : 0 < pow2 e.
Proof. apply Qpower_0_lt. reflexivity. Qed.

Lemma pow2_add (a b : Z) : pow2 (a + b) == pow2 a * pow2 b.
Proof. unfold pow2. apply Qpower_plus. discriminate. Qed.

Lemma pow2_lt (a b : Z) : (a < b)%Z -> pow2 a < pow2 b.
Proof. intros H. apply Qpower_lt_compat_l; [exact H | reflexivity]. Qed.

Lemma pow2_le (a b : Z) : (a <= b)%Z -> pow2 a <= pow2 b.
Proof. intros H. apply Qpower_le_compat_l; [exact H | discriminate]. Qed.

Lemma pow2_lt_inv (a b : Z) : pow2 a < pow2 b -> (a < b)%Z.
Proof. intros H. apply (Qpower_lt_compat_l_inv 2); [exact H | reflexivity]. Qed.

Lemma pow2_inject (a : Z) : (0 <= a)%Z -> pow2 a == inject_Z (2 ^ a).
Proof. intros H. unfold pow2. now rewrite Zpower_Qpower. Qed.

Lemma pow2_succ (a : Z) : pow2 (a + 1) == 2 * pow2 a.
Proof. rewrite pow2_add. change (pow2 1) with 2. ring. Qed.

(** *** The magnitude *)

Lemma mag_spec (x : Q) : 0 < x -> pow2 (mag x) <= x /\ x < pow2 (mag x + 1).
Proof.
  intros Hx. destruct x as [n d]. unfold mag. cbn [Qnum Qden].
  assert (Hn : (0 < n)%Z) by (unfold Qlt in Hx; simpl in Hx; lia).
  set (a := Z.log2 n). set (b := Z.log2 (Z.pos d)).
  assert (Ha : (2 ^ a <= n < 2 ^ (a + 1))%Z).
  { unfold a. pose proof (Z.log2_spec n Hn). now rewrite <- Z.add_1_r in H. }
  assert (Hb : (2 ^ b <= Z.pos d < 2 ^ (b + 1))%Z).
  { unfold b. pose proof (Z.log2_spec (Z.pos d) ltac:(lia)).
    now rewrite <- Z.add_1_r in H. }
  assert (Ha0 : (0 <= a)%Z) by apply Z.log2_nonneg.
  assert (Hb0 : (0 <= b)%Z) by apply Z.log2_nonneg.
  assert (Pa : (0 < 2 ^ a)%Z) by (apply Z.pow_pos_nonneg; lia).
  assert (Pb : (0 < 2 ^ b)%Z) by (apply Z.pow_pos_nonneg; lia).
  rewrite Z.pow_add_r in Ha, Hb by lia. change (2 ^ 1)%Z with 2%Z in Ha, Hb.
  assert (E : n # d == inject_Z n / inject_Z (Z.pos d)) by apply Qmake_Qdiv.
  assert (Dpos : 0 < inject_Z (Z.pos d))
    by (change 0 with (inject_Z 0); rewrite <- Zlt_Qlt; lia).
  assert (Ea : pow2 a == inject_Z (2 ^ a)) by now apply pow2_inject.
  assert (Eb : pow2 b == inject_Z (2 ^ b)) by now apply pow2_inject.
  assert (Ek : pow2 (a - b) * pow2 b == pow2 a).
  { rewrite <- pow2_add. now replace (a - b + b)%Z with a by lia. }
  assert (Pk := pow2_pos (a - b)). assert (PB := pow2_pos b).
  assert (Pk1 : pow2 (a - b) == 2 * pow2 (a - b - 1)).
  { pose proof (pow2_succ (a - b - 1)) as T.
    now replace (a - b - 1 + 1)%Z with (a - b)%Z in T by lia. }
  assert (Pk2 : pow2 (a - b + 1) == 2 * pow2 (a - b)) by apply pow2_succ.
  (* bounds in Q *)
  assert (Xd : (n # d) * inject_Z (Z.pos d) == inject_Z n).
  { rewrite E. field. intros F. rewrite F in Dpos.
    now apply Qlt_irrefl in Dpos. }
  assert (Qa1 : inject_Z (2 ^ a) <= inject_Z n) by (rewrite <- Zle_Qle; lia).
  assert (Qa2 : inject_Z n < 2 * inject_Z (2 ^ a)).
  { change 2 with (inject_Z 2). rewrite <- inject_Z_mult, <- Zlt_Qlt. lia. }
  assert (Qb1 : inject_Z (2 ^ b) <= inject_Z (Z.pos d))
    by (rewrite <- Zle_Qle; lia).
  assert (Qb2 : inject_Z (Z.pos d) < 2 * inject_Z (2 ^ b)).
  { change 2 with (inject_Z 2). rewrite <- inject_Z_mult, <- Zlt_Qlt. lia. }
  rewrite <- Ea in Qa1, Qa2. rewrite <- Eb in Qb1, Qb2.
  set (x := n # d) in *. set (D := inject_Z (Z.pos d)) in *.
  set (N := inject_Z n) in *.
  set (pa := pow2 a) in *. set (pb := pow2 b) in *.
  set (pk := pow2 (a - b)) in *.
  assert (U : x < 2 * pk).
  { apply Qnot_le_lt. intros C.
    assert (2 * pk * D <= x * D) by (apply Qmult_le_compat_r; lra).
    assert (2 * pk * pb <= 2 * pk * D) by (apply Qmult_le_l; lra).
    lra. }
  assert (Lo : pow2 (a - b - 1) <= x).
  { apply Qnot_lt_le. intros C.
    assert (x * D < pow2 (a - b - 1) * D) by (apply Qmult_lt_compat_r; lra).
    assert (P1 := pow2_pos (a - b - 1)).
    assert (pow2 (a - b - 1) * D <= pow2 (a - b - 1) * (2 * pb))
      by (apply Qmult_le_l; lra).
    fold pk in Pk1. nra. }
  destruct (Qle_bool pk x) eqn:B.
  - apply Qle_bool_iff in B. split; [exact B|]. rewrite Pk2. exact U.
  - assert (B' : x < pk).
    { apply Qnot_le_lt. intros C. apply Qle_bool_iff in C. congruence. }
    split; [exact Lo|].
    now replace (a - b - 1 + 1)%Z with (a - b)%Z by lia.
Qed.

Lemma mag_lower (x : Q) (k : Z) : 0 < x -> pow2 k <= x -> (k <= mag x)%Z.
Proof.
  intros Hx H. destruct (mag_spec x Hx) as [_ U].
  assert (pow2 k < pow2 (mag x + 1)) by (eapply Qle_lt_trans; eassumption).
  apply pow2_lt_inv in H0. lia.
Qed.

Lemma mag_upper (x : Q) (k : Z) : 0 < x -> x < pow2 k -> (mag x < k)%Z.
Proof.
  intros Hx H. destruct (mag_spec x Hx) as [L _].
  assert (pow2 (mag x) < pow2 k) by (eapply Qle_lt_trans; eassumption).
  now apply pow2_lt_inv in H0.
Qed.

Lemma mag_mono (x y : Q) : 0 < x -> x <= y -> (mag x <= mag y)%Z.
Proof.
  intros Hx H. destruct (mag_spec x Hx) as [L _].
  apply mag_lower; [eapply Qlt_le_trans; eassumption|].
  eapply Qle_trans; eassumption.
Qed.

(** *** The nearest integer *)

Lemma nearest_even_cases (m : Q) :
  nearest_even m = Qfloor m \/
  (nearest_even m = (Qfloor m + 1)%Z /\ 1 # 2 <= m - inject_Z (Qfloor m)).
Proof.
  unfold nearest_even. cbv zeta.
  destruct (Qcompare_spec (m - inject_Z (Qfloor m)) (1 # 2)) as [E | L | G].
  - destruct (Z.even (Qfloor m)); [now left|]. right. split; [reflexivity|].
    rewrite E. apply Qle_refl.
  - now left.
  - right. split; [reflexivity | now apply Qlt_le_weak].
Qed.

Lemma nearest_even_lower (m : Q) (k : Z) :
  inject_Z k <= m -> (k <= nearest_even m)%Z.
Proof.
  intros H. apply Qfloor_resp_le in H. rewrite Qfloor_Z in H.
  destruct (nearest_even_cases m) as [-> | [-> _]]; lia.
Qed.

Lemma nearest_even_upper (m : Q) (k : Z) :
  m <= inject_Z k -> (nearest_even m <= k)%Z.
Proof.
  intros H. pose proof (Qfloor_resp_le _ _ H) as F. rewrite Qfloor_Z in F.
  destruct (nearest_even_cases m) as [-> | [-> G]]; [exact F|].
  destruct (Z.eq_dec (Qfloor m) k) as [E | N]; [|lia].
  rewrite E in G. lra.
Qed.

Lemma nearest_even_error (m : Q) :
  - (1 # 2) <= inject_Z (nearest_even m) - m <= 1 # 2.
Proof.
  pose proof (Qfloor_le m) as L. pose proof (Qlt_floor m) as U.
  rewrite inject_Z_plus in U. change (inject_Z 1) with 1 in U.
  unfold nearest_even. cbv zeta.
  destruct (Qcompare_spec (m - inject_Z (Qfloor m)) (1 # 2)) as [E | Lt | G].
  - destruct (Z.even (Qfloor m)).
    + lra.
    + rewrite inject_Z_plus. change (inject_Z 1) with 1. lra.
  - lra.
  - rewrite inject_Z_plus. change (inject_Z 1) with 1. lra.
Qed.

(** *** Rounding a positive number *)

Lemma round_positive_eq (x : Q) :
  round_positive x
  == inject_Z (nearest_even (x / pow2 (ulp_exponent x)))
     * pow2 (ulp_exponent x).
Proof. unfold round_positive. cbv zeta. apply Qred_correct. Qed.

Lemma scaled_eq (x : Q) (e : Z) : x / pow2 e * pow2 e == x.
Proof.
  field. intros F. pose proof (pow2_pos e) as P. rewrite F in P.
  now apply Qlt_irrefl in P.
Qed.

Lemma round_positive_error (x : Q) :
  0 < x ->
  - (pow2 (ulp_exponent x) / 2) <= round_positive x - x
  <= pow2 (ulp_exponent x) / 2.
Proof.
  intros Hx. rewrite round_positive_eq.
  pose proof (nearest_even_error (x / pow2 (ulp_exponent x))) as [L U].
  pose proof (scaled_eq x (ulp_exponent x)) as E.
  pose proof (pow2_pos (ulp_exponent x)) as P.
  set (p := pow2 (ulp_exponent x)) in *. set (m := x / p) in *.
  set (k := inject_Z (nearest_even m)) in *.
  assert (A : 0 <= (k - m + (1 # 2)) * p)
    by (apply Qmult_le_0_compat; lra).
  assert (B : 0 <= ((1 # 2) - (k - m)) * p)
    by (apply Qmult_le_0_compat; lra).
  unfold Qdiv. change (/ 2) with (1 # 2). split; nra.
Qed.

Lemma ulp_exponent_mono (x y : Q) :
  0 < x -> x <= y -> (ulp_exponent x <= ulp_exponent y)%Z.
Proof.
  intros Hx H. unfold ulp_exponent. pose proof (mag_mono x y Hx H). lia.
Qed.

(** A positive number is at least [2 ^ 52] of its last places, and below
    [2 ^ 53] of them. *)
Lemma scaled_upper (x : Q) :
  0 < x -> x < pow2 (ulp_exponent x + 53).
Proof.
  intros Hx. destruct (mag_spec x Hx) as [_ U].
  eapply Qlt_le_trans; [exact U|]. apply pow2_le. unfold ulp_exponent. lia.
Qed.

Lemma scaled_lower (x : Q) :
  0 < x -> (-1022 <= mag x)%Z -> pow2 (ulp_exponent x + 52) <= x.
Proof.
  intros Hx Hm. destruct (mag_spec x Hx) as [L _].
  eapply Qle_trans; [|exact L]. apply pow2_le. unfold ulp_exponent. lia.
Qed.

Lemma mult_pow2_le (a b : Q) (e : Z) : a <= b * pow2 e <-> a / pow2 e <= b.
Proof.
  pose proof (pow2_pos e) as P. pose proof (scaled_eq a e) as E.
  split; intros H.
  - apply Qnot_lt_le. intros C.
    assert (b * pow2 e < a / pow2 e * pow2 e)
      by (apply Qmult_lt_compat_r; assumption).
    lra.
  - rewrite <- E. apply Qmult_le_compat_r; lra.
Qed.

Lemma pow2_mult_le (a b : Q) (e : Z) : a * pow2 e <= b <-> a <= b / pow2 e.
Proof.
  pose proof (pow2_pos e) as P. pose proof (scaled_eq b e) as E.
  split; intros H.
  - apply Qnot_lt_le. intros C.
    assert (b / pow2 e * pow2 e < a * pow2 e)
      by (apply Qmult_lt_compat_r; assumption).
    lra.
  - rewrite <- E. apply Qmult_le_compat_r; lra.
Qed.

(** A representable positive number is a whole number of its last
    places. *)
Lemma representable_scaled (y : Q) :
  0 < y -> round_positive y == y ->
  y / pow2 (ulp_exponent y)
  == inject_Z (nearest_even (y / pow2 (ulp_exponent y))).
Proof.
  intros Hy R. rewrite round_positive_eq in R.
  pose proof (pow2_pos (ulp_exponent y)) as P.
  set (p := pow2 (ulp_exponent y)) in *.
  set (k := inject_Z (nearest_even (y / p))) in *.
  rewrite <- R at 1. field. intros F. rewrite F in P.
  now apply Qlt_irrefl in P.
Qed.

Lemma round_positive_lower (x y : Q) :
  0 < y -> y <= x -> round_positive y == y -> y <= round_positive x.
Proof.
  intros Hy H R.
  assert (Hx : 0 < x) by (eapply Qlt_le_trans; eassumption).
  pose proof (ulp_exponent_mono y x Hy H) as He.
  rewrite round_positive_eq.
  set (ex := ulp_exponent x) in *. set (ey := ulp_exponent y) in *.
  pose proof (pow2_pos ex) as Px.
  destruct (Z.eq_dec ey ex) as [E | N].
  - pose proof (representable_scaled y Hy R) as S. fold ey in S.
    rewrite E in S. set (K := nearest_even (y / pow2 ex)) in *.
    assert (LK : (K <= nearest_even (x / pow2 ex))%Z).
    { apply nearest_even_lower. rewrite <- S.
      apply Qmult_le_compat_r; [exact H|].
      apply Qlt_le_weak, Qinv_lt_0_compat, Px. }
    rewrite Zle_Qle in LK.
    assert (Y : y == inject_Z K * pow2 ex).
    { rewrite <- S. symmetry. apply scaled_eq. }
    rewrite Y. apply Qmult_le_compat_r; [exact LK | lra].
  - assert (Hlt : (ey < ex)%Z) by lia.
    assert (Hm : (-1022 <= mag x)%Z /\ (mag y < mag x)%Z)
      by (unfold ex, ey, ulp_exponent in Hlt; lia).
    destruct Hm as [Hm1 Hm2].
    pose proof (scaled_lower x Hx Hm1) as SL. fold ex in SL.
    rewrite pow2_add in SL.
    assert (LK : (2 ^ 52 <= nearest_even (x / pow2 ex))%Z).
    { apply nearest_even_lower. rewrite <- pow2_inject by lia.
      apply (proj1 (pow2_mult_le (pow2 52) x ex)).
      rewrite Qmult_comm. exact SL. }
    rewrite Zle_Qle, <- pow2_inject in LK by lia.
    destruct (mag_spec y Hy) as [_ Uy].
    assert (pow2 (mag y + 1) <= pow2 (ex + 52)).
    { apply pow2_le. unfold ex, ulp_exponent. lia. }
    rewrite (pow2_add ex 52) in H0.
    assert (pow2 52 * pow2 ex
            <= inject_Z (nearest_even (x / pow2 ex)) * pow2 ex)
      by (apply Qmult_le_compat_r; lra).
    nra.
Qed.

Lemma round_positive_upper (x y : Q) :
  0 < x -> x <= y -> round_positive y == y -> round_positive x <= y.
Proof.
  intros Hx H R.
  assert (Hy : 0 < y) by (eapply Qlt_le_trans; eassumption).
  pose proof (ulp_exponent_mono x y Hx H) as He.
  rewrite round_positive_eq.
  set (ex := ulp_exponent x) in *. set (ey := ulp_exponent y) in *.
  pose proof (pow2_pos ex) as Px.
  destruct (Z.eq_dec ex ey) as [E | N].
  - pose proof (representable_scaled y Hy R) as S. fold ey in S.
    rewrite <- E in S. set (K := nearest_even (y / pow2 ex)) in *.
    assert (LK : (nearest_even (x / pow2 ex) <= K)%Z).
    { apply nearest_even_upper. rewrite <- S.
      apply Qmult_le_compat_r; [exact H|].
      apply Qlt_le_weak, Qinv_lt_0_compat, Px. }
    rewrite Zle_Qle in LK.
    assert (Y : y == inject_Z K * pow2 ex).
    { rewrite <- S. symmetry. apply scaled_eq. }
    rewrite Y. apply Qmult_le_compat_r; [exact LK | lra].
  - assert (Hlt : (ex < ey)%Z) by lia.
    assert (Hm : (-1022 <= mag y)%Z /\ (ex + 53 <= mag y)%Z)
      by (unfold ex, ey, ulp_exponent in *; lia).
    destruct Hm as [Hm1 Hm2].
    pose proof (scaled_upper x Hx) as SU. fold ex in SU.
    rewrite pow2_add in SU.
    assert (LK : (nearest_even (x / pow2 ex) <= 2 ^ 53)%Z).
    { apply nearest_even_upper. rewrite <- pow2_inject by lia.
      apply (proj1 (mult_pow2_le x (pow2 53) ex)).
      rewrite Qmult_comm. now apply Qlt_le_weak. }
    rewrite Zle_Qle, <- pow2_inject in LK by lia.
    destruct (mag_spec y Hy) as [Ly _].
    assert (pow2 (ex + 53) <= pow2 (mag y)) by now apply pow2_le.
    rewrite (pow2_add ex 53) in H0.
    assert (inject_Z (nearest_even (x / pow2 ex)) * pow2 ex
            <= pow2 53 * pow2 ex)
      by (apply Qmult_le_compat_r; lra).
    nra.
Qed.

(** *** Rounding *)

Lemma round_zero : round 0 = 0.
Proof. reflexivity. Qed.

Lemma round_pos (x : Q) : 0 < x -> round x = round_positive x.
Proof.
  intros H. unfold round.
  destruct (Qcompare_spec x 0) as [E | L | G]; [lra | lra | reflexivity].
Qed.

Lemma round_neg (x : Q) : x < 0 -> round x == - round_positive (- x).
Proof.
  intros H. unfold round.
  destruct (Qcompare_spec x 0) as [E | L | G]; [lra | | lra].
  apply Qred_correct.
Qed.

Lemma round_positive_nonneg (x : Q) : 0 < x -> 0 <= round_positive x.
Proof.
  intros Hx. rewrite round_positive_eq.
  pose proof (pow2_pos (ulp_exponent x)) as P.
  apply Qmult_le_0_compat; [|lra].
  change 0 with (inject_Z 0). rewrite <- Zle_Qle.
  apply nearest_even_lower. change (inject_Z 0) with 0.
  apply Qle_shift_div_l; [exact P | lra].
Qed.

(** Rounding keeps every representable bound. *)
Lemma round_lower (x y : Q) : representable y -> y <= x -> y <= round x.
Proof.
  unfold representable. intros R H.
  destruct (Qcompare_spec x 0) as [E | L | G].
  - unfold round. destruct (Qcompare_spec x 0); lra.
  - rewrite (round_neg x L).
    assert (Ly : y < 0) by lra.
    rewrite (round_neg y Ly) in R.
    assert (round_positive (- x) <= - y); [|lra].
    apply round_positive_upper; lra.
  - rewrite (round_pos x G).
    destruct (Qcompare_spec y 0) as [Ey | Ly | Gy].
    + pose proof (round_positive_nonneg x G). lra.
    + pose proof (round_positive_nonneg x G). lra.
    + rewrite (round_pos y Gy) in R. now apply round_positive_lower.
Qed.

Lemma round_upper (x y : Q) : representable y -> x <= y -> round x <= y.
Proof.
  unfold representable. intros R H.
  destruct (Qcompare_spec x 0) as [E | L | G].
  - unfold round. destruct (Qcompare_spec x 0); lra.
  - rewrite (round_neg x L).
    assert (Px : 0 < - x) by lra.
    destruct (Qcompare_spec y 0) as [Ey | Ly | Gy].
    + pose proof (round_positive_nonneg (- x) Px). lra.
    + rewrite (round_neg y Ly) in R.
      assert (- y <= round_positive (- x)); [|lra].
      apply round_positive_lower; lra.
    + pose proof (round_positive_nonneg (- x) Px). lra.
  - rewrite (round_pos x G).
    assert (Gy : 0 < y) by lra.
    rewrite (round_pos y Gy) in R. now apply round_positive_upper.
Qed.

(** The rounding error of a number of magnitude at most [2 ^ k]. *)
Lemma round_error (x : Q) (k : Z) :
  (-1022 <= k)%Z -> - pow2 k <= x <= pow2 k ->
  - pow2 (k - 53) <= round x - x <= pow2 (k - 53).
Proof.
  intros Hk [Lx Ux]. pose proof (pow2_pos (k - 53)) as P.
  assert (B : forall z : Q, 0 < z -> z <= pow2 k ->
              pow2 (ulp_exponent z) / 2 <= pow2 (k - 53)).
  { intros z Hz Uz.
    assert (M : (mag z <= k)%Z).
    { destruct (mag_spec z Hz) as [L _].
      assert (pow2 (mag z) < pow2 (k + 1)).
      { eapply Qle_lt_trans; [exact L|]. eapply Qle_lt_trans; [exact Uz|].
        apply pow2_lt. lia. }
      apply pow2_lt_inv in H. lia. }
    assert (E : (ulp_exponent z <= k - 52)%Z) by (unfold ulp_exponent; lia).
    apply pow2_le in E.
    pose proof (pow2_succ (k - 53)) as S.
    replace (k - 53 + 1)%Z with (k - 52)%Z in S by lia.
    unfold Qdiv. change (/ 2) with (1 # 2). lra. }
  destruct (Qcompare_spec x 0) as [E | L | G].
  - unfold round. destruct (Qcompare_spec x 0); lra.
  - rewrite (round_neg x L).
    pose proof (round_positive_error (- x) ltac:(lra)) as [A1 A2].
    pose proof (B (- x) ltac:(lra) ltac:(lra)).
    unfold Qdiv in *. change (/ 2) with (1 # 2) in *. lra.
  - rewrite (round_pos x G).
    pose proof (round_positive_error x G) as [A1 A2].
    pose proof (B x G Ux).
    unfold Qdiv in *. change (/ 2) with (1 # 2) in *. lra.
Qed.

(** Integers of at most 53 bits are floats. *)
Lemma representable_check (y : Q) :
  Qeq_bool (round y) y = true -> representable y.
Proof. intros H. now apply Qeq_bool_iff. Qed.

Lemma Qopp_opp (x : Q) : - - x = x.
Proof. destruct x as [n d]. unfold Qopp. cbn [Qnum Qden]. f_equal. lia. Qed.

Lemma round_opp (x : Q) : round (- x) == - round x.
Proof.
  destruct (Qcompare_spec x 0) as [E | L | G].
  - assert (E' : - x == 0) by lra.
    unfold round. destruct (Qcompare_spec x 0); [|lra|lra].
    destruct (Qcompare_spec (- x) 0); [|lra|lra]. reflexivity.
  - rewrite (round_neg x L), (round_pos (- x)) by lra. ring.
  - rewrite (round_pos x G), (round_neg (- x)) by lra.
    now rewrite Qopp_opp.
Qed.

Lemma representable_opp (y : Q) : representable y -> representable (- y).
Proof.
  unfold representable. intros R. now rewrite round_opp, R.
Qed.

(** A bounded result does not overflow. *)
Lemma pack_finite (x bound : Q) :
  representable bound -> bound < pow2 1024 -> - bound <= x <= bound ->
  pack x = Finite (round x) /\ - bound <= round x <= bound.
Proof.
  intros R B [L U].
  assert (Lr : - bound <= round x)
    by (apply round_lower; [now apply representable_opp | exact L]).
  assert (Ur : round x <= bound) by now apply round_upper.
  split; [|split; assumption].
  unfold pack. cbv zeta.
  destruct (Qle_bool (pow2 1024) (Qabs (round x))) eqn:E; [|reflexivity].
  apply Qle_bool_iff in E.
  assert (Qabs (round x) <= bound) by (apply Qabs_Qle_condition; now split).
  lra.
Qed.

End Rounding.

(** ** The rainbow interpolator in binary64 *)

Module Interpolator.
Import Binary64 Rounding Rainbow64.
Local Open Scope Q_scope.

Lemma int_opp (x : Q) : Py.int (- x) = (- Py.int x)%Z.
Proof.
  destruct x as [n d]. unfold Py.int. cbn [Qopp Qnum Qden].
  apply Z.quot_opp_l. lia.
Qed.

(** Truncation moves a number by less than one, toward zero. *)
Lemma int_truncates (x : Q) :
  -1 < x - inject_Z (Py.int x) /\ x - inject_Z (Py.int x) < 1 /\
  (0 <= x -> 0 <= x - inject_Z (Py.int x)) /\
  (x <= 0 -> x - inject_Z (Py.int x) <= 0).
Proof.
  destruct (Qlt_le_dec x 0) as [N | P].
  - assert (P : 0 <= - x) by lra.
    destruct (int_spec_nonneg (- x) P) as [L U].
    rewrite int_opp in L, U.
    rewrite inject_Z_plus, inject_Z_opp in U. rewrite inject_Z_opp in L.
    change (inject_Z 1) with 1 in U.
    split; [lra | split; [lra | split; intros; lra]].
  - destruct (int_spec_nonneg x P) as [L U].
    rewrite inject_Z_plus in U. change (inject_Z 1) with 1 in U.
    split; [lra | split; [lra | split; intros; [lra|]]].
    assert (Z0 : Py.int x = 0%Z).
    { apply Z.le_antisymm; change 0%Z with (Py.int 0); apply int_mono; lra. }
    rewrite Z0. change (inject_Z 0) with 0. lra.
Qed.

Lemma small_int_representable (n : Z) :
  (-1024 <= n <= 1024)%Z -> representable (inject_Z n).
Proof.
  intros H. apply representable_check.
  assert (A : forallb (fun k => Qeq_bool (round (inject_Z k)) (inject_Z k))
                      (range (-1024) 1025) = true)
    by (vm_compute; reflexivity).
  rewrite forallb_forall in A. apply A. apply in_range. lia.
Qed.

Lemma pow2_1024_large : inject_Z 1024 < pow2 1024.
Proof. vm_compute. reflexivity. Qed.

(** A result of magnitude at most [bound], an integer up to 1024, is a
    finite float. *)
Lemma pack_small (x : Q) (bound : Z) :
  (0 <= bound <= 1024)%Z ->
  - inject_Z bound <= x <= inject_Z bound ->
  pack x = Finite (round x) /\
  - inject_Z bound <= round x <= inject_Z bound.
Proof.
  intros Hb Hx. apply pack_finite; [| |exact Hx].
  - apply small_int_representable. lia.
  - eapply Qle_lt_trans; [|apply pow2_1024_large].
    rewrite <- Zle_Qle. lia.
Qed.

Lemma of_int_small (n : Z) :
  (-256 <= n <= 256)%Z ->
  of_int n = Finite (round (inject_Z n)) /\ round (inject_Z n) == inject_Z n.
Proof.
  intros H. split.
  - unfold of_int. apply (pack_small (inject_Z n) 256); [lia|].
    rewrite <- inject_Z_opp, <- !Zle_Qle. lia.
  - apply small_int_representable. lia.
Qed.

Ltac pow2_value k :=
  let v := eval vm_compute in (pow2 k) in
  change (pow2 k) with v in *.

(** The value [blend] truncates lies within [2 ^ -40] of the exact linear
    blend. *)
Lemma blend_value (c1 c2 : Z) (t : Q) :
  (0 <= c1 <= 255)%Z -> (0 <= c2 <= 255)%Z -> -1 <= t <= 1 ->
  exists v : Q,
    blend c1 c2 (Finite t) = Ok (Py.int v) /\
    - (1 # 1099511627776)
    <= v - (inject_Z c1 * (1 - t) + inject_Z c2 * t)
    <= 1 # 1099511627776.
Proof.
  intros H1 H2 [T0 T1]. unfold blend.
  destruct (of_int_small c1 ltac:(lia)) as [-> R1].
  destruct (of_int_small c2 ltac:(lia)) as [-> R2].
  destruct (of_int_small 1 ltac:(lia)) as [-> R0].
  change (inject_Z 1) with 1 in R0. change (inject_Z 1) with 1.
  assert (B1 : 0 <= inject_Z c1 <= 255).
  { change 0 with (inject_Z 0). change 255 with (inject_Z 255).
    rewrite <- !Zle_Qle. lia. }
  assert (B2 : 0 <= inject_Z c2 <= 255).
  { change 0 with (inject_Z 0). change 255 with (inject_Z 255).
    rewrite <- !Zle_Qle. lia. }
  set (C1 := round (inject_Z c1)) in *. set (C2 := round (inject_Z c2)) in *.
  set (one := round 1) in *.
  cbn [sub neg add mul].
  (* 1 - ratio *)
  assert (X1 : - inject_Z 2 <= one + - t <= inject_Z 2)
    by (change (inject_Z 2) with 2; lra).
  destruct (pack_small _ 2 ltac:(lia) X1) as [-> A1].
  assert (E1 := round_error (one + - t) 1 ltac:(lia)).
  pow2_value 1%Z. pow2_value (1 - 53)%Z.
  change (inject_Z 2) with 2 in *.
  specialize (E1 ltac:(lra)).
  set (a := round (one + - t)) in *.
  (* c1 * (1 - ratio) *)
  cbn [sub neg add mul].
  assert (X2 : - inject_Z 512 <= C1 * a <= inject_Z 512)
    by (change (inject_Z 512) with 512; nra).
  destruct (pack_small _ 512 ltac:(lia) X2) as [-> A2].
  assert (E2 := round_error (C1 * a) 9 ltac:(lia)).
  pow2_value 9%Z. pow2_value (9 - 53)%Z.
  change (inject_Z 512) with 512 in *.
  specialize (E2 ltac:(lra)).
  set (A := round (C1 * a)) in *.
  (* c2 * ratio *)
  cbn [sub neg add mul].
  assert (X3 : - inject_Z 256 <= C2 * t <= inject_Z 256)
    by (change (inject_Z 256) with 256; nra).
  destruct (pack_small _ 256 ltac:(lia) X3) as [-> A3].
  assert (E3 := round_error (C2 * t) 8 ltac:(lia)).
  pow2_value 8%Z. pow2_value (8 - 53)%Z.
  change (inject_Z 256) with 256 in *.
  specialize (E3 ltac:(lra)).
  set (B := round (C2 * t)) in *.
  (* the sum *)
  cbn [sub neg add mul].
  assert (X4 : - inject_Z 1024 <= A + B <= inject_Z 1024)
    by (change (inject_Z 1024) with 1024; lra).
  destruct (pack_small _ 1024 ltac:(lia) X4) as [-> A4].
  assert (E4 := round_error (A + B) 10 ltac:(lia)).
  pow2_value 10%Z. pow2_value (10 - 53)%Z.
  change (inject_Z 1024) with 1024 in *.
  specialize (E4 ltac:(lra)).
  set (v := round (A + B)) in *.
  exists v. split; [reflexivity|].
  assert (D : - (255 # 4503599627370496)
              <= C1 * (a - (one + - t)) <= 255 # 4503599627370496) by nra.
  split; nra.
Qed.

(** *** The palette *)

Lemma getitem_colors (idx : Z) :
  (-7 <= idx <= 6)%Z -> getitem colors idx = Ok (anchor (idx mod 7)).
Proof.
  intros H. assert (C : In idx (range (-7) 7)) by (apply in_range; lia).
  vm_compute in C.
  repeat (destruct C as [<- | C]; [reflexivity|]). destruct C.
Qed.

Lemma getitem_colors_below (idx : Z) :
  (idx <= -8)%Z -> getitem colors idx = Raise IndexError.
Proof.
  intros H. unfold getitem. change (Z.of_nat (length colors)) with 7%Z.
  cbv zeta. destruct (idx <? 0)%Z eqn:E0; [|lia].
  destruct (0 <=? idx + 7)%Z eqn:E1; [lia|]. reflexivity.
Qed.

Lemma anchor_bytes (k : Z) :
  (0 <= chan_r (anchor k) <= 255)%Z /\ (0 <= chan_g (anchor k) <= 255)%Z /\
  (0 <= chan_b (anchor k) <= 255)%Z.
Proof.
  unfold anchor.
  do 8 (destruct (Z.to_nat k) as [|n]; [cbn; lia|]; clear k;
        set (k := Z.of_nat n); replace n with (Z.to_nat k) by (unfold k; lia);
        clearbody k; clear n).
  destruct (Z.to_nat k); cbn; lia.
Qed.

(** *** Evaluating [get_rainbow_color] *)

Lemma of_int_six : of_int (Z.of_nat (length colors) - 1) = Finite 6.
Proof. vm_compute. reflexivity. Qed.

Lemma scaled_pos_overflow (p : Q) :
  pow2 1024 <= Qabs (round (p * 6)) ->
  get_rainbow_color (Finite p) = Raise OverflowError.
Proof.
  intros H. unfold get_rainbow_color. cbv zeta. rewrite of_int_six.
  cbn [mul]. unfold pack. cbv zeta.
  apply Qle_bool_iff in H. rewrite H. reflexivity.
Qed.

Lemma scaled_pos_finite (p : Q) :
  Qabs (round (p * 6)) < pow2 1024 ->
  mul (Finite p) (of_int (Z.of_nat (length colors) - 1))
  = Finite (round (p * 6)).
Proof.
  intros H. rewrite of_int_six. cbn [mul]. unfold pack. cbv zeta.
  destruct (Qle_bool (pow2 1024) (Qabs (round (p * 6)))) eqn:E;
    [|reflexivity].
  apply Qle_bool_iff in E. lra.
Qed.

Lemma get_rainbow_color_clamped64 (p : Q) :
  Qabs (round (p * 6)) < pow2 1024 ->
  (6 <= Py.int (round (p * 6)))%Z ->
  get_rainbow_color (Finite p) = Ok last_anchor.
Proof.
  intros F H. unfold get_rainbow_color. cbv zeta.
  rewrite (scaled_pos_finite p F). cbn [int rbind].
  change (Z.of_nat (length colors) - 1)%Z with 6%Z.
  destruct (Py.int (round (p * 6)) >=? 6)%Z eqn:E; [reflexivity | lia].
Qed.

Lemma get_rainbow_color_below (p : Q) :
  Qabs (round (p * 6)) < pow2 1024 ->
  (Py.int (round (p * 6)) <= -8)%Z ->
  get_rainbow_color (Finite p) = Raise IndexError.
Proof.
  intros F H. unfold get_rainbow_color. cbv zeta.
  rewrite (scaled_pos_finite p F). cbn [int rbind].
  change (Z.of_nat (length colors) - 1)%Z with 6%Z.
  destruct (Py.int (round (p * 6)) >=? 6)%Z eqn:E; [lia|].
  now rewrite getitem_colors_below.
Qed.

(** A bounded index means a finite product. *)
Lemma index_bounds_product (s : Q) :
  (-7 <= Py.int s <= 5)%Z -> -8 <= s <= 8 /\ Qabs s < pow2 1024.
Proof.
  intros H. destruct (int_truncates s) as [L [U _]].
  assert (B : - inject_Z 7 <= inject_Z (Py.int s) <= inject_Z 5)
    by (rewrite <- inject_Z_opp, <- !Zle_Qle; lia).
  change (inject_Z 7) with 7 in B. change (inject_Z 5) with 5 in B.
  assert (R : -8 <= s <= 8) by lra. split; [exact R|].
  apply Qle_lt_trans with 8.
  - apply Qabs_Qle_condition. lra.
  - vm_compute. reflexivity.
Qed.

Lemma weight_bounds (s : Q) :
  (-7 <= Py.int s <= 5)%Z ->
  sub (Finite s) (of_int (Py.int s)) = Finite (weight s) /\
  -1 <= weight s <= 1 /\
  (0 <= s -> 0 <= weight s) /\ (s <= 0 -> weight s <= 0) /\
  - (1 # 9007199254740992)
  <= weight s - (s - inject_Z (Py.int s)) <= 1 # 9007199254740992.
Proof.
  intros H. unfold weight.
  destruct (of_int_small (Py.int s) ltac:(lia)) as [E R].
  destruct (int_truncates s) as [L [U [P N]]].
  set (k := Py.int s) in *. set (K := round (inject_Z k)) in *.
  assert (X : - inject_Z 1 <= s + - K <= inject_Z 1)
    by (change (inject_Z 1) with 1; lra).
  destruct (pack_small _ 1 ltac:(lia) X) as [Ep B].
  change (inject_Z 1) with 1 in *.
  split; [unfold sub; rewrite E; cbn [neg add]; exact Ep|].
  split; [exact B|].
  assert (Z0 : representable 0) by reflexivity.
  split; [|split].
  - intros Hs. apply round_lower; [exact Z0 | specialize (P Hs); lra].
  - intros Hs. apply round_upper; [exact Z0 | specialize (N Hs); lra].
  - assert (Er := round_error (s + - K) 0 ltac:(lia)).
    pow2_value 0%Z. pow2_value (0 - 53)%Z.
    specialize (Er ltac:(lra)). lra.
Qed.

(** Between the clamp and the palette's lower end every channel is the
    truncation of a value within [2 ^ -40] of the linear blend of the two
    anchors on either side of the index. *)
Lemma get_rainbow_color_blend (p : Q) (k : Z) :
  Py.int (round (p * 6)) = k -> (-7 <= k <= 5)%Z ->
  let t := weight (round (p * 6)) in
  let c1 := anchor (k mod 7) in
  let c2 := anchor ((k + 1) mod 7) in
  exists vr vg vb : Q,
    get_rainbow_color (Finite p) = Ok (Py.int vr, Py.int vg, Py.int vb) /\
    (- (1 # 1099511627776)
     <= vr - (inject_Z (chan_r c1) * (1 - t) + inject_Z (chan_r c2) * t)
     <= 1 # 1099511627776) /\
    (- (1 # 1099511627776)
     <= vg - (inject_Z (chan_g c1) * (1 - t) + inject_Z (chan_g c2) * t)
     <= 1 # 1099511627776) /\
    (- (1 # 1099511627776)
     <= vb - (inject_Z (chan_b c1) * (1 - t) + inject_Z (chan_b c2) * t)
     <= 1 # 1099511627776).
Proof.
  intros Ek Hk t c1 c2.
  assert (Hk' : (-7 <= Py.int (round (p * 6)) <= 5)%Z) by (rewrite Ek; lia).
  destruct (index_bounds_product _ Hk') as [_ F].
  destruct (weight_bounds _ Hk') as [Ew [Bw _]]. fold t in Ew, Bw.
  destruct (anchor_bytes (k mod 7)) as [R1 [G1 B1]].
  destruct (anchor_bytes ((k + 1) mod 7)) as [R2 [G2 B2]].
  fold c1 in R1, G1, B1. fold c2 in R2, G2, B2.
  destruct (blend_value _ _ t R1 R2 Bw) as [vr [Er Br]].
  destruct (blend_value _ _ t G1 G2 Bw) as [vg [Eg Bg]].
  destruct (blend_value _ _ t B1 B2 Bw) as [vb [Eb Bb]].
  exists vr, vg, vb. split; [|split; [exact Br | split; [exact Bg | exact Bb]]].
  unfold get_rainbow_color. cbv zeta.
  rewrite (scaled_pos_finite p F). cbn [int rbind].
  change (Z.of_nat (length colors) - 1)%Z with 6%Z.
  destruct (Py.int (round (p * 6)) >=? 6)%Z eqn:E; [lia|].
  rewrite Ew, Ek.
  rewrite (getitem_colors k) by lia. cbn [rbind].
  rewrite (getitem_colors (k + 1)) by lia. cbn [rbind].
  fold c1 c2. rewrite Er, Eg, Eb. reflexivity.
Qed.

End Interpolator.

Module InterpolatorRange.
Import Binary64 Rounding Rainbow64 Interpolator.
Local Open Scope Q_scope.

Lemma round_of_zero (x : Q) : x == 0 -> round x = 0.
Proof.
  intros E. unfold round.
  destruct (Qcompare_spec x 0) as [_ | L | G]; [reflexivity | lra | lra].
Qed.

(** Truncating a value within a half of the range [0, 255]. *)
Lemma channel_byte (v : Q) :
  - (1 # 2) <= v <= 255 + (1 # 2) -> (0 <= Py.int v <= 255)%Z.
Proof.
  intros [L U]. split.
  - assert (A : (-1 < Py.int v)%Z).
    { apply int_above; [lia|]. change (inject_Z (-1)) with (-1 # 1). lra. }
    lia.
  - exact (int_mono v (511 # 2) ltac:(lra)).
Qed.

(** The product [position * 6] of a position in [lo, hi], both integers
    over six. *)
Lemma scaled_pos_bounds (p : Q) (lo hi : Z) :
  (-1024 <= lo)%Z -> (hi <= 1024)%Z ->
  inject_Z lo <= p * 6 <= inject_Z hi ->
  inject_Z lo <= round (p * 6) <= inject_Z hi.
Proof.
  intros Hl Hh [L U].
  assert (lo <= hi)%Z by (rewrite Zle_Qle; lra).
  split.
  - apply round_lower; [apply small_int_representable; lia | exact L].
  - apply round_upper; [apply small_int_representable; lia | exact U].
Qed.

Lemma finite_below (s : Q) (bound : Z) :
  (0 <= bound <= 1024)%Z -> - inject_Z bound <= s <= inject_Z bound ->
  Qabs s < pow2 1024.
Proof.
  intros Hb Hs. apply Qle_lt_trans with (inject_Z bound).
  - now apply Qabs_Qle_condition.
  - eapply Qle_lt_trans; [|apply pow2_1024_large]. rewrite <- Zle_Qle. lia.
Qed.

(** On a position from 0 to 1 the interpolator returns a colour whose
    channels are bytes. *)
Lemma unit_position_bytes (p : Q) :
  0 <= p -> p <= 1 ->
  exists r g b : Z,
    get_rainbow_color (Finite p) = Ok (r, g, b) /\
    (0 <= r <= 255)%Z /\ (0 <= g <= 255)%Z /\ (0 <= b <= 255)%Z.
Proof.
  intros H0 H1.
  assert (S : inject_Z 0 <= round (p * 6) <= inject_Z 6).
  { apply scaled_pos_bounds; [lia | lia |].
    change (inject_Z 0) with 0. change (inject_Z 6) with 6. lra. }
  pose proof (int_between 0 6 _ (proj1 S) (proj2 S)) as I.
  assert (F : Qabs (round (p * 6)) < pow2 1024).
  { apply (finite_below _ 6); [lia|].
    change (inject_Z 0) with 0 in S. change (inject_Z 6) with 6 in *. lra. }
  destruct (Z.eq_dec (Py.int (round (p * 6))) 6) as [E6 | N6].
  - rewrite (get_rainbow_color_clamped64 p F) by lia.
    exists 148%Z, 0%Z, 211%Z. split; [reflexivity | lia].
  - set (k := Py.int (round (p * 6))) in *.
    assert (Hk : (-7 <= k <= 5)%Z) by lia.
    destruct (get_rainbow_color_blend p k eq_refl Hk)
      as [vr [vg [vb [E [Br [Bg Bb]]]]]].
    destruct (weight_bounds (round (p * 6)) Hk) as [_ [[_ T1] [T0 _]]].
    change (inject_Z 0) with 0 in S. specialize (T0 (proj1 S)).
    set (t := weight (round (p * 6))) in *.
    destruct (anchor_bytes (k mod 7)) as [R1 [G1 B1]].
    destruct (anchor_bytes ((k + 1) mod 7)) as [R2 [G2 B2]].
    exists (Py.int vr), (Py.int vg), (Py.int vb). split; [exact E|].
    assert (Q : forall c : Z, (0 <= c <= 255)%Z -> 0 <= inject_Z c <= 255).
    { intros c Hc. change 0 with (inject_Z 0). change 255 with (inject_Z 255).
      rewrite <- !Zle_Qle. lia. }
    apply Q in R1, G1, B1, R2, G2, B2.
    split; [|split]; apply channel_byte; split; nra.
Qed.

End InterpolatorRange.

Module InterpolatorEnds.
Import Binary64 Rounding Rainbow64 Interpolator InterpolatorRange.
Local Open Scope Q_scope.

Lemma first_position : get_rainbow_color (Finite 0) = Ok first_anchor.
Proof. vm_compute. reflexivity. Qed.

Lemma infinite_position (negative : bool) :
  get_rainbow_color (Infinity negative) = Raise OverflowError.
Proof. destruct negative; vm_compute; reflexivity. Qed.

Lemma six_representable : representable 6.
Proof. apply (small_int_representable 6). lia. Qed.

(** From position 1 on the index is at least 6. *)
Lemma clamped_index (p : Q) : 1 <= p -> (6 <= Py.int (round (p * 6)))%Z.
Proof.
  intros H.
  assert (L : 6 <= round (p * 6))
    by (apply round_lower; [exact six_representable | lra]).
  exact (int_mono 6 _ L).
Qed.

Lemma from_one (p : Q) :
  1 <= p ->
  (Qabs (round (p * 6)) < pow2 1024 ->
   get_rainbow_color (Finite p) = Ok last_anchor) /\
  (pow2 1024 <= Qabs (round (p * 6)) ->
   get_rainbow_color (Finite p) = Raise OverflowError).
Proof.
  intros H. split.
  - intros F. apply get_rainbow_color_clamped64; [exact F|].
    now apply clamped_index.
  - apply scaled_pos_overflow.
Qed.

Lemma largest_product_representable : representable (3 * pow2 1022).
Proof. apply representable_check. vm_compute. reflexivity. Qed.

Lemma from_one_finite (p : Q) :
  1 <= p -> p <= pow2 1021 -> get_rainbow_color (Finite p) = Ok last_anchor.
Proof.
  intros H U. apply (proj1 (from_one p H)).
  assert (E : pow2 1021 * 6 == 3 * pow2 1022) by (vm_compute; reflexivity).
  assert (B : 3 * pow2 1022 < pow2 1024) by (vm_compute; reflexivity).
  assert (Up : round (p * 6) <= 3 * pow2 1022).
  { apply round_upper; [exact largest_product_representable | lra]. }
  assert (Lo : 6 <= round (p * 6)).
  { apply round_lower; [exact six_representable | lra]. }
  apply Qle_lt_trans with (3 * pow2 1022); [|exact B].
  apply Qabs_Qle_condition. split; lra.
Qed.

(** Strictly between the anchors [k] and [k + 1]. *)
Lemma between_anchors (p : Q) (k : Z) :
  (0 <= k < 6)%Z -> inject_Z k / 6 < p -> p < inject_Z (k + 1) / 6 ->
  exists t vr vg vb : Q,
    0 <= t <= 1 /\
    - (1 # 562949953421312) <= t - (p * 6 - inject_Z k)
    <= 1 # 562949953421312 /\
    get_rainbow_color (Finite p) = Ok (Py.int vr, Py.int vg, Py.int vb) /\
    (- (1 # 1099511627776)
     <= vr - (inject_Z (chan_r (anchor k)) * (1 - t)
              + inject_Z (chan_r (anchor (k + 1))) * t)
     <= 1 # 1099511627776) /\
    (- (1 # 1099511627776)
     <= vg - (inject_Z (chan_g (anchor k)) * (1 - t)
              + inject_Z (chan_g (anchor (k + 1))) * t)
     <= 1 # 1099511627776) /\
    (- (1 # 1099511627776)
     <= vb - (inject_Z (chan_b (anchor k)) * (1 - t)
              + inject_Z (chan_b (anchor (k + 1))) * t)
     <= 1 # 1099511627776).
Proof.
  intros Hk H1 H2.
  unfold Qdiv in H1, H2. change (/ 6) with (1 # 6) in H1, H2.
  rewrite inject_Z_plus in H2. change (inject_Z 1) with 1 in H2.
  assert (K : 0 <= inject_Z k <= 5).
  { change 0 with (inject_Z 0). change 5 with (inject_Z 5).
    rewrite <- !Zle_Qle. lia. }
  assert (S : inject_Z k <= round (p * 6) <= inject_Z (k + 1)).
  { apply scaled_pos_bounds; [lia | lia |].
    rewrite inject_Z_plus. change (inject_Z 1) with 1. lra. }
  rewrite inject_Z_plus in S. change (inject_Z 1) with 1 in S.
  assert (Er := round_error (p * 6) 3 ltac:(lia)).
  pow2_value 3%Z. pow2_value (3 - 53)%Z.
  specialize (Er ltac:(lra)).
  set (s := round (p * 6)) in *.
  destruct (Qlt_le_dec s (inject_Z k + 1)) as [Lt | Ge].
  - (* the index is k *)
    assert (Ek : Py.int s = k).
    { apply int_unique; [lia | lra |].
      rewrite inject_Z_plus. change (inject_Z 1) with 1. exact Lt. }
    assert (Hk' : (-7 <= Py.int s <= 5)%Z) by lia.
    destruct (get_rainbow_color_blend p k Ek ltac:(lia))
      as [vr [vg [vb [E [Br [Bg Bb]]]]]].
    fold s in Br, Bg, Bb.
    destruct (weight_bounds s Hk') as [_ [[_ T1] [T0 [_ Et]]]].
    rewrite Ek in Et. specialize (T0 ltac:(lra)).
    rewrite (Z.mod_small k 7) in Br, Bg, Bb by lia.
    rewrite (Z.mod_small (k + 1) 7) in Br, Bg, Bb by lia.
    exists (weight s), vr, vg, vb.
    split; [split; assumption|]. split; [split; lra|].
    split; [exact E|]. split; [exact Br|]. split; [exact Bg | exact Bb].
  - (* the product was rounded up to k + 1 *)
    assert (Es : s == inject_Z (k + 1)).
    { rewrite inject_Z_plus. change (inject_Z 1) with 1. lra. }
    assert (Ek : Py.int s = (k + 1)%Z).
    { rewrite (int_compat _ _ Es). apply int_inject_Z. }
    exists 1.
    destruct (Z.eq_dec k 5) as [-> | N5].
    + exists (inject_Z 148), (inject_Z 0), (inject_Z 211).
      split; [lra|]. split; [change (inject_Z 5) with 5 in *; split; lra|].
      split.
      * rewrite get_rainbow_color_clamped64;
          [reflexivity | | fold s; rewrite Ek; lia].
        fold s. apply (finite_below _ 6); [lia|].
        change (inject_Z 6) with 6. change (inject_Z 5) with 5 in *. lra.
      * vm_compute. repeat split; discriminate.
    + assert (Hk' : (-7 <= Py.int s <= 5)%Z) by lia.
      destruct (get_rainbow_color_blend p (k + 1) Ek ltac:(lia))
        as [vr [vg [vb [E [Br [Bg Bb]]]]]].
      fold s in Br, Bg, Bb.
      assert (W : weight s = 0).
      { unfold weight. apply round_of_zero. rewrite Ek.
        destruct (of_int_small (k + 1) ltac:(lia)) as [_ R]. rewrite R. lra. }
      rewrite W in Br, Bg, Bb.
      rewrite (Z.mod_small (k + 1) 7) in Br, Bg, Bb by lia.
      exists vr, vg, vb.
      split; [lra|]. split; [split; lra|].
      split; [exact E|]. split; [|split]; split; lra.
Qed.

End InterpolatorEnds.

Module InterpolatorBelow.
Import Binary64 Rounding Rainbow64 Interpolator InterpolatorRange.
Local Open Scope Q_scope.

(** From index -7 on a colour is returned. *)
Lemma returns_from_minus_seven (p : Q) :
  Qabs (round (p * 6)) < pow2 1024 -> (-7 <= Py.int (round (p * 6)))%Z ->
  exists c : rgb, get_rainbow_color (Finite p) = Ok c.
Proof.
  intros F H. destruct (Z_le_gt_dec 6 (Py.int (round (p * 6)))) as [G | L].
  - exists last_anchor. now apply get_rainbow_color_clamped64.
  - destruct (get_rainbow_color_blend p _ eq_refl ltac:(lia))
      as [vr [vg [vb [E _]]]].
    eexists. exact E.
Qed.

Lemma raises_index_error_iff (p : Q) :
  get_rainbow_color (Finite p) = Raise IndexError <->
  Qabs (round (p * 6)) < pow2 1024 /\ (Py.int (round (p * 6)) <= -8)%Z.
Proof.
  split.
  - intros E. destruct (Qlt_le_dec (Qabs (round (p * 6))) (pow2 1024))
      as [F | O].
    + split; [exact F|].
      destruct (Z_le_gt_dec (Py.int (round (p * 6))) (-8)) as [L | G];
        [exact L|].
      destruct (returns_from_minus_seven p F ltac:(lia)) as [c Ec].
      rewrite Ec in E. discriminate.
    + rewrite (scaled_pos_overflow p O) in E. discriminate.
  - intros [F L]. now apply get_rainbow_color_below.
Qed.

Lemma index_at_most (p : Q) (n : Z) :
  (-1024 <= n <= 1024)%Z -> p * 6 <= inject_Z n ->
  (Py.int (round (p * 6)) <= n)%Z.
Proof.
  intros Hn H.
  assert (U : round (p * 6) <= inject_Z n)
    by (apply round_upper; [now apply small_int_representable | exact H]).
  apply int_mono in U. now rewrite int_inject_Z in U.
Qed.

Lemma index_at_least (p : Q) (n : Z) :
  (-1024 <= n <= 1024)%Z -> inject_Z n <= p * 6 ->
  (n <= Py.int (round (p * 6)))%Z.
Proof.
  intros Hn H.
  assert (U : inject_Z n <= round (p * 6))
    by (apply round_lower; [now apply small_int_representable | exact H]).
  apply int_mono in U. now rewrite int_inject_Z in U.
Qed.

(** Just below zero: the index is 0 and the weight is negative. *)
Lemma just_below_zero (p : Q) :
  p < 0 -> -1 < round (p * 6) ->
  exists r g : Z,
    get_rainbow_color (Finite p) = Ok (r, g, 0%Z) /\
    (254 <= r <= 255)%Z /\ (-127 <= g <= 0)%Z /\
    (p <= - (1 # 512) -> (g < 0)%Z).
Proof.
  intros Hp Hs.
  assert (Z0 : representable 0) by reflexivity.
  assert (S0 : round (p * 6) <= 0) by (apply round_upper; [exact Z0 | lra]).
  assert (Ek : Py.int (round (p * 6)) = 0%Z)
    by (apply int_small_negative; assumption).
  destruct (get_rainbow_color_blend p 0 Ek ltac:(lia))
    as [vr [vg [vb [E [Br [Bg Bb]]]]]].
  assert (Hk : (-7 <= Py.int (round (p * 6)) <= 5)%Z) by lia.
  destruct (weight_bounds _ Hk) as [_ [[T0 _] [_ [T1 _]]]].
  specialize (T1 S0).
  assert (W : p <= - (1 # 512) -> weight (round (p * 6)) <= - (3 # 256)).
  { intros Hlow. unfold weight. rewrite Ek.
    change (round (inject_Z 0)) with 0.
    assert (R : representable (- (3 # 256)))
      by (apply representable_check; vm_compute; reflexivity).
    assert (S1 : round (p * 6) <= - (3 # 256))
      by (apply round_upper; [exact R | lra]).
    apply round_upper; [exact R | lra]. }
  set (t := weight (round (p * 6))) in *.
  change (chan_r (anchor (0 mod 7))) with 255%Z in Br.
  change (chan_r (anchor ((0 + 1) mod 7))) with 255%Z in Br.
  change (chan_g (anchor (0 mod 7))) with 0%Z in Bg.
  change (chan_g (anchor ((0 + 1) mod 7))) with 127%Z in Bg.
  change (chan_b (anchor (0 mod 7))) with 0%Z in Bb.
  change (chan_b (anchor ((0 + 1) mod 7))) with 0%Z in Bb.
  change (inject_Z 255) with 255 in Br.
  change (inject_Z 0) with 0 in Bg, Bb. change (inject_Z 127) with 127 in Bg.
  exists (Py.int vr), (Py.int vg).
  assert (Eb : Py.int vb = 0%Z).
  { apply Z.le_antisymm.
    - exact (int_mono vb (1 # 2) ltac:(lra)).
    - exact (int_mono (- (1 # 2)) vb ltac:(lra)). }
  rewrite Eb in E. split; [exact E|].
  split; [|split].
  - split.
    + exact (int_mono 254 vr ltac:(lra)).
    + exact (int_mono vr (511 # 2) ltac:(lra)).
  - split.
    + exact (int_mono (- (255 # 2)) vg ltac:(lra)).
    + exact (int_mono vg (1 # 2) ltac:(lra)).
  - intros Hlow. specialize (W Hlow).
    assert (L : (Py.int vg <= -1)%Z)
      by exact (int_mono vg (-1 # 1) ltac:(lra)).
    lia.
Qed.

(** The positions the stroke loop passes. *)
Lemma true_div_unit (i n : Z) :
  (0 <= i < n)%Z ->
  true_div i n = Ok (Finite (round (inject_Z i / inject_Z n))) /\
  0 <= round (inject_Z i / inject_Z n) <= 1.
Proof.
  intros H. unfold true_div.
  destruct (n =? 0)%Z eqn:E; [lia|].
  assert (Pn : 0 < inject_Z n)
    by (change 0 with (inject_Z 0); rewrite <- Zlt_Qlt; lia).
  assert (Li : 0 <= inject_Z i)
    by (change 0 with (inject_Z 0); rewrite <- Zle_Qle; lia).
  assert (Ui : inject_Z i <= inject_Z n) by (rewrite <- Zle_Qle; lia).
  assert (Q0 : 0 <= inject_Z i / inject_Z n)
    by (apply Qle_shift_div_l; [exact Pn | lra]).
  assert (Q1 : inject_Z i / inject_Z n <= 1)
    by (apply Qle_shift_div_r; [exact Pn | lra]).
  destruct (pack_small (inject_Z i / inject_Z n) 1 ltac:(lia)) as [-> B].
  { change (inject_Z 1) with 1. lra. }
  change (inject_Z 1) with 1 in B.
  split; [reflexivity|]. split; [|lra].
  apply round_lower; [reflexivity | exact Q0].
Qed.

End InterpolatorBelow.

(** ** Main results *)

(** C1 (refuted at size 20).  The claim says that composing the pattern icon
    at size 20 completes and that every drawing step is well defined there.
    Size 20 is in the table of [main], but in the glow loop the radius
    [size // 2 - i * 5] is [-5] at [i = 3]: the bounding box handed to
    [ellipse] is [15, 15, 5, 5], its right edge left of its left edge, and
    the call raises ValueError.  [create_icon 20] stops there, with seven
    canvases allocated and no image returned. *)
Theorem create_icon_size_20_raises
        (math_radians : Z -> Q) (math_cos math_sin : Q -> Q) :
  In 20 PipelineA.sizes /\
  PipelineA.glow_radius 20 3 = -5 /\
  (forall (glow_overlay : Image) (log : list canvas),
      PipelineA.glow_step 20 glow_overlay 3 log = (log, Raise ValueError)) /\
  PipelineA.create_icon math_radians math_cos math_sin 20 []
  = (PipelineA.log_before_glow 20, Raise ValueError).
Proof.
  split; [simpl; tauto|]. split; [reflexivity|]. split; [reflexivity|].
  apply PatternIcon.create_icon_fails_below_190. lia.
Qed.

(** C2 (counterexample).  The double 5/8 lies strictly between the anchors
    green (0, 255, 0) at 3/6 and blue (0, 127, 255) at 4/6.  The result is
    (0, 159, 191): green asks for the weight 3/4 and blue for 191/255, so no
    single weight gives both channels and the colour is not a convex
    combination of the two anchors.  And the double 1e308 is at least 1,
    but its product with 6 is infinite and [int] raises OverflowError
    instead of returning the last anchor. *)
Lemma rainbow_blend_not_convex :
  (inject_Z 3 / 6 < 5 # 8)%Q /\ (5 # 8 < inject_Z 4 / 6)%Q /\
  Binary64.representable (5 # 8) /\
  Rainbow64.get_rainbow_color (Binary64.Finite (5 # 8)) = Ok (0, 159, 191) /\
  ~ convex_combination (0, 159, 191) (anchor 3) (anchor 4) /\
  (1 <= Binary64.round (inject_Z (10 ^ 308)))%Q /\
  Rainbow64.get_rainbow_color
    (Binary64.Finite (Binary64.round (inject_Z (10 ^ 308))))
  = Raise OverflowError.
Proof.
  split; [reflexivity|]. split; [reflexivity|].
  split; [vm_compute; reflexivity|]. split; [vm_compute; reflexivity|].
  split.
  - intros [lam [H0 [H1 [_ [Hg Hb]]]]].
    change (inject_Z (chan_g (0, 159, 191))) with 159%Q in Hg.
    change (inject_Z (chan_b (0, 159, 191))) with 191%Q in Hb.
    change (inject_Z (chan_g (anchor 3))) with 255%Q in Hg.
    change (inject_Z (chan_g (anchor 4))) with 127%Q in Hg.
    change (inject_Z (chan_b (anchor 3))) with 0%Q in Hb.
    change (inject_Z (chan_b (anchor 4))) with 255%Q in Hb.
    lra.
  - split; vm_compute; [discriminate | reflexivity].
Qed.

(** C2 (amended).  In binary64: [get_rainbow_color(0.0)] is the first
    anchor (255, 0, 0).  For a position of at least 1 the result is the
    last anchor (148, 0, 211) as long as the product [position * 6] is
    finite, which it is up to [2 ^ 1021]; when the product is infinite
    (also for the position [inf]) the call raises OverflowError.  For a
    position strictly between the anchors [k] and [k + 1] (between [k / 6]
    and [(k + 1) / 6]) each channel of the result is [int(v)] for a double
    [v] within [2 ^ -40] of the linear blend [c1 * (1 - t) + c2 * t] of
    exactly those two anchors, with a weight [t] from 0 to 1 that is
    within [2 ^ -49] of [6 p - k]. *)
Theorem rainbow_anchors_and_blend :
  Rainbow64.get_rainbow_color (Binary64.Finite 0) = Ok first_anchor /\
  (forall p : Q, (1 <= p)%Q ->
     ((Qabs (Binary64.round (p * 6)) < Binary64.pow2 1024)%Q ->
      Rainbow64.get_rainbow_color (Binary64.Finite p) = Ok last_anchor) /\
     ((Binary64.pow2 1024 <= Qabs (Binary64.round (p * 6)))%Q ->
      Rainbow64.get_rainbow_color (Binary64.Finite p)
      = Raise OverflowError) /\
     ((p <= Binary64.pow2 1021)%Q ->
      Rainbow64.get_rainbow_color (Binary64.Finite p) = Ok last_anchor)) /\
  Rainbow64.get_rainbow_color (Binary64.Infinity false)
  = Raise OverflowError /\
  (forall (p : Q) (k : Z),
      0 <= k < 6 ->
      (inject_Z k / 6 < p)%Q -> (p < inject_Z (k + 1) / 6)%Q ->
      exists t vr vg vb : Q,
        (0 <= t <= 1)%Q /\
        (- (1 # 562949953421312) <= t - (p * 6 - inject_Z k)
         <= 1 # 562949953421312)%Q /\
        Rainbow64.get_rainbow_color (Binary64.Finite p)
        = Ok (int vr, int vg, int vb) /\
        (- (1 # 1099511627776)
         <= vr - (inject_Z (chan_r (anchor k)) * (1 - t)
                  + inject_Z (chan_r (anchor (k + 1))) * t)
         <= 1 # 1099511627776)%Q /\
        (- (1 # 1099511627776)
         <= vg - (inject_Z (chan_g (anchor k)) * (1 - t)
                  + inject_Z (chan_g (anchor (k + 1))) * t)
         <= 1 # 1099511627776)%Q /\
        (- (1 # 1099511627776)
         <= vb - (inject_Z (chan_b (anchor k)) * (1 - t)
                  + inject_Z (chan_b (anchor (k + 1))) * t)
         <= 1 # 1099511627776)%Q).
Proof.
  split; [exact InterpolatorEnds.first_position|].
  split.
  { intros p H. destruct (InterpolatorEnds.from_one p H) as [A B].
    split; [exact A|]. split; [exact B|].
    now apply InterpolatorEnds.from_one_finite. }
  split; [exact (InterpolatorEnds.infinite_position false)|].
  exact InterpolatorEnds.between_anchors.
Qed.

Lemma rainbow_anchors_and_blend_witness :
  Rainbow64.get_rainbow_color (Binary64.Finite 2) = Ok last_anchor.
Proof.
  destruct rainbow_anchors_and_blend as [_ [H _]].
  destruct (H 2%Q) as [_ [_ E]].
  - unfold Qle. simpl. lia.
  - apply E. vm_compute. discriminate.
Defined.

(** C3 (counterexample).  At the script's own size, 1024, the line width
    is 81 and the offsets are [-41 .. 39]: [-41] is used and [41] is not,
    so the set of offsets is not symmetric about zero. *)
Lemma stroke_offsets_81_not_symmetric :
  int (inject_Z 1024 * (8 # 100))%Q = 81 /\
  ~ (forall o : Z, In o (PipelineB.stroke_offsets 81) ->
                   In (- o) (PipelineB.stroke_offsets 81)).
Proof.
  split; [reflexivity|]. intros H.
  specialize (H (-41)). rewrite !Stroke.stroke_offsets_bounds in H.
  change (- ((81 + 1) / 2)) with (-41) in H. change (81 / 2 - 1) with 39 in H.
  lia.
Qed.

(** C3 (amended).  The stroke loop returns the image with, for every
    consecutive pair of sampled points in order and for each integer
    offset of the half-open range [(-line_width) // 2 .. line_width // 2 - 1],
    two more lines of width 3, all in one colour per segment: one with
    both end points moved by the offset in y, one with both moved by the
    offset in x.  There are [line_width] offsets, from
    [-((line_width + 1) / 2)] to [line_width / 2 - 1]. *)
Theorem stroke_draws_offset_copies
        (img : Image) (points : list (Q * Q)) (line_width : Z)
        (log : list canvas) :
  0 <= line_width ->
  let n := Z.of_nat (length points) in
  let offsets := range ((- line_width) / 2) (line_width / 2) in
  exists (img' : Image) (segment : Z -> list draw_op),
    PipelineB.draw_thick_curve img points line_width log = (log, Ok img') /\
    ops_of (im_data img')
    = ops_of (im_data img) ++ flat_map segment (range 0 (n - 1)) /\
    (forall i : Z, 0 <= i < n - 1 ->
       exists (color : rgb) (x1 y1 x2 y2 : Q),
         getitem points i = Ok (x1, y1) /\
         getitem points (i + 1) = Ok (x2, y2) /\
         segment i =
         flat_map
           (fun offset =>
              [ Line x1 (y1 + inject_Z offset)%Q x2 (y2 + inject_Z offset)%Q
                     (rgb_ink color) 3;
                Line (x1 + inject_Z offset)%Q y1 (x2 + inject_Z offset)%Q y2
                     (rgb_ink color) 3 ])
           offsets) /\
    Z.of_nat (length offsets) = line_width /\
    forall o : Z,
      In o offsets <-> - ((line_width + 1) / 2) <= o <= line_width / 2 - 1.
Proof.
  intros Hw n offsets.
  exists (draw_all img (flat_map (PipelineB.segment_lines points line_width)
                                 (range 0 (n - 1)))),
    (PipelineB.segment_lines points line_width).
  split; [apply Stroke.draw_thick_curve_draws|].
  split; [apply ops_of_draw_all|].
  split.
  { intros i Hi.
    destruct (Stroke.segment_lines_spec points line_width i Hi)
      as [color [[x1 y1] [[x2 y2] [Ec [_ [E1 [E2 Es]]]]]]].
    exists color, x1, y1, x2, y2.
    split; [exact E1|]. split; [exact E2 | exact Es]. }
  split; [now apply Stroke.stroke_offsets_length|].
  intros o. apply Stroke.stroke_offsets_bounds.
Qed.

Lemma stroke_draws_offset_copies_witness :
  exists img' : Image,
    PipelineB.draw_thick_curve (mkImage RGB 4 4 (Blank [0; 0; 0]))
                               [(0, 0); (1, 1)]%Q 2 []
    = ([], Ok img') /\
    length (ops_of (im_data img')) = 4%nat.
Proof.
  destruct (stroke_draws_offset_copies
              (mkImage RGB 4 4 (Blank [0; 0; 0])) [(0, 0); (1, 1)]%Q 2 [])
    as [img' [segment [E [Eo [Hs _]]]]].
  - lia.
  - exists img'. split; [exact E|]. rewrite Eo.
    destruct (Hs 0) as [color [x1 [y1 [x2 [y2 [_ [_ Es]]]]]]];
      [simpl; lia|].
    simpl. rewrite Es. reflexivity.
Defined.

(** C4 (counterexample).  The alpha values of the glow circles are
    [int(30 - 1.5 i)]: 30, 28, 27, 25, ...  The first step is 2 and the
    second is 1, so no single step separates successive circles. *)
Lemma glow_alpha_step_not_constant :
  ~ (exists step : Z,
        forall i : Z, 0 <= i < 19 ->
          PipelineA.glow_alpha i - PipelineA.glow_alpha (i + 1) = step).
Proof.
  intros [step H].
  pose proof (H 0 ltac:(lia)) as H0. pose proof (H 1 ltac:(lia)) as H1.
  vm_compute in H0, H1. congruence.
Qed.

(** C4 (amended).  When the glow loop runs to its end (sizes from 190 up)
    it draws exactly 20 circles centred on [(size // 2, size // 2)]; circle
    [i] has radius [size // 2 - 5 i] and alpha [int(30 - 1.5 i)].  Each
    radius is 5 pixels smaller than the one before; each alpha is lower than
    the one before, by 2 after an even [i] and by 1 after an odd [i]. *)
Theorem glow_draws_twenty_circles
        (size : Z) (glow_overlay : Image) (log : list canvas) :
  190 <= size ->
  for_each (range 0 20) glow_overlay (PipelineA.glow_step size) log
  = (log, Ok (draw_all glow_overlay
                       (map (PipelineA.glow_circle size) (range 0 20)))) /\
  length (map (PipelineA.glow_circle size) (range 0 20)) = 20%nat /\
  (forall i : Z,
      PipelineA.glow_circle size i =
      Ellipse (inject_Z (size / 2 - (size / 2 - i * 5)))
              (inject_Z (size / 2 - (size / 2 - i * 5)))
              (inject_Z (size / 2 + (size / 2 - i * 5)))
              (inject_Z (size / 2 + (size / 2 - i * 5)))
              [255; 255; 255; int (30 - inject_Z i * (15 # 10))%Q]) /\
  (forall i : Z, 0 <= i < 19 ->
      PipelineA.glow_radius size (i + 1) = PipelineA.glow_radius size i - 5 /\
      PipelineA.glow_alpha (i + 1) < PipelineA.glow_alpha i /\
      PipelineA.glow_alpha i - PipelineA.glow_alpha (i + 1)
      = if Z.even i then 2 else 1).
Proof.
  intros Hs. split; [now apply PatternDraws.glow_loop_draws|].
  split; [reflexivity|]. split; [reflexivity|].
  intros i Hi. pose proof (PatternDraws.glow_alpha_steps i Hi) as E.
  split; [unfold PipelineA.glow_radius; lia|].
  split; [destruct (Z.even i); lia | exact E].
Qed.

Lemma glow_draws_twenty_circles_witness :
  for_each (range 0 20) (mkImage RGBA 1024 1024 (Blank [0; 0; 0; 0]))
           (PipelineA.glow_step 1024) []
  = ([], Ok (draw_all (mkImage RGBA 1024 1024 (Blank [0; 0; 0; 0]))
                      (map (PipelineA.glow_circle 1024) (range 0 20)))).
Proof.
  apply (glow_draws_twenty_circles 1024). lia.
Defined.

(** C5.  For every size of at least 1 and every pair of end colours, each
    channel of the colour of scanline [y] (for [y] from 0 to [size - 1])
    lies between the two end values of that channel, starts at the value of
    [color1] and moves monotonically toward the value of [color2] as [y]
    grows.  These are the colours [create_gradient_background] draws its
    scanlines with. *)
Theorem linear_gradient_bounded_monotone
        (size : Z) (color1 color2 : rgb) (ch : rgb -> Z) :
  1 <= size ->
  In ch [chan_r; chan_g; chan_b] ->
  let v := fun y => ch (PipelineA.gradient_row color1 color2 y size) in
  v 0 = ch color1 /\
  (forall y : Z, 0 <= y < size ->
      Z.min (ch color1) (ch color2) <= v y <= Z.max (ch color1) (ch color2)) /\
  (forall y y' : Z, 0 <= y -> y <= y' -> y' < size ->
      (ch color1 <= ch color2 -> v y <= v y') /\
      (ch color2 <= ch color1 -> v y' <= v y)) /\
  (forall log : list canvas,
      PipelineA.create_gradient_background (size, size) color1 color2 log =
      (log ++ [mkCanvas RGB size size],
       Ok (draw_all (mkImage RGB size size (Blank (rgb_ink color1)))
                    (map (fun y =>
                            Line (inject_Z 0) (inject_Z y)
                                 (inject_Z size) (inject_Z y)
                                 (rgb_ink (PipelineA.gradient_row
                                             color1 color2 y size)) 0)
                         (range 0 size))))).
Proof.
  intros Hs Hch v.
  assert (E : forall y,
             v y = PipelineA.gradient_channel (ch color1) (ch color2) y size).
  { intros y. unfold v, PipelineA.gradient_row.
    destruct Hch as [<- | [<- | [<- | []]]]; reflexivity. }
  split; [|split; [|split]].
  - rewrite E. apply gradient_channel_start. lia.
  - intros y Hy. rewrite E. now apply gradient_channel_between.
  - intros y y' H0 H1 H2. rewrite !E. now apply gradient_channel_mono.
  - intros log. apply PatternDraws.create_gradient_background_rows; lia.
Qed.

Lemma linear_gradient_bounded_monotone_witness :
  chan_r (PipelineA.gradient_row (58, 123, 213) (88, 86, 214) 0 20) = 58 /\
  chan_r (PipelineA.gradient_row (58, 123, 213) (88, 86, 214) 19 20) = 86.
Proof.
  destruct (linear_gradient_bounded_monotone
              20 (58, 123, 213) (88, 86, 214) chan_r) as [E _].
  - lia.
  - simpl; tauto.
  - split; [exact E | reflexivity].
Defined.

(** C6.  Whenever the corner radius [int(size * 0.2237)] is positive, the
    mask either script builds has value 255 at the centre pixel
    [(size // 2, size // 2)] and value 0 at the corner pixel [(0, 0)]. *)
Theorem rounded_mask_center_and_corner (size : Z) (log : list canvas) :
  0 < PipelineA.corner_radius size ->
  PipelineB.corner_radius size = PipelineA.corner_radius size /\
  PipelineA.rounded_mask size log
  = (log ++ [mkCanvas L size size], Ok (PipelineA.mask_image size)) /\
  PipelineB.rounded_mask size log
  = (log ++ [mkCanvas L size size], Ok (PipelineA.mask_image size)) /\
  getpixel_L (PipelineA.mask_image size) (size / 2) (size / 2) = Some 255 /\
  getpixel_L (PipelineA.mask_image size) 0 0 = Some 0.
Proof.
  intros Hr. pose proof (corner_radius_pos size Hr) as Hs.
  destruct (rounded_mask_yields size log ltac:(lia)) as [mask [E ->]].
  split; [reflexivity|]. split; [exact E|]. split; [exact E|].
  now apply mask_image_pixels.
Qed.

Lemma rounded_mask_center_and_corner_witness :
  getpixel_L (PipelineA.mask_image 1024) 512 512 = Some 255 /\
  getpixel_L (PipelineA.mask_image 1024) 0 0 = Some 0.
Proof.
  destruct (rounded_mask_center_and_corner 1024 []) as [_ [_ [_ H]]].
  - reflexivity.
  - exact H.
Defined.

(** C7 (counterexample).  A curve of four points, evaluated in binary64
    at the script's centre and symbol size.  The samples are (844.5, 512),
    (512, 512), (179.5, 512) and (511.99999999999994, 512): the cosine of
    the double nearest to 3 pi / 2 is not zero, and the last point falls
    one unit in the last place left of the centre.  The distance from the
    first point to the last (332.50000000000006) is larger than the
    distance from the first point to the second (332.5), and larger than
    every other step. *)
Lemma lemniscate_gap_exceeds_step :
  let points :=
    PipelineB.draw_infinity_symbol
      (Curve64.ops Curve64.sin_at_quarters Curve64.cos_at_quarters)
      512 512 665 307 4 in
  let pt := fun i : nat => nth i points (0, 0)%Q in
  map (PipelineB.sample_parameter
         (Curve64.ops Curve64.sin_at_quarters Curve64.cos_at_quarters) 4)
      [0; 1; 2; 3]
  = [ 0%Q; Curve64.quarter_turn; Curve64.half_turn;
      Curve64.three_quarter_turn ] /\
  points = [ (1689 # 2, 512); (512, 512); (359 # 2, 512);
             (9007199254740991 # 17592186044416, 512) ]%Q /\
  (Curve64.squared_distance (pt 0%nat) (pt 1%nat)
   < Curve64.squared_distance (pt 0%nat) (pt 3%nat))%Q /\
  (Curve64.squared_distance (pt 1%nat) (pt 2%nat)
   < Curve64.squared_distance (pt 0%nat) (pt 3%nat))%Q /\
  (Curve64.squared_distance (pt 2%nat) (pt 3%nat)
   < Curve64.squared_distance (pt 0%nat) (pt 3%nat))%Q.
Proof.
  cbv zeta. split; [vm_compute; reflexivity|].
  split; [vm_compute; reflexivity|].
  split; [vm_compute; reflexivity|].
  split; vm_compute; reflexivity.
Qed.

(** C7 (amended).  In real arithmetic (sine, cosine and pi exact, no
    rounding): for at least two samples the sampler returns [num_points]
    points in order, point [i] being the point
    [(center_x + a cos t / (1 + sin^2 t),
      center_y + b sin t cos t / (1 + sin^2 t))]
    of the curve at [t = 2 pi i / num_points], with [a] and [b] half the
    width and the height; the parameters start at 0, advance by the
    constant [2 pi / num_points] and end one step short of [2 pi].  The
    distance from the first point to the last is equal to the distance
    from the first point to the second, one sampling step. *)
Theorem lemniscate_samples_closed
        (center_x center_y width height num_points : Z) :
  2 <= num_points ->
  let pt := Curve.sample center_x center_y width height num_points in
  let t := fun i : Z => (2 * PI * IZR i / IZR num_points)%R in
  length (Curve.samples center_x center_y width height num_points)
  = Z.to_nat num_points /\
  (forall i : Z, 0 <= i < num_points ->
      PipelineB.sample_parameter R_ops num_points i = t i /\
      pt i = ((IZR center_x
               + IZR width / 2 * cos (t i) / (1 + sin (t i) * sin (t i)))%R,
              (IZR center_y
               + IZR height / 2 * sin (t i) * cos (t i)
                 / (1 + sin (t i) * sin (t i)))%R)) /\
  t 0 = 0%R /\
  (forall i : Z, (t (i + 1)%Z - t i)%R = (2 * PI / IZR num_points)%R) /\
  t (num_points - 1) = (2 * PI - 2 * PI / IZR num_points)%R /\
  Curve.dist (pt 0%Z) (pt (num_points - 1)%Z)
  = Curve.dist (pt 0%Z) (pt 1%Z).
Proof.
  intros Hn pt t.
  change t with (Curve.parameter num_points).
  split; [now apply CurveFacts.samples_length|].
  split.
  { intros i Hi. split; [reflexivity|].
    unfold pt. now rewrite CurveFacts.sample_at by lia. }
  split; [now apply CurveFacts.parameter_first|].
  split; [intros i; now apply CurveFacts.parameter_step|].
  split.
  { rewrite (CurveFacts.parameter_last num_points Hn).
    unfold Curve.parameter, Rdiv. ring. }
  unfold pt. now rewrite CurveFacts.closing_gap by exact Hn.
Qed.

Lemma lemniscate_samples_closed_witness :
  length (Curve.samples 512 512 665 307 400) = 400%nat.
Proof.
  destruct (lemniscate_samples_closed 512 512 665 307 400) as [E _].
  - lia.
  - exact E.
Defined.

(** C8.  For every size, every canvas either pipeline allocates (gradient
    base, converted and composited images, overlays, mask, output and final
    image) is [size] by [size], whether the run completes or raises, and an
    image that is returned has dimensions [(size, size)]. *)
Theorem every_canvas_is_square
        (math_radians : Z -> Q) (math_cos math_sin math_sqrt : Q -> Q)
        (math_pi : Q) (size : Z) :
  let run_a := PipelineA.create_icon math_radians math_cos math_sin size [] in
  let run_b :=
    PipelineB.create_app_icon math_sqrt math_sin math_cos math_pi size [] in
  Forall (square size) (fst run_a) /\
  (forall im : Image, snd run_a = Ok im -> im_size im = (size, size)) /\
  Forall (square size) (fst run_b) /\
  (forall im : Image, snd run_b = Ok im -> im_size im = (size, size)).
Proof.
  intros run_a run_b.
  destruct (PatternSquare.keeps_create_icon
              math_radians math_cos math_sin size [] (Forall_nil _))
    as [La Ra].
  destruct (InfinityIcon.keeps_create_app_icon
              math_sqrt math_sin math_cos math_pi size [] (Forall_nil _))
    as [Lb Rb].
  repeat split; assumption.
Qed.

Lemma every_canvas_is_square_witness :
  exists im : Image,
    snd (PipelineA.create_icon (fun _ => 0%Q) (fun _ => 1%Q) (fun _ => 0%Q)
                               1024 []) = Ok im /\
    im_size im = (1024, 1024).
Proof.
  destruct (PatternIcon.create_icon_returns_from_190
              (fun _ => 0%Q) (fun _ => 1%Q) (fun _ => 0%Q) 1024) as [im [E _]].
  - lia.
  - exists im. split; [now rewrite E|].
    destruct (every_canvas_is_square
                (fun _ => 0%Q) (fun _ => 1%Q) (fun _ => 0%Q) (fun q => q) 3%Q
                1024) as [_ [H _]].
    apply H. now rewrite E.
Defined.

(** C9.  In binary64: for every position between 0 and 1 the
    interpolator returns a colour, and each of its channels is an integer
    from 0 to 255.  (The rounded blend can fall below an anchor's channel,
    as 254 between 255 and 255, but never below 0 or above 255.) *)
Theorem rainbow_channels_are_bytes (p : Q) :
  (0 <= p)%Q -> (p <= 1)%Q ->
  exists r g b : Z,
    Rainbow64.get_rainbow_color (Binary64.Finite p) = Ok (r, g, b) /\
    0 <= r <= 255 /\ 0 <= g <= 255 /\ 0 <= b <= 255.
Proof. exact (InterpolatorRange.unit_position_bytes p). Qed.

Lemma rainbow_channels_are_bytes_witness :
  exists r g b : Z,
    Rainbow64.get_rainbow_color
      (Binary64.Finite (3602879701896397 # 9007199254740992))
    = Ok (r, g, b) /\
    0 <= r <= 255 /\ 0 <= g <= 255 /\ 0 <= b <= 255.
Proof.
  apply (rainbow_channels_are_bytes (3602879701896397 # 9007199254740992));
    unfold Qle; simpl; lia.
Defined.



(** * Further properties of the two scripts *)

(** ** More of pipeline A *)

Lemma ellipse_draws (im : Image) (x0 y0 x1 y1 : Q) (fill : ink)
      (log : list canvas) :
  (x0 <= x1)%Q -> (y0 <= y1)%Q ->
  ellipse im x0 y0 x1 y1 fill log
  = (log, Ok (draw_all im [Ellipse x0 y0 x1 y1 fill])).
Proof.
  intros Hx Hy. unfold ellipse.
  apply Qle_bool_iff in Hx, Hy. now rewrite Hx, Hy.
Qed.

Lemma new_blank (m : mode) (w h : Z) (c : ink) (log : list canvas) :
  0 <= w -> 0 <= h ->
  new m (w, h) c log = (log ++ [mkCanvas m w h], Ok (mkImage m w h (Blank c))).
Proof.
  intros Hw Hh. destruct (new_yields m w h c log Hw Hh) as [im [E ->]].
  exact E.
Qed.

Lemma new_negative (m : mode) (w h : Z) (c : ink) (log : list canvas) :
  w < 0 \/ h < 0 -> new m (w, h) c log = (log, Raise ValueError).
Proof.
  intros H. unfold new.
  destruct (w <? 0) eqn:Ew; [reflexivity|].
  destruct (h <? 0) eqn:Eh; [reflexivity|]. lia.
Qed.

Module PatternCalls.
Import PipelineA Pattern.

Section WithMath.
Variable math_radians : Z -> Q.
Variables math_cos math_sin : Q -> Q.

Lemma draw_connecting_lines_draws (w h : Z) (color : rgb) (alpha : Z)
      (log : list canvas) :
  0 <= w -> 0 <= h ->
  draw_connecting_lines math_radians math_cos math_sin (w, h) color alpha log
  = (log ++ [mkCanvas RGBA w h],
     Ok (draw_all (mkImage RGBA w h (Blank [0; 0; 0; 0]))
                  (connecting_lines math_radians math_cos math_sin
                                    w h color alpha))).
Proof.
  intros Hw Hh. unfold draw_connecting_lines. cbv beta iota zeta.
  rewrite (bind_ok _ _ _ _ _ (new_blank RGBA w h _ log Hw Hh)).
  reflexivity.
Qed.

Lemma draw_pattern_circles_draws (w h : Z) (color : rgb) (alpha : Z)
      (log : list canvas) :
  0 <= w -> 0 <= h ->
  draw_pattern_circles math_radians math_cos math_sin (w, h) color alpha log
  = (log ++ [mkCanvas RGBA w h],
     Ok (draw_all (mkImage RGBA w h (Blank [0; 0; 0; 0]))
                  (pattern_circles math_radians math_cos math_sin
                                   w h color alpha))).
Proof.
  intros Hw Hh. unfold draw_pattern_circles. cbv beta iota zeta.
  assert (Hrb : 0 <= Z.min w h / 6) by (apply Z.div_pos; lia).
  assert (HrbQ : (0 <= inject_Z (Z.min w h / 6))%Q)
    by (change 0%Q with (inject_Z 0); now rewrite <- Zle_Qle).
  rewrite (bind_ok _ _ _ _ _ (new_blank RGBA w h _ log Hw Hh)).
  erewrite bind_ok; [|apply ellipse_draws; rewrite <- Zle_Qle; lia].
  erewrite bind_ok.
  2:{ apply for_each_draw_all
        with (f := fun angle =>
                     [circle (inject_Z (w / 2) + inject_Z (Z.min w h / 6)
                              * (18 # 10) * math_cos (math_radians angle))%Q
                             (inject_Z (h / 2) + inject_Z (Z.min w h / 6)
                              * (18 # 10) * math_sin (math_radians angle))%Q
                             (inject_Z (Z.min w h / 6) * (7 # 10))%Q
                             (rgba_ink color alpha)]).
      intros im angle _.
      apply ellipse_draws; apply PatternRuns.circle_box; lra. }
  erewrite for_each_draw_all
    with (f := fun angle =>
                 [circle (inject_Z (w / 2)
                          + inject_Z (Z.min w h / 6) * (18 # 10) * (6 # 10)
                            * math_cos (math_radians angle))%Q
                         (inject_Z (h / 2)
                          + inject_Z (Z.min w h / 6) * (18 # 10) * (6 # 10)
                            * math_sin (math_radians angle))%Q
                         (inject_Z (Z.min w h / 6) * (4 # 10))%Q
                         (rgba_ink color alpha)]).
  2:{ intros im angle _.
      apply ellipse_draws; apply PatternRuns.circle_box; lra. }
  reflexivity.
Qed.

End WithMath.
End PatternCalls.

Lemma convert_new (im : Image) (m : mode) (log : list canvas) :
  convert im m log
  = (log ++ [mkCanvas m (im_width im) (im_height im)],
     Ok (mkImage m (im_width im) (im_height im) (Convert (im_data im)))).
Proof. reflexivity. Qed.

Lemma draw_all_mode (im : Image) (ops : list draw_op) :
  im_mode (draw_all im ops) = im_mode im /\
  im_width (draw_all im ops) = im_width im /\
  im_height (draw_all im ops) = im_height im.
Proof. apply draw_all_shaped. repeat split. Qed.

Lemma rounded_mask_image (size : Z) (log : list canvas) :
  0 <= size ->
  PipelineA.rounded_mask size log
  = (log ++ [mkCanvas L size size], Ok (PipelineA.mask_image size)).
Proof.
  intros Hs. destruct (rounded_mask_yields size log Hs) as [mask [E ->]].
  exact E.
Qed.

Lemma paste_plain (im src : Image) (log : list canvas) :
  paste im src None log
  = (log, Ok (mkImage (im_mode im) (im_width im) (im_height im)
                      (Paste (im_data im) (im_data src)))).
Proof. reflexivity. Qed.

Lemma putalpha_band (im alpha : Image) (log : list canvas) :
  shaped L (im_width im) (im_height im) alpha ->
  putalpha im alpha log
  = (log, Ok (mkImage (im_mode im) (im_width im) (im_height im)
                      (PutAlpha (im_data im) (im_data alpha)))).
Proof.
  intros H. destruct (putalpha_yields im alpha log H) as [out [E ->]]. exact E.
Qed.

Module PatternWhole.
Import PipelineA Pattern PatternCalls.

Section WithMath.
Variable math_radians : Z -> Q.
Variables math_cos math_sin : Q -> Q.

Lemma create_icon_evaluates (size : Z) :
  190 <= size ->
  create_icon math_radians math_cos math_sin size []
  = (log_complete size,
     Ok (mkImage RGBA size size
                 (icon_content math_radians math_cos math_sin size))).
Proof.
  intros Hs. unfold create_icon. cbv zeta.
  rewrite (bind_ok _ _ _ _ _
             (PatternDraws.create_gradient_background_rows
                size size _ _ [] ltac:(lia) ltac:(lia))).
  rewrite (bind_ok _ _ _ _ _ (convert_new _ RGBA _)).
  rewrite (bind_ok _ _ _ _ _
             (draw_connecting_lines_draws math_radians math_cos math_sin
                size size _ _ _ ltac:(lia) ltac:(lia))).
  pose proof (draw_all_mode
                (mkImage RGB size size (Blank (rgb_ink (58, 123, 213))))) as G.
  pose proof (draw_all_mode (mkImage RGBA size size (Blank [0; 0; 0; 0]))) as O.
  simpl in G, O.
  unfold alpha_composite at 1. cbn [im_mode im_width im_height].
  destruct (O (connecting_lines math_radians math_cos math_sin size size
                                (255, 255, 255) 150)) as [-> [-> ->]].
  destruct (G (map (fun y => Line (inject_Z 0) (inject_Z y) (inject_Z size)
                                  (inject_Z y)
                                  (rgb_ink (gradient_row (58, 123, 213)
                                                         (88, 86, 214) y size))
                                  0) (range 0 size))) as [_ [-> ->]].
  rewrite !Z.eqb_refl. cbn [mode_eqb andb].
  unfold bind at 1. unfold allocate at 1.
  rewrite (bind_ok _ _ _ _ _
             (draw_pattern_circles_draws math_radians math_cos math_sin
                size size _ _ _ ltac:(lia) ltac:(lia))).
  unfold alpha_composite at 1. cbn [im_mode im_width im_height].
  destruct (O (pattern_circles math_radians math_cos math_sin size size
                               (255, 255, 255) 230)) as [-> [-> ->]].
  rewrite !Z.eqb_refl. cbn [mode_eqb andb].
  unfold bind at 1. unfold allocate at 1.
  rewrite (bind_ok _ _ _ _ _
             (new_blank RGBA size size _ _ ltac:(lia) ltac:(lia))).
  rewrite (bind_ok _ _ _ _ _ (PatternDraws.glow_loop_draws size _ _ Hs)).
  unfold alpha_composite at 1. cbn [im_mode im_width im_height].
  destruct (O (map (glow_circle size) (range 0 20))) as [-> [-> ->]].
  rewrite !Z.eqb_refl. cbn [mode_eqb andb].
  unfold bind at 1. unfold allocate at 1.
  rewrite (bind_ok _ _ _ _ _ (rounded_mask_image size _ ltac:(lia))).
  rewrite (bind_ok _ _ _ _ _
             (new_blank RGBA size size _ _ ltac:(lia) ltac:(lia))).
  rewrite (bind_ok _ _ _ _ _ (paste_plain _ _ _)).
  erewrite bind_ok; [|apply putalpha_band; repeat split].
  reflexivity.
Qed.

End WithMath.
End PatternWhole.

Lemma create_icon_negative
      (math_radians : Z -> Q) (math_cos math_sin : Q -> Q) (size : Z) :
  size < 0 ->
  PipelineA.create_icon math_radians math_cos math_sin size []
  = ([], Raise ValueError).
Proof.
  intros Hs. unfold PipelineA.create_icon. cbv zeta.
  apply bind_raise. unfold PipelineA.create_gradient_background.
  apply bind_raise. apply new_negative. now left.
Qed.

(** The failing run of [create_icon], started with any log. *)
Lemma create_icon_fails_from
      (math_radians : Z -> Q) (math_cos math_sin : Q -> Q) (size : Z)
      (log : list canvas) :
  0 <= size < 190 ->
  PipelineA.create_icon math_radians math_cos math_sin size log
  = (log ++ PipelineA.log_before_glow size, Raise ValueError).
Proof.
  intros Hs.
  replace (log ++ PipelineA.log_before_glow size)
    with (((((((log ++ [mkCanvas RGB size size])
               ++ [mkCanvas RGBA size size])
              ++ [mkCanvas RGBA size size])
             ++ [mkCanvas RGBA size size])
            ++ [mkCanvas RGBA size size])
           ++ [mkCanvas RGBA size size])
          ++ [mkCanvas RGBA size size])
    by (unfold PipelineA.log_before_glow; now rewrite <- !app_assoc).
  change (fails (PipelineA.create_icon math_radians math_cos math_sin size) log
                (((((((log ++ [mkCanvas RGB size size])
                      ++ [mkCanvas RGBA size size])
                     ++ [mkCanvas RGBA size size])
                    ++ [mkCanvas RGBA size size])
                   ++ [mkCanvas RGBA size size])
                  ++ [mkCanvas RGBA size size])
                 ++ [mkCanvas RGBA size size]) ValueError).
  unfold PipelineA.create_icon. cbv zeta.
  eapply fails_bind;
    [apply PatternRuns.create_gradient_background_shaped; lia|].
  intros img0 H0.
  eapply fails_bind; [eapply convert_shaped; exact H0|].
  intros img1 H1.
  eapply fails_bind; [apply PatternRuns.draw_connecting_lines_shaped; lia|].
  intros lines Hl.
  eapply fails_bind; [apply alpha_composite_shaped; eassumption|].
  intros img2 H2.
  eapply fails_bind; [apply PatternRuns.draw_pattern_circles_shaped; lia|].
  intros circles Hc.
  eapply fails_bind; [apply alpha_composite_shaped; eassumption|].
  intros img3 H3.
  eapply fails_bind; [apply new_shaped; lia|].
  intros glow Hg.
  apply fails_now. apply PatternRuns.glow_loop_fails; [lia | exact Hg].
Qed.

(** X1.  [create_icon] returns an image exactly for the sizes from 190 up.
    For every smaller size it raises ValueError: a negative size is refused
    by the first [Image.new], a size from 0 to 189 by an [ellipse] call of
    the glow loop, whose radius [size // 2 - i * 5] turns negative. *)
Theorem create_icon_returns_iff
        (math_radians : Z -> Q) (math_cos math_sin : Q -> Q) (size : Z) :
  let run := PipelineA.create_icon math_radians math_cos math_sin size [] in
  ((exists (log : list canvas) (icon : Image), run = (log, Ok icon))
   <-> 190 <= size) /\
  (size < 190 -> exists log : list canvas, run = (log, Raise ValueError)).
Proof.
  intros run.
  assert (Hlow : size < 190 ->
                 exists log : list canvas, run = (log, Raise ValueError)).
  { intros Hs. destruct (Z_lt_le_dec size 0) as [Hneg | Hnn].
    - exists []. now apply create_icon_negative.
    - exists (PipelineA.log_before_glow size).
      apply PatternIcon.create_icon_fails_below_190. lia. }
  split; [|exact Hlow]. split.
  - intros [log [icon E]].
    destruct (Z_lt_le_dec size 190) as [Hs | Hs]; [|exact Hs].
    destruct (Hlow Hs) as [log' E']. congruence.
  - intros Hs. do 2 eexists.
    apply (PatternWhole.create_icon_evaluates _ _ _ size Hs).
Qed.

Lemma create_icon_returns_iff_witness :
  exists log : list canvas,
    PipelineA.create_icon (fun _ => 0%Q) (fun _ => 1%Q) (fun _ => 0%Q) 180 []
    = (log, Raise ValueError).
Proof.
  destruct (create_icon_returns_iff
              (fun _ => 0%Q) (fun _ => 1%Q) (fun _ => 0%Q) 180) as [_ H].
  apply H. lia.
Defined.

(** X2.  For a size of at least 190 [create_icon] allocates ten canvases
    and returns an RGBA image whose pixels are layered in this order: the
    converted gradient, the 12 connecting lines, the 13 circles and the 20
    glow circles, each composited over the layers before it, then pasted
    on a transparent canvas whose alpha channel is replaced by the mask. *)
Theorem create_icon_layers
        (math_radians : Z -> Q) (math_cos math_sin : Q -> Q) (size : Z) :
  190 <= size ->
  PipelineA.create_icon math_radians math_cos math_sin size []
  = (PipelineA.log_complete size,
     Ok (mkImage RGBA size size
                 (Pattern.icon_content math_radians math_cos math_sin size))) /\
  length (PipelineA.log_complete size) = 10%nat /\
  length (ops_of (im_data (Pattern.gradient_image
                             size size (58, 123, 213) (88, 86, 214))))
  = Z.to_nat size /\
  length (ops_of (im_data (Pattern.lines_image math_radians math_cos math_sin
                                               size (255, 255, 255) 150)))
  = 12%nat /\
  length (ops_of (im_data (Pattern.circles_image math_radians math_cos math_sin
                                                 size (255, 255, 255) 230)))
  = 13%nat /\
  length (ops_of (im_data (Pattern.glow_image size))) = 20%nat.
Proof.
  intros Hs. split; [now apply PatternWhole.create_icon_evaluates|].
  split; [reflexivity|].
  unfold Pattern.gradient_image, Pattern.lines_image, Pattern.circles_image,
    Pattern.glow_image.
  rewrite !ops_of_draw_all. simpl ops_of. simpl app.
  split; [rewrite length_map, range_length; f_equal; lia|].
  repeat split; reflexivity.
Qed.

Lemma create_icon_layers_witness :
  PipelineA.create_icon (fun _ => 0%Q) (fun _ => 1%Q) (fun _ => 0%Q) 1024 []
  = (PipelineA.log_complete 1024,
     Ok (mkImage RGBA 1024 1024
                 (Pattern.icon_content
                    (fun _ => 0%Q) (fun _ => 1%Q) (fun _ => 0%Q) 1024))).
Proof.
  apply (create_icon_layers (fun _ => 0%Q) (fun _ => 1%Q) (fun _ => 0%Q) 1024).
  lia.
Defined.

Module PatternMainFacts.
Import String.
Local Open Scope string_scope.

(** X3.  [main] writes one file and then stops: the icon of the first entry
    of its table (1024) is saved, the second entry (180) raises ValueError
    in the glow loop, and none of the twelve remaining files is written. *)
Theorem main_saves_only_first
        (math_radians : Z -> Q) (math_cos math_sin : Q -> Q) :
  List.length PatternMain.size_table = 13%nat /\
  map snd PatternMain.size_table = PipelineA.sizes /\
  PatternMain.main math_radians math_cos math_sin
  = ([("patterns-1024.png",
       mkImage RGBA 1024 1024
               (Pattern.icon_content math_radians math_cos math_sin 1024))],
     ((PipelineA.log_complete 1024 ++ PipelineA.log_before_glow 180)%list,
      Raise ValueError)).
Proof.
  split; [reflexivity|]. split; [reflexivity|].
  unfold PatternMain.main, PatternMain.size_table. cbn [Pattern.save_icons].
  rewrite (PatternWhole.create_icon_evaluates _ _ _ 1024) by lia.
  cbn [List.app].
  rewrite (create_icon_fails_from _ _ _ 180) by lia.
  reflexivity.
Qed.

End PatternMainFacts.

(** X4.  For every non-negative width and height [draw_connecting_lines]
    returns an overlay with exactly twelve lines.  For each of the six
    directions it draws the spoke from the centre to the ring point, with
    the given alpha and width [max(3, width // 150)], and then the segment
    from that ring point to the next one, with half the alpha and width
    [max(2, width // 200)]; the segment of the last direction ends on the
    ring point of the first, so the ring is closed. *)
Theorem connecting_lines_close_the_ring
        (math_radians : Z -> Q) (math_cos math_sin : Q -> Q)
        (w h : Z) (color : rgb) (alpha : Z) (log : list canvas) :
  0 <= w -> 0 <= h ->
  let P := fun j : Z =>
             Pattern.ring_point math_radians math_cos math_sin w h (60 * j) in
  exists overlay : Image,
    PipelineA.draw_connecting_lines math_radians math_cos math_sin
                                    (w, h) color alpha log
    = (log ++ [mkCanvas RGBA w h], Ok overlay) /\
    shaped RGBA w h overlay /\
    length (ops_of (im_data overlay)) = 12%nat /\
    forall i : Z, 0 <= i < 6 ->
      nth (Z.to_nat (2 * i)) (ops_of (im_data overlay)) (PutPixel 0 0 [])
      = Line (inject_Z (w / 2)) (inject_Z (h / 2)) (fst (P i)) (snd (P i))
             (rgba_ink color alpha) (Z.max 3 (w / 150)) /\
      nth (Z.to_nat (2 * i + 1)) (ops_of (im_data overlay)) (PutPixel 0 0 [])
      = Line (fst (P i)) (snd (P i))
             (fst (P ((i + 1) mod 6))) (snd (P ((i + 1) mod 6)))
             (rgba_ink color (alpha / 2)) (Z.max 2 (w / 200)).
Proof.
  intros Hw Hh P. eexists. split.
  { now apply PatternCalls.draw_connecting_lines_draws. }
  split; [apply draw_all_shaped; repeat split|].
  rewrite ops_of_draw_all. cbn [ops_of im_data app].
  split; [reflexivity|].
  intros i Hi.
  assert (C : i = 0 \/ i = 1 \/ i = 2 \/ i = 3 \/ i = 4 \/ i = 5) by lia.
  destruct C as [-> | [-> | [-> | [-> | [-> | ->]]]]]; split; reflexivity.
Qed.

Lemma connecting_lines_close_the_ring_witness :
  exists overlay : Image,
    PipelineA.draw_connecting_lines (fun _ => 0%Q) (fun _ => 1%Q) (fun _ => 0%Q)
                                    (20, 20) (255, 255, 255) 150 []
    = ([mkCanvas RGBA 20 20], Ok overlay) /\
    length (ops_of (im_data overlay)) = 12%nat.
Proof.
  destruct (connecting_lines_close_the_ring
              (fun _ => 0%Q) (fun _ => 1%Q) (fun _ => 0%Q)
              20 20 (255, 255, 255) 150 []) as [overlay [E [_ [L _]]]].
  - lia.
  - lia.
  - exists overlay. split; [exact E | exact L].
Defined.

(** The bounding box of a circle is ordered and as wide as it is high. *)
Lemma circle_is_round (x y r : Q) (fill : ink) :
  (0 <= r)%Q ->
  exists x0 y0 x1 y1 : Q,
    Pattern.circle x y r fill = Ellipse x0 y0 x1 y1 fill /\
    (x0 <= x1)%Q /\ (y0 <= y1)%Q /\ (x1 - x0 == y1 - y0)%Q.
Proof.
  intros Hr. exists (x - r)%Q, (y - r)%Q, (x + r)%Q, (y + r)%Q.
  split; [reflexivity|]. repeat split; (lra || ring).
Qed.

(** X5.  For every non-negative width and height [draw_pattern_circles]
    returns an overlay with exactly thirteen ellipses.  All of them carry
    the one fill [(color, alpha)], every bounding box is ordered (so no
    call is refused) and is as wide as it is high, and the first is the
    circle of radius [min(width, height) // 6] around the centre. *)
Theorem pattern_circles_are_thirteen
        (math_radians : Z -> Q) (math_cos math_sin : Q -> Q)
        (w h : Z) (color : rgb) (alpha : Z) (log : list canvas) :
  0 <= w -> 0 <= h ->
  exists overlay : Image,
    PipelineA.draw_pattern_circles math_radians math_cos math_sin
                                   (w, h) color alpha log
    = (log ++ [mkCanvas RGBA w h], Ok overlay) /\
    shaped RGBA w h overlay /\
    length (ops_of (im_data overlay)) = 13%nat /\
    hd (PutPixel 0 0 []) (ops_of (im_data overlay))
    = Ellipse (inject_Z (w / 2 - Z.min w h / 6))
              (inject_Z (h / 2 - Z.min w h / 6))
              (inject_Z (w / 2 + Z.min w h / 6))
              (inject_Z (h / 2 + Z.min w h / 6))
              (rgba_ink color alpha) /\
    forall op : draw_op, In op (ops_of (im_data overlay)) ->
      exists x0 y0 x1 y1 : Q,
        op = Ellipse x0 y0 x1 y1 (rgba_ink color alpha) /\
        (x0 <= x1)%Q /\ (y0 <= y1)%Q /\ (x1 - x0 == y1 - y0)%Q.
Proof.
  intros Hw Hh. eexists. split.
  { now apply PatternCalls.draw_pattern_circles_draws. }
  split; [apply draw_all_shaped; repeat split|].
  rewrite ops_of_draw_all. cbn [ops_of im_data app].
  split; [reflexivity|]. split; [reflexivity|].
  assert (Hrb : 0 <= Z.min w h / 6) by (apply Z.div_pos; lia).
  assert (HrbQ : (0 <= inject_Z (Z.min w h / 6))%Q)
    by (change 0%Q with (inject_Z 0); now rewrite <- Zle_Qle).
  intros op Hop. unfold Pattern.pattern_circles in Hop. cbv zeta in Hop.
  destruct Hop as [<- | Hop].
  - do 4 eexists. split; [reflexivity|].
    rewrite <- !Zle_Qle. repeat split; try lia.
    unfold Qminus. rewrite <- !inject_Z_opp, <- !inject_Z_plus.
    apply inject_Z_injective. lia.
  - apply in_app_or in Hop. destruct Hop as [Hop | Hop];
      apply in_map_iff in Hop; destruct Hop as [angle [<- _]];
      apply circle_is_round; lra.
Qed.

Lemma pattern_circles_are_thirteen_witness :
  exists overlay : Image,
    PipelineA.draw_pattern_circles (fun _ => 0%Q) (fun _ => 1%Q) (fun _ => 0%Q)
                                   (20, 20) (255, 255, 255) 230 []
    = ([mkCanvas RGBA 20 20], Ok overlay) /\
    length (ops_of (im_data overlay)) = 13%nat.
Proof.
  destruct (pattern_circles_are_thirteen
              (fun _ => 0%Q) (fun _ => 1%Q) (fun _ => 0%Q)
              20 20 (255, 255, 255) 230 []) as [overlay [E [_ [L _]]]].
  - lia.
  - lia.
  - exists overlay. split; [exact E | exact L].
Defined.

(** X6.  The linear gradient divides by the height, not by the height
    minus one: for channel values from 0 to 255 with [c1 < c2] no scanline
    reaches [c2] (the last one stops short of it), and with [c1 = c2] every
    scanline has exactly that value. *)
Theorem linear_gradient_stops_short (c1 c2 y h : Z) :
  0 <= c1 -> c1 <= c2 -> 0 <= y < h ->
  (c1 < c2 -> PipelineA.gradient_channel c1 c2 y h < c2) /\
  (c1 = c2 -> PipelineA.gradient_channel c1 c2 y h = c1).
Proof.
  intros H0 H1 Hy. rewrite gradient_channel_quot by lia.
  rewrite Z.quot_div_nonneg by nia. split.
  - intros Hlt. apply Z.div_lt_upper_bound; nia.
  - intros ->. replace (c2 * h + (c2 - c2) * y) with (c2 * h) by lia.
    apply Z.div_mul. lia.
Qed.

Lemma linear_gradient_stops_short_witness :
  PipelineA.gradient_channel 58 88 19 20 < 88.
Proof.
  destruct (linear_gradient_stops_short 58 88 19 20) as [H _].
  - lia.
  - lia.
  - lia.
  - apply H. lia.
Defined.

(** ** More of the rainbow interpolator *)

(** X7.  In binary64 [get_rainbow_color] has no lower clamp.  It raises
    IndexError exactly when the product [position * 6] is finite and the
    palette index [int(position * 6)] is -8 or less.  For a position of at
    most -4/3 it always raises: IndexError while the product is finite,
    OverflowError once it is infinite.  From -7/6 up it returns a colour
    whenever the product is finite (the negative indices from -7 to -1
    wrap around to the end of the 7-entry palette). *)
Theorem rainbow_raises_below (p : Q) :
  let s := Binary64.round (p * 6) in
  (Rainbow64.get_rainbow_color (Binary64.Finite p) = Raise IndexError <->
   (Qabs s < Binary64.pow2 1024)%Q /\ int s <= -8) /\
  ((p <= - (4 # 3))%Q ->
   ((Qabs s < Binary64.pow2 1024)%Q ->
    Rainbow64.get_rainbow_color (Binary64.Finite p) = Raise IndexError) /\
   ((Binary64.pow2 1024 <= Qabs s)%Q ->
    Rainbow64.get_rainbow_color (Binary64.Finite p)
    = Raise OverflowError)) /\
  ((- (7 # 6) <= p)%Q -> (Qabs s < Binary64.pow2 1024)%Q ->
   exists c : rgb,
     Rainbow64.get_rainbow_color (Binary64.Finite p) = Ok c).
Proof.
  intros s. split; [apply InterpolatorBelow.raises_index_error_iff|].
  split.
  - intros Hp. split.
    + intros F. apply Interpolator.get_rainbow_color_below; [exact F|].
      apply InterpolatorBelow.index_at_most; [lia|].
      change (inject_Z (-8)) with (-8 # 1)%Q. lra.
    + apply Interpolator.scaled_pos_overflow.
  - intros Hp F. apply InterpolatorBelow.returns_from_minus_seven; [exact F|].
    apply InterpolatorBelow.index_at_least; [lia|].
    change (inject_Z (-7)) with (-7 # 1)%Q. lra.
Qed.

Lemma rainbow_raises_below_witness :
  Rainbow64.get_rainbow_color
    (Binary64.Finite (- (6004799503160661 # 4503599627370496)))
  = Raise IndexError.
Proof.
  destruct (rainbow_raises_below
              (- (6004799503160661 # 4503599627370496))) as [H _].
  apply H. split; vm_compute; [reflexivity | discriminate].
Defined.

(** X8.  In binary64, just below zero the interpolator extrapolates
    instead of clamping.  For a negative position from -1/8 up, and for
    every negative position whose product with 6 is above -1, the index is
    0 and red and orange are blended with a negative weight: the blue
    channel is 0, the red channel is 254 or 255, and the green channel lies
    between -127 and 0 and is negative for every position of at most
    -1/512, which is not a valid 8-bit value. *)
Theorem rainbow_negative_green (p : Q) :
  (p < 0)%Q ->
  (- (1 # 8) <= p)%Q \/ (-1 < Binary64.round (p * 6))%Q ->
  exists r g : Z,
    Rainbow64.get_rainbow_color (Binary64.Finite p) = Ok (r, g, 0) /\
    254 <= r <= 255 /\ -127 <= g <= 0 /\
    ((p <= - (1 # 512))%Q -> g < 0).
Proof.
  intros Hp [H | H].
  - apply InterpolatorBelow.just_below_zero; [exact Hp|].
    apply Qlt_le_trans with (- (3 # 4))%Q; [reflexivity|].
    apply Rounding.round_lower; [|lra].
    apply Rounding.representable_check. vm_compute. reflexivity.
  - now apply InterpolatorBelow.just_below_zero.
Qed.

Lemma rainbow_negative_green_witness :
  Rainbow64.get_rainbow_color
    (Binary64.Finite (- (3602879701896397 # 36028797018963968)))
  = Ok (254, -76, 0).
Proof.
  destruct (rainbow_negative_green
              (- (3602879701896397 # 36028797018963968)))
    as [r [g [E _]]].
  - reflexivity.
  - left. unfold Qle. simpl. lia.
  - rewrite E. vm_compute in E. symmetry. exact E.
Defined.

(** ** More of pipeline B *)

(** A loop that only draws, on an image whose shape the body relies on. *)
Lemma for_each_draw_all_shaped {A : Type} (l : list A)
      (body : Image -> A -> M Image) (f : A -> list draw_op)
      (m : mode) (w h : Z) (log : list canvas) :
  (forall im a, In a l -> shaped m w h im ->
                body im a log = (log, Ok (draw_all im (f a)))) ->
  forall im, shaped m w h im ->
             for_each l im body log = (log, Ok (draw_all im (flat_map f l))).
Proof.
  induction l as [|a l IH]; intros Hb im Him; simpl; [reflexivity|].
  rewrite (bind_ok _ _ _ _ _ (Hb im a (or_introl eq_refl) Him)).
  rewrite IH.
  - now rewrite draw_all_app.
  - intros im0 a0 Hin. apply Hb. now right.
  - now apply draw_all_shaped.
Qed.

Lemma putpixel_draws (im : Image) (x y : Z) (value : ink)
      (m : mode) (w h : Z) (log : list canvas) :
  0 <= x < w -> 0 <= y < h -> shaped m w h im ->
  putpixel im x y value log = (log, Ok (draw_all im [PutPixel x y value])).
Proof.
  intros Hx Hy [_ [Hw Hh]]. unfold putpixel. rewrite Hw, Hh.
  destruct (0 <=? x) eqn:E1; [|lia]. destruct (x <? w) eqn:E2; [|lia].
  destruct (0 <=? y) eqn:E3; [|lia]. destruct (y <? h) eqn:E4; [|lia].
  reflexivity.
Qed.

Lemma length_flat_map_const {A B : Type} (f : A -> list B) (l : list A)
      (k : nat) :
  (forall a, In a l -> length (f a) = k) ->
  length (flat_map f l) = (length l * k)%nat.
Proof.
  induction l as [|a l IH]; intros H; simpl; [reflexivity|].
  rewrite length_app, H by (now left). rewrite IH; [lia|].
  intros a0 Hin. apply H. now right.
Qed.

Module InfinityCalls.
Import PipelineB Infinity.

Section WithMath.
Variables math_sqrt math_sin math_cos : Q -> Q.
Variable math_pi : Q.

(** [math.sqrt] of a positive integer is not zero. *)
Hypothesis sqrt_nonzero :
  forall n : Z, 0 < n -> Qeq_bool (math_sqrt (inject_Z n)) 0 = false.

Lemma radial_gradient_draws (size : Z) (c1 c2 : rgb) (log : list canvas) :
  0 <= size -> size <> 1 ->
  create_gradient_background math_sqrt size c1 c2 log
  = (log ++ [mkCanvas RGB size size],
     Ok (radial_image math_sqrt size c1 c2)).
Proof.
  intros Hs Hne. unfold create_gradient_background.
  rewrite (bind_ok _ _ _ _ _ (new_blank RGB size size _ log Hs Hs)).
  cbv zeta. unfold radial_image, radial_pixels.
  apply for_each_draw_all_shaped with (m := RGB) (w := size) (h := size);
    [|repeat split].
  intros im y Hy Him. apply in_range in Hy.
  erewrite for_each_draw_all_shaped
    with (f := fun x => [radial_pixel math_sqrt size c1 c2 x y])
         (m := RGB) (w := size) (h := size); [|clear im Him|exact Him].
  - now rewrite flat_map_singleton.
  - intros im x Hx Him. apply in_range in Hx.
    assert (Hc : 1 <= size / 2) by (apply Z.div_le_lower_bound; lia).
    unfold float_div. rewrite sqrt_nonzero by nia.
    unfold bind at 1, ret at 1.
    now apply putpixel_draws with (m := RGB) (w := size) (h := size).
Qed.

Lemma curve_points_length (size : Z) :
  length (curve_points math_sin math_cos math_pi size) = 400%nat.
Proof.
  unfold curve_points, draw_infinity_symbol.
  now rewrite length_map, range_length.
Qed.

Lemma create_app_icon_evaluates (size : Z) :
  0 <= size -> size <> 1 ->
  create_app_icon math_sqrt math_sin math_cos math_pi size []
  = ([ mkCanvas RGB size size; mkCanvas L size size;
       mkCanvas RGBA size size; mkCanvas RGB size size ],
     Ok (mkImage RGB size size
                 (app_icon_content math_sqrt math_sin math_cos math_pi size))).
Proof.
  intros Hs Hne. unfold create_app_icon. cbv zeta.
  rewrite (bind_ok _ _ _ _ _ (radial_gradient_draws size _ _ [] Hs Hne)).
  rewrite (bind_ok _ _ _ _ _ (Stroke.draw_thick_curve_draws _ _ _ _)).
  rewrite (bind_ok _ _ _ _ _ (rounded_mask_image size _ Hs)).
  rewrite (bind_ok _ _ _ _ _ (new_blank RGBA size size _ _ Hs Hs)).
  rewrite (bind_ok _ _ _ _ _ (paste_plain _ _ _)).
  erewrite bind_ok; [|apply putalpha_band; repeat split].
  rewrite (bind_ok _ _ _ _ _ (new_blank RGB size size _ _ Hs Hs)).
  unfold paste. cbn [im_width im_height]. rewrite !Z.eqb_refl.
  reflexivity.
Qed.

End WithMath.

Section Degenerate.
Variables math_sqrt math_sin math_cos : Q -> Q.
Variable math_pi : Q.

(** [math.sqrt(0)] is zero. *)
Hypothesis sqrt_zero : Qeq_bool (math_sqrt (inject_Z 0)) 0 = true.

Lemma create_app_icon_one :
  create_app_icon math_sqrt math_sin math_cos math_pi 1 []
  = ([mkCanvas RGB 1 1], Raise ZeroDivisionError).
Proof.
  unfold create_app_icon. cbv zeta. apply bind_raise.
  unfold create_gradient_background.
  rewrite (bind_ok _ _ _ _ _
             (new_blank RGB 1 1 _ [] ltac:(lia) ltac:(lia))).
  cbv zeta. change (range 0 1) with [0]. cbn [for_each].
  apply bind_raise. apply bind_raise. apply bind_raise.
  unfold float_div. change (1 / 2) with 0. change (0 ^ 2 + 0 ^ 2) with 0.
  now rewrite sqrt_zero.
Qed.

End Degenerate.
End InfinityCalls.

Lemma create_app_icon_negative
      (math_sqrt math_sin math_cos : Q -> Q) (math_pi : Q) (size : Z) :
  size < 0 ->
  PipelineB.create_app_icon math_sqrt math_sin math_cos math_pi size []
  = ([], Raise ValueError).
Proof.
  intros Hs. unfold PipelineB.create_app_icon. cbv zeta.
  apply bind_raise. unfold PipelineB.create_gradient_background.
  apply bind_raise. apply new_negative. now left.
Qed.

(** X9.  With a square root that is zero at 0 and nowhere else,
    [create_app_icon] returns an image for every size from 0 up except 1.
    At size 1 the centre is (0, 0), [max_radius] is [sqrt(0) = 0] and the
    first pixel's [distance / max_radius] raises ZeroDivisionError; a
    negative size is refused by [Image.new] with ValueError. *)
Theorem create_app_icon_returns_iff
        (math_sqrt math_sin math_cos : Q -> Q) (math_pi : Q) (size : Z) :
  Qeq_bool (math_sqrt (inject_Z 0)) 0 = true ->
  (forall n : Z, 0 < n -> Qeq_bool (math_sqrt (inject_Z n)) 0 = false) ->
  let run :=
    PipelineB.create_app_icon math_sqrt math_sin math_cos math_pi size [] in
  ((exists (log : list canvas) (final : Image), run = (log, Ok final))
   <-> 0 <= size /\ size <> 1) /\
  (size = 1 -> run = ([mkCanvas RGB 1 1], Raise ZeroDivisionError)) /\
  (size < 0 -> run = ([], Raise ValueError)).
Proof.
  intros H0 Hnz run.
  assert (H1 : size = 1 -> run = ([mkCanvas RGB 1 1], Raise ZeroDivisionError)).
  { intros ->. now apply InfinityCalls.create_app_icon_one. }
  assert (Hneg : size < 0 -> run = ([], Raise ValueError)).
  { intros Hs. now apply create_app_icon_negative. }
  split; [|split; assumption]. split.
  - intros [log [final E]].
    destruct (Z_lt_le_dec size 0) as [Hs | Hs];
      [rewrite (Hneg Hs) in E; discriminate|].
    split; [exact Hs|]. intros Heq. rewrite (H1 Heq) in E. discriminate.
  - intros [Hs Hne]. do 2 eexists.
    now apply InfinityCalls.create_app_icon_evaluates.
Qed.

Lemma identity_nonzero (n : Z) : 0 < n -> Qeq_bool (inject_Z n) 0 = false.
Proof. intros Hn. destruct n; try lia. reflexivity. Qed.

Lemma create_app_icon_returns_iff_witness :
  PipelineB.create_app_icon (fun q => q) (fun _ => 0%Q) (fun _ => 1%Q) 3%Q 1 []
  = ([mkCanvas RGB 1 1], Raise ZeroDivisionError).
Proof.
  destruct (create_app_icon_returns_iff
              (fun q => q) (fun _ => 0%Q) (fun _ => 1%Q) 3%Q 1)
    as [_ [H _]].
  - reflexivity.
  - exact identity_nonzero.
  - apply H. reflexivity.
Defined.

(** X10.  For a size of at least 2, [create_app_icon] (up to the save)
    allocates four canvases (gradient, mask, RGBA output, RGB final) and
    builds an RGB image in this order: the radial gradient with the symbol
    stroked on it is pasted on a transparent canvas, the mask becomes the
    alpha channel, and the result is pasted on an opaque white canvas
    through its own alpha. *)
Theorem create_app_icon_layers
        (math_sqrt math_sin math_cos : Q -> Q) (math_pi : Q) (size : Z) :
  (forall n : Z, 0 < n -> Qeq_bool (math_sqrt (inject_Z n)) 0 = false) ->
  2 <= size ->
  PipelineB.create_app_icon math_sqrt math_sin math_cos math_pi size []
  = ([ mkCanvas RGB size size; mkCanvas L size size;
       mkCanvas RGBA size size; mkCanvas RGB size size ],
     Ok (mkImage RGB size size
                 (Infinity.app_icon_content
                    math_sqrt math_sin math_cos math_pi size))) /\
  length (Infinity.curve_points math_sin math_cos math_pi size) = 400%nat /\
  Z.of_nat (length (Infinity.radial_pixels math_sqrt size
                                           (147, 112, 219) (75, 0, 130)))
  = size * size.
Proof.
  intros Hnz Hs.
  split; [apply InfinityCalls.create_app_icon_evaluates; [exact Hnz|lia|lia]|].
  split; [apply InfinityCalls.curve_points_length|].
  unfold Infinity.radial_pixels.
  rewrite (length_flat_map_const _ _ (Z.to_nat size)).
  - rewrite range_length. lia.
  - intros y _. rewrite length_map, range_length. f_equal. lia.
Qed.

Lemma create_app_icon_layers_witness :
  PipelineB.create_app_icon (fun q => q) (fun _ => 0%Q) (fun _ => 1%Q) 3%Q
                            1024 []
  = ([ mkCanvas RGB 1024 1024; mkCanvas L 1024 1024;
       mkCanvas RGBA 1024 1024; mkCanvas RGB 1024 1024 ],
     Ok (mkImage RGB 1024 1024
                 (Infinity.app_icon_content
                    (fun q => q) (fun _ => 0%Q) (fun _ => 1%Q) 3%Q 1024))).
Proof.
  apply (create_app_icon_layers
           (fun q => q) (fun _ => 0%Q) (fun _ => 1%Q) 3%Q 1024).
  - exact identity_nonzero.
  - lia.
Defined.

(** The lines of one segment: two per offset, all of width 3. *)
Lemma segment_lines_count (points : list (Q * Q)) (line_width i : Z) :
  0 <= i < Z.of_nat (length points) - 1 ->
  length (PipelineB.segment_lines points line_width i)
  = (length (PipelineB.stroke_offsets line_width) * 2)%nat.
Proof.
  intros Hi.
  destruct (Stroke.segment_lines_spec points line_width i Hi)
    as [color [p1 [p2 [_ [_ [_ [_ ->]]]]]]].
  apply length_flat_map_const. intros o _.
  destruct p1, p2. reflexivity.
Qed.

Lemma segment_lines_width (points : list (Q * Q)) (line_width i : Z)
      (op : draw_op) :
  In op (PipelineB.segment_lines points line_width i) ->
  exists (x0 y0 x1 y1 : Q) (fill : ink), op = Line x0 y0 x1 y1 fill 3.
Proof.
  unfold PipelineB.segment_lines. cbv zeta.
  destruct (get_rainbow_color _) as [color|]; [|intros []].
  destruct (getitem points i) as [p1|]; [|intros []].
  destruct (getitem points (i + 1)) as [p2|]; [|intros []].
  intros Hop. apply in_flat_map in Hop. destruct Hop as [o [_ Hop]].
  apply Stroke.offset_lines_fill in Hop.
  destruct Hop as [x0 [y0 [x1 [y1 ->]]]]. now do 5 eexists.
Qed.

Lemma stroke_offsets_count (line_width : Z) :
  Z.of_nat (length (PipelineB.stroke_offsets line_width)) = Z.max 0 line_width.
Proof.
  destruct (Z_lt_le_dec line_width 0) as [Hn | Hp].
  - unfold PipelineB.stroke_offsets. rewrite range_length.
    pose proof (Z.div_mod (- line_width) 2).
    pose proof (Z.mod_pos_bound (- line_width) 2).
    pose proof (Z.div_mod line_width 2).
    pose proof (Z.mod_pos_bound line_width 2). lia.
  - rewrite Stroke.stroke_offsets_length by exact Hp. lia.
Qed.

(** X11.  The stroke loop never raises.  On [N] points with line width
    [w] it adds exactly [2 * max(0, w) * max(0, N - 1)] calls of [line] to
    the image, every one of width 3; with fewer than two points or a line
    width of zero or less it draws nothing. *)
Theorem stroke_line_count
        (img : Image) (points : list (Q * Q)) (line_width : Z)
        (log : list canvas) :
  exists (img' : Image) (lines : list draw_op),
    PipelineB.draw_thick_curve img points line_width log = (log, Ok img') /\
    ops_of (im_data img') = ops_of (im_data img) ++ lines /\
    Z.of_nat (length lines)
    = 2 * Z.max 0 line_width * Z.max 0 (Z.of_nat (length points) - 1) /\
    forall op : draw_op, In op lines ->
      exists (x0 y0 x1 y1 : Q) (fill : ink), op = Line x0 y0 x1 y1 fill 3.
Proof.
  do 2 eexists. split; [apply Stroke.draw_thick_curve_draws|].
  split; [apply ops_of_draw_all|]. split.
  - rewrite (length_flat_map_const _ _
               (length (PipelineB.stroke_offsets line_width) * 2)).
    + rewrite range_length.
      pose proof (stroke_offsets_count line_width). nia.
    + intros i Hi. apply in_range in Hi. now apply segment_lines_count.
  - intros op Hop. apply in_flat_map in Hop. destruct Hop as [i [_ Hop]].
    now apply segment_lines_width in Hop.
Qed.

(** X12.  [create_app_icon] takes [int(size * 0.08)] as line width.  For
    the sizes from 0 to 12 that is 0, the range of offsets is empty and the
    stroke loop returns the image as it was: such an icon shows no
    infinity symbol.  From size 13 on the line width is at least 1. *)
Theorem small_icons_have_no_symbol
        (size : Z) (img : Image) (points : list (Q * Q)) (log : list canvas) :
  0 <= size ->
  let line_width := int (inject_Z size * (8 # 100))%Q in
  (size <= 12 ->
   line_width = 0 /\
   PipelineB.draw_thick_curve img points line_width log = (log, Ok img)) /\
  (13 <= size -> 1 <= line_width).
Proof.
  intros Hs line_width.
  assert (E : line_width = size * 8 / 100).
  { unfold line_width, int. cbn [Qnum Qden Qmult inject_Z].
    rewrite Z.quot_div_nonneg by lia. reflexivity. }
  split.
  - intros Hle.
    assert (E0 : line_width = 0) by (rewrite E; apply Z.div_small; lia).
    split; [exact E0|]. rewrite Stroke.draw_thick_curve_draws, E0.
    assert (N : forall l : list Z,
               flat_map (PipelineB.segment_lines points 0) l = []).
    { induction l as [|i l IH]; [reflexivity|]. simpl. rewrite IH.
      unfold PipelineB.segment_lines. cbv zeta.
      destruct (get_rainbow_color _); [|reflexivity].
      destruct (getitem points i); [|reflexivity].
      destruct (getitem points (i + 1)); reflexivity. }
    now rewrite N.
  - intros Hge. rewrite E. apply Z.div_le_lower_bound; lia.
Qed.

Lemma small_icons_have_no_symbol_witness :
  PipelineB.draw_thick_curve (mkImage RGB 12 12 (Blank [0; 0; 0]))
                             [(0, 0); (1, 1)]%Q
                             (int (inject_Z 12 * (8 # 100))%Q) []
  = ([], Ok (mkImage RGB 12 12 (Blank [0; 0; 0]))).
Proof.
  destruct (small_icons_have_no_symbol
              12 (mkImage RGB 12 12 (Blank [0; 0; 0])) [(0, 0); (1, 1)]%Q [])
    as [H _].
  - lia.
  - apply H. lia.
Defined.

Module RadialFacts.
Import PipelineB Infinity.

Section WithSqrt.
Variable math_sqrt : Q -> Q.

(** What the proofs use of [math.sqrt] on the integers: zero at zero,
    positive above it, and monotone. *)
Hypothesis sqrt_zero : (math_sqrt (inject_Z 0) == 0)%Q.
Hypothesis sqrt_positive :
  forall n : Z, 0 < n -> (0 < math_sqrt (inject_Z n))%Q.
Hypothesis sqrt_monotone :
  forall m n : Z, 0 <= m <= n ->
                  (math_sqrt (inject_Z m) <= math_sqrt (inject_Z n))%Q.

Lemma sqrt_never_zero (n : Z) :
  0 < n -> Qeq_bool (math_sqrt (inject_Z n)) 0 = false.
Proof.
  intros Hn. destruct (Qeq_bool _ 0) eqn:E; [|reflexivity].
  apply Qeq_bool_iff in E. pose proof (sqrt_positive n Hn) as P.
  rewrite E in P. now apply Qlt_irrefl in P.
Qed.

Lemma sqrt_nonneg (n : Z) : 0 <= n -> (0 <= math_sqrt (inject_Z n))%Q.
Proof.
  intros Hn. rewrite <- sqrt_zero. apply sqrt_monotone. lia.
Qed.

Lemma radial_ratio_range (size x y : Z) :
  2 <= size -> 0 <= x < size -> 0 <= y < size ->
  (0 <= radial_ratio math_sqrt size x y <= 1)%Q.
Proof.
  intros Hs Hx Hy. unfold radial_ratio.
  assert (Hc : 1 <= size / 2) by (apply Z.div_le_lower_bound; lia).
  assert (Hu : size <= 2 * (size / 2) + 1).
  { pose proof (Z.div_mod size 2). pose proof (Z.mod_pos_bound size 2). lia. }
  set (c := size / 2) in *.
  pose proof (sqrt_positive (c ^ 2 + c ^ 2) ltac:(nia)) as Pm.
  pose proof (sqrt_nonneg ((x - c) ^ 2 + (y - c) ^ 2) ltac:(nia)) as Pd.
  pose proof (sqrt_monotone ((x - c) ^ 2 + (y - c) ^ 2) (c ^ 2 + c ^ 2)
                            ltac:(nia)) as Pl.
  set (d := math_sqrt (inject_Z ((x - c) ^ 2 + (y - c) ^ 2))) in *.
  set (m := math_sqrt (inject_Z (c ^ 2 + c ^ 2))) in *.
  split.
  - apply Qle_shift_div_l; [exact Pm|]. now rewrite Qmult_0_l.
  - apply Qle_shift_div_r; [exact Pm|]. now rewrite Qmult_1_l.
Qed.

Lemma radial_ratio_centre (size : Z) :
  2 <= size ->
  (radial_ratio math_sqrt size (size / 2) (size / 2) == 0)%Q.
Proof.
  intros Hs. unfold radial_ratio.
  replace ((size / 2 - size / 2) ^ 2 + (size / 2 - size / 2) ^ 2) with 0
    by (rewrite Z.sub_diag; reflexivity).
  unfold Qdiv. rewrite sqrt_zero. apply Qmult_0_l.
Qed.

Lemma radial_ratio_origin (size : Z) :
  2 <= size -> (radial_ratio math_sqrt size 0 0 == 1)%Q.
Proof.
  intros Hs. unfold radial_ratio.
  assert (Hc : 1 <= size / 2) by (apply Z.div_le_lower_bound; lia).
  replace ((0 - size / 2) ^ 2 + (0 - size / 2) ^ 2)
    with ((size / 2) ^ 2 + (size / 2) ^ 2) by ring.
  pose proof (sqrt_positive ((size / 2) ^ 2 + (size / 2) ^ 2) ltac:(nia)) as P.
  apply Qmult_inv_r. intros E. rewrite E in P. now apply Qlt_irrefl in P.
Qed.

Lemma blend_at_0 (c1 c2 : Z) (t : Q) : (t == 0)%Q -> blend c1 c2 t = c1.
Proof.
  intros E. unfold blend. rewrite <- (int_inject_Z c1) at 2.
  apply int_compat. rewrite E. ring.
Qed.

Lemma blend_at_1 (c1 c2 : Z) (t : Q) : (t == 1)%Q -> blend c1 c2 t = c2.
Proof.
  intros E. unfold blend. rewrite <- (int_inject_Z c2) at 2.
  apply int_compat. rewrite E. ring.
Qed.

Lemma in_radial_pixels (size : Z) (c1 c2 : rgb) (op : draw_op) :
  In op (radial_pixels math_sqrt size c1 c2) <->
  exists x y : Z, 0 <= x < size /\ 0 <= y < size /\
                  op = radial_pixel math_sqrt size c1 c2 x y.
Proof.
  unfold radial_pixels. rewrite in_flat_map. split.
  - intros [y [Hy Hop]]. apply in_map_iff in Hop. destruct Hop as [x [E Hx]].
    apply in_range in Hx. apply in_range in Hy. now exists x, y.
  - intros [x [y [Hx [Hy ->]]]]. exists y. split; [now apply in_range|].
    apply in_map_iff. exists x. split; [reflexivity | now apply in_range].
Qed.

Lemma radial_pixels_length (size : Z) (c1 c2 : rgb) :
  0 <= size ->
  Z.of_nat (length (radial_pixels math_sqrt size c1 c2)) = size * size.
Proof.
  intros Hs. unfold radial_pixels.
  rewrite (length_flat_map_const _ _ (Z.to_nat size)).
  - rewrite range_length. lia.
  - intros y _. rewrite length_map, range_length. f_equal. lia.
Qed.

End WithSqrt.
End RadialFacts.

(** X13.  The radial [create_gradient_background], for a size of at least
    2 and a square root that is zero at 0 and positive above it.  The call
    returns after allocating one RGB canvas; it calls [putpixel]
    [size * size] times and nothing else, once for each [(x, y)] of the
    canvas and never outside it; the centre pixel
    [(size // 2, size // 2)], where the ratio is 0, gets exactly [color1],
    and the corner [(0, 0)], as far from the centre as [max_radius] so
    that the ratio is 1, gets exactly [color2]. *)
Theorem radial_gradient_pixels
        (math_sqrt : Q -> Q) (size : Z) (color1 color2 : rgb)
        (log : list canvas) :
  (math_sqrt (inject_Z 0) == 0)%Q ->
  (forall n : Z, 0 < n -> (0 < math_sqrt (inject_Z n))%Q) ->
  2 <= size ->
  exists img : Image,
    PipelineB.create_gradient_background math_sqrt size color1 color2 log
    = (log ++ [mkCanvas RGB size size], Ok img) /\
    Z.of_nat (length (ops_of (im_data img))) = size * size /\
    (forall x y : Z, 0 <= x < size -> 0 <= y < size ->
       exists fill : ink, In (PutPixel x y fill) (ops_of (im_data img))) /\
    (forall op : draw_op, In op (ops_of (im_data img)) ->
       exists (x y : Z) (fill : ink),
         op = PutPixel x y fill /\ 0 <= x < size /\ 0 <= y < size) /\
    In (PutPixel (size / 2) (size / 2) (rgb_ink color1))
       (ops_of (im_data img)) /\
    In (PutPixel 0 0 (rgb_ink color2)) (ops_of (im_data img)).
Proof.
  intros H0 Hpos Hs.
  exists (Infinity.radial_image math_sqrt size color1 color2).
  assert (Hops : ops_of (im_data (Infinity.radial_image math_sqrt size
                                                        color1 color2))
                 = Infinity.radial_pixels math_sqrt size color1 color2).
  { unfold Infinity.radial_image. now rewrite ops_of_draw_all. }
  rewrite Hops.
  assert (Hc : 0 <= size / 2 < size).
  { split; [apply Z.div_pos; lia | apply Z.div_lt_upper_bound; lia]. }
  split.
  { apply InfinityCalls.radial_gradient_draws; [|lia|lia].
    intros n Hn. now apply RadialFacts.sqrt_never_zero. }
  split; [apply RadialFacts.radial_pixels_length; lia|].
  split; [|split; [|split]].
  - intros x y Hx Hy. eexists.
    apply RadialFacts.in_radial_pixels. exists x, y.
    split; [exact Hx|]. split; [exact Hy|]. reflexivity.
  - intros op Hop. apply RadialFacts.in_radial_pixels in Hop.
    destruct Hop as [x [y [Hx [Hy ->]]]]. now do 3 eexists.
  - apply RadialFacts.in_radial_pixels. exists (size / 2), (size / 2).
    split; [exact Hc|]. split; [exact Hc|].
    unfold Infinity.radial_pixel, rgb_ink. cbv zeta.
    pose proof (RadialFacts.radial_ratio_centre math_sqrt H0 size Hs) as E.
    now rewrite !(RadialFacts.blend_at_0 _ _ _ E).
  - apply RadialFacts.in_radial_pixels. exists 0, 0.
    split; [lia|]. split; [lia|].
    unfold Infinity.radial_pixel, rgb_ink. cbv zeta.
    pose proof (RadialFacts.radial_ratio_origin math_sqrt Hpos size Hs) as E.
    now rewrite !(RadialFacts.blend_at_1 _ _ _ E).
Qed.

Lemma identity_positive (n : Z) : 0 < n -> (0 < inject_Z n)%Q.
Proof. intros Hn. change 0%Q with (inject_Z 0). now rewrite <- Zlt_Qlt. Qed.

Lemma radial_gradient_pixels_witness :
  exists img : Image,
    PipelineB.create_gradient_background
      (fun q => q) 1024 (147, 112, 219) (75, 0, 130) []
    = ([mkCanvas RGB 1024 1024], Ok img) /\
    In (PutPixel 512 512 [147; 112; 219]) (ops_of (im_data img)) /\
    In (PutPixel 0 0 [75; 0; 130]) (ops_of (im_data img)).
Proof.
  destruct (radial_gradient_pixels
              (fun q => q) 1024 (147, 112, 219) (75, 0, 130) [])
    as [img [E [_ [_ [_ [Hc Ho]]]]]].
  - reflexivity.
  - exact identity_positive.
  - lia.
  - exists img. split; [exact E|]. split; [exact Hc | exact Ho].
Defined.

Module CurveShape.
Import PipelineB Curve.
Local Open Scope R_scope.

Lemma sin_cos_square (t : R) : sin t * sin t + cos t * cos t = 1.
Proof. pose proof (sin2_cos2 t) as H. unfold Rsqr in H. exact H. Qed.

(** [cos t / (1 + sin^2 t)] stays within [-1, 1]. *)
Lemma x_factor_bound (t : R) :
  (cos t / (1 + sin t * sin t)) * (cos t / (1 + sin t * sin t)) <= 1.
Proof.
  pose proof (sin_cos_square t) as P.
  set (s := sin t) in *. set (c := cos t) in *.
  assert (D : 0 < 1 + s * s) by nra.
  pose proof (Rinv_0_lt_compat _ D) as K.
  assert (E : (1 + s * s) * / (1 + s * s) = 1) by (apply Rinv_r; lra).
  unfold Rdiv. set (k := / (1 + s * s)) in *.
  assert (K1 : k <= 1) by nra.
  assert (C1 : c * c <= 1) by nra.
  assert (K2 : k * k <= 1) by nra.
  replace (c * k * (c * k)) with ((c * c) * (k * k)) by ring.
  assert (0 <= c * c) by nra. assert (0 <= k * k) by nra. nra.
Qed.

(** [sin t cos t / (1 + sin^2 t)] stays within [-1/sqrt 8, 1/sqrt 8]:
    [(1 + u)^2 - 8 u (1 - u) = (3 u - 1)^2] for [u = sin^2 t]. *)
Lemma y_factor_bound (t : R) :
  8 * ((sin t * cos t / (1 + sin t * sin t))
       * (sin t * cos t / (1 + sin t * sin t))) <= 1.
Proof.
  pose proof (sin_cos_square t) as P.
  set (s := sin t) in *. set (c := cos t) in *.
  assert (D : 0 < 1 + s * s) by nra.
  pose proof (Rinv_0_lt_compat _ D) as K.
  assert (E : (1 + s * s) * / (1 + s * s) = 1) by (apply Rinv_r; lra).
  unfold Rdiv. set (k := / (1 + s * s)) in *.
  assert (N : 8 * (s * s * (c * c)) <= (1 + s * s) * (1 + s * s)).
  { replace (c * c) with (1 - s * s) by lra.
    pose proof (Rle_0_sqr (3 * (s * s) - 1)) as S. unfold Rsqr in S. lra. }
  assert (E2 : (1 + s * s) * (1 + s * s) * (k * k) = 1).
  { replace ((1 + s * s) * (1 + s * s) * (k * k))
      with (((1 + s * s) * k) * ((1 + s * s) * k)) by ring.
    rewrite E. ring. }
  replace (8 * (s * c * k * (s * c * k)))
    with (8 * (s * s * (c * c)) * (k * k)) by ring.
  rewrite <- E2. apply Rmult_le_compat_r; [nra | exact N].
Qed.

Section Sampled.
Variables center_x center_y width height num_points : Z.
Hypothesis enough : (2 <= num_points)%Z.

Lemma parameter_mirror (i : Z) :
  parameter num_points (num_points - i) = 2 * PI - parameter num_points i.
Proof.
  unfold parameter. rewrite minus_IZR. field.
  now apply CurveFacts.num_points_nonzero.
Qed.

Lemma parameter_half_turn (i half : Z) :
  num_points = (2 * half)%Z ->
  parameter num_points (i + half) = parameter num_points i + PI.
Proof.
  intros E. unfold parameter. rewrite E, plus_IZR, mult_IZR. field.
  apply not_0_IZR. lia.
Qed.

Lemma parameter_quarter (quarter : Z) :
  num_points = (4 * quarter)%Z ->
  parameter num_points quarter = PI / 2.
Proof.
  intros E. unfold parameter. rewrite E, mult_IZR. field.
  apply not_0_IZR. lia.
Qed.

End Sampled.
End CurveShape.

(** X14.  In real arithmetic every sampled point of the lemniscate lies in
    a box around the centre: [|x - center_x| <= width / 2] and
    [|y - center_y| <= height / (4 sqrt 2)], written with squares.  The
    symbol is therefore at most [width] wide but only [height / (2 sqrt 2)]
    high, about 35% of the [height] passed in. *)
Theorem lemniscate_samples_in_box
        (center_x center_y width height num_points i : Z) :
  2 <= num_points -> 0 <= i < num_points ->
  let p := Curve.sample center_x center_y width height num_points i in
  ((fst p - IZR center_x) * (fst p - IZR center_x)
   <= (IZR width / 2) * (IZR width / 2))%R /\
  (32 * ((snd p - IZR center_y) * (snd p - IZR center_y))
   <= IZR height * IZR height)%R.
Proof.
  intros Hn Hi p. unfold p.
  rewrite (CurveFacts.sample_at _ _ _ _ _ Hn i Hi). cbv zeta. cbn [fst snd].
  set (t := Curve.parameter num_points i).
  pose proof (CurveShape.x_factor_bound t) as X.
  pose proof (CurveShape.y_factor_bound t) as Y.
  pose proof (CurveFacts.denominator_nonzero t) as D.
  split.
  - replace ((IZR center_x + IZR width / 2 * cos t / (1 + sin t * sin t)
              - IZR center_x)
             * (IZR center_x + IZR width / 2 * cos t / (1 + sin t * sin t)
                - IZR center_x))%R
      with ((IZR width / 2 * (IZR width / 2))
            * ((cos t / (1 + sin t * sin t))
               * (cos t / (1 + sin t * sin t))))%R by (field; exact D).
    rewrite <- (Rmult_1_r (IZR width / 2 * (IZR width / 2))) at 2.
    apply Rmult_le_compat_l; [nra | exact X].
  - replace (32 * ((IZR center_y
                    + IZR height / 2 * sin t * cos t / (1 + sin t * sin t)
                    - IZR center_y)
                   * (IZR center_y
                      + IZR height / 2 * sin t * cos t / (1 + sin t * sin t)
                      - IZR center_y)))%R
      with ((IZR height * IZR height)
            * (8 * ((sin t * cos t / (1 + sin t * sin t))
                    * (sin t * cos t / (1 + sin t * sin t)))))%R
      by (field; exact D).
    rewrite <- (Rmult_1_r (IZR height * IZR height)) at 2.
    apply Rmult_le_compat_l; [nra | exact Y].
Qed.

Lemma lemniscate_samples_in_box_witness :
  ((fst (Curve.sample 512 512 665 307 400 100) - IZR 512)
   * (fst (Curve.sample 512 512 665 307 400 100) - IZR 512)
   <= (IZR 665 / 2) * (IZR 665 / 2))%R.
Proof.
  apply (lemniscate_samples_in_box 512 512 665 307 400 100); lia.
Defined.

(** X15.  In real arithmetic the sampled points are symmetric.  Point
    [num_points - i] is the mirror image of point [i] in the horizontal
    axis through the centre; for an even number of points, point
    [i + num_points / 2] is the mirror image of point [i] in the vertical
    axis through the centre. *)
Theorem lemniscate_samples_symmetric
        (center_x center_y width height num_points i : Z) :
  2 <= num_points -> 0 < i < num_points ->
  let sample := Curve.sample center_x center_y width height num_points in
  (sample (num_points - i)
   = (fst (sample i), (2 * IZR center_y - snd (sample i))%R)) /\
  (forall half : Z,
      num_points = 2 * half -> i < half ->
      sample (i + half)
      = ((2 * IZR center_x - fst (sample i))%R, snd (sample i))).
Proof.
  intros Hn Hi sample. unfold sample. split.
  - rewrite !(CurveFacts.sample_at _ _ _ _ _ Hn) by lia. cbv zeta.
    cbn [fst snd].
    rewrite (CurveShape.parameter_mirror num_points Hn i).
    set (t := Curve.parameter num_points i).
    pose proof (CurveFacts.denominator_nonzero t) as D.
    rewrite sin_minus, cos_minus, sin_2PI, cos_2PI.
    f_equal; field; nra.
  - intros half E Hh.
    rewrite !(CurveFacts.sample_at _ _ _ _ _ Hn) by lia. cbv zeta.
    cbn [fst snd].
    rewrite (CurveShape.parameter_half_turn num_points Hn i half E).
    set (t := Curve.parameter num_points i).
    pose proof (CurveFacts.denominator_nonzero t) as D.
    rewrite neg_sin, neg_cos.
    f_equal; field; nra.
Qed.

Lemma lemniscate_samples_symmetric_witness :
  Curve.sample 512 512 665 307 400 (400 - 7)
  = (fst (Curve.sample 512 512 665 307 400 7),
     (2 * IZR 512 - snd (Curve.sample 512 512 665 307 400 7))%R).
Proof.
  destruct (lemniscate_samples_symmetric 512 512 665 307 400 7) as [H _].
  - lia.
  - lia.
  - exact H.
Defined.

(** X16.  In real arithmetic, when the number of points is a multiple of
    four, the samples hit the four special points of the figure eight:
    point 0 is the right end [(center_x + width / 2, center_y)], the point
    half way is the left end [(center_x - width / 2, center_y)], and the
    points a quarter and three quarters of the way are both the centre,
    where the curve crosses itself. *)
Theorem lemniscate_samples_cross_at_centre
        (center_x center_y width height num_points quarter : Z) :
  num_points = 4 * quarter -> 1 <= quarter ->
  let sample := Curve.sample center_x center_y width height num_points in
  sample 0 = ((IZR center_x + IZR width / 2)%R, IZR center_y) /\
  sample quarter = (IZR center_x, IZR center_y) /\
  sample (2 * quarter) = ((IZR center_x - IZR width / 2)%R, IZR center_y) /\
  sample (3 * quarter) = (IZR center_x, IZR center_y).
Proof.
  intros E Hq sample. unfold sample.
  assert (Hn : 2 <= num_points) by lia.
  pose proof (CurveShape.parameter_quarter num_points Hn quarter E) as Q1.
  pose proof (CurveShape.parameter_half_turn
                num_points Hn 0 (2 * quarter) ltac:(lia)) as Q2.
  pose proof (CurveShape.parameter_half_turn
                num_points Hn quarter (2 * quarter) ltac:(lia)) as Q3.
  rewrite (CurveFacts.parameter_first num_points), Rplus_0_l in Q2.
  rewrite Q1 in Q3.
  replace (0 + 2 * quarter) with (2 * quarter) in Q2 by lia.
  replace (quarter + 2 * quarter) with (3 * quarter) in Q3 by lia.
  rewrite !(CurveFacts.sample_at _ _ _ _ _ Hn) by lia. cbv zeta.
  rewrite (CurveFacts.parameter_first num_points), Q1, Q2, Q3.
  rewrite neg_sin, neg_cos, sin_PI, cos_PI, sin_0, cos_0, sin_PI2, cos_PI2.
  repeat split; f_equal; field.
Qed.

Lemma lemniscate_samples_cross_at_centre_witness :
  Curve.sample 512 512 665 307 400 100 = (IZR 512, IZR 512) /\
  Curve.sample 512 512 665 307 400 300 = (IZR 512, IZR 512).
Proof.
  destruct (lemniscate_samples_cross_at_centre 512 512 665 307 400 100)
    as [_ [H1 [_ H3]]].
  - lia.
  - lia.
  - split; [exact H1 | exact H3].
Defined.

(** X17.  In binary64 the stroke loop's call of the interpolator cannot
    raise: for [0 <= i < n] the position [i / n] is a finite double from 0
    to 1, and [get_rainbow_color] returns a colour for it whose channels
    are bytes. *)
Theorem stroke_positions_have_colours (i n : Z) :
  0 <= i < n ->
  exists (q : Q) (r g b : Z),
    Binary64.true_div i n = Ok (Binary64.Finite q) /\
    (0 <= q <= 1)%Q /\
    Rainbow64.get_rainbow_color (Binary64.Finite q) = Ok (r, g, b) /\
    0 <= r <= 255 /\ 0 <= g <= 255 /\ 0 <= b <= 255.
Proof.
  intros H. destruct (InterpolatorBelow.true_div_unit i n H) as [E [L U]].
  destruct (InterpolatorRange.unit_position_bytes _ L U)
    as [r [g [b [Ec B]]]].
  exists (Binary64.round (inject_Z i / inject_Z n)), r, g, b.
  split; [exact E|]. split; [split; assumption|]. split; [exact Ec | exact B].
Qed.

Lemma stroke_positions_have_colours_witness :
  exists (q : Q) (r g b : Z),
    Binary64.true_div 1 400 = Ok (Binary64.Finite q) /\
    (0 <= q <= 1)%Q /\
    Rainbow64.get_rainbow_color (Binary64.Finite q) = Ok (r, g, b) /\
    0 <= r <= 255 /\ 0 <= g <= 255 /\ 0 <= b <= 255.
Proof.
  apply (stroke_positions_have_colours 1 400). lia.
Defined.
